(** * self-notes: search ranking and auto-save coordination

    A shallow embedding of the two hooks of the note-taking application that
    carry logic: [useSearch] (match finder, relevance scorer, search
    orchestrator) and [useAutoSave] (debounced persistence).

    Conventions of the embedding.
    - A JavaScript string is a list of code units; a code unit is an [ascii]
      (the Latin-1 range U+0000..U+00FF), on which [toLowerCase] and [trim]
      keep the length of their per-unit action.
    - JavaScript numbers that hold indices, lengths, scores and instants are
      integers ([Z]); the value [-1] of [indexOf] is kept as such.
    - A call that may throw returns a [completion]; a loop that may run for
      ever takes fuel and is [Diverge] when the fuel is exhausted. *)

From Stdlib Require Import List Ascii String ZArith Lia Bool Arith Sorted Permutation.
Import ListNotations.

Local Open Scope Z_scope.

(** ** JavaScript strings *)

Module JS.

Definition str := list ascii.

(** String literals of the source are written ["..."%string] and read as
    code unit lists. *)
Definition lit (s : string) : str := list_ascii_of_string s.

Definition len (s : str) : Z := Z.of_nat (List.length s).

Definition code (c : ascii) : Z := Z.of_N (N_of_ascii c).

Definition unit_of (z : Z) : ascii := ascii_of_N (Z.to_N z).

Definition between (lo hi z : Z) : bool := (lo <=? z) && (z <=? hi).

(** [String.prototype.toLowerCase] on one Latin-1 code unit: A..Z and the
    accented capitals U+00C0..U+00DE (the sign U+00D7 apart) move by 32. *)
Definition lower_unit (c : ascii) : ascii :=
  let z := code c in
  if between 65 90 z then unit_of (z + 32)
  else if between 192 222 z && negb (z =? 215) then unit_of (z + 32)
  else c.

Definition toLowerCase (s : str) : str := map lower_unit s.

(** White space and line terminators of the Latin-1 range, as
    [String.prototype.trim] removes them. *)
Definition is_space (c : ascii) : bool :=
  let z := code c in between 9 13 z || (z =? 32) || (z =? 160).

Fixpoint trimStart (s : str) : str :=
  match s with
  | c :: s' => if is_space c then trimStart s' else s
  | [] => []
  end.

Definition trimEnd (s : str) : str := rev (trimStart (rev s)).

Definition trim (s : str) : str := trimEnd (trimStart s).

(** Truthiness of a string: the empty string is falsy. *)
Definition truthy (s : str) : bool :=
  match s with [] => false | _ :: _ => true end.

Definition str_eqb (a b : str) : bool :=
  if list_eq_dec ascii_dec a b then true else false.

Fixpoint prefixb (p s : str) : bool :=
  match p, s with
  | [], _ => true
  | a :: p', b :: s' => Ascii.eqb a b && prefixb p' s'
  | _ :: _, [] => false
  end.

(** The scan of [indexOf]: [s] is the part of the subject that starts at
    offset [k]. *)
Fixpoint find_from (q s : str) (k : Z) : Z :=
  match s with
  | [] => if prefixb q [] then k else -1
  | _ :: s' => if prefixb q s then k else find_from q s' (k + 1)
  end.

Definition clamp (s : str) (z : Z) : Z := Z.min (Z.max z 0) (len s).

(** [s.indexOf(q, position)] *)
Definition indexOf (s q : str) (position : Z) : Z :=
  let pos := clamp s position in
  find_from q (skipn (Z.to_nat pos) s) pos.

(** [s.includes(q)] *)
Definition includes (s q : str) : bool := negb (indexOf s q 0 =? -1).

(** [s.startsWith(q)] *)
Definition startsWith (s q : str) : bool := prefixb q s.

(** [s.substring(start, end)]: both ends are clamped to the string and
    swapped when out of order. *)
Definition substring (s : str) (start end_ : Z) : str :=
  let a := clamp s start in
  let b := clamp s end_ in
  let from := Z.min a b in
  let to := Z.max a b in
  firstn (Z.to_nat (to - from)) (skipn (Z.to_nat from) s).

(** [a.slice(0, n)] on an array. *)
Definition slice0 {A} (n : nat) (l : list A) : list A := firstn n l.

End JS.

Import JS.

(** ** Completions *)

Inductive exn : Type :=
| SyntaxError   (* thrown by the RegExp constructor *)
| StoreError.   (* rejection of the Note Store read *)

Inductive completion (A : Type) : Type :=
| Return (a : A)
| Throw (e : exn)
| Diverge.       (* a loop that does not end *)
Arguments Return {A} a.
Arguments Throw {A} e.
Arguments Diverge {A}.

Definition cbind {A B} (c : completion A) (k : A -> completion B) : completion B :=
  match c with
  | Return a => k a
  | Throw e => Throw e
  | Diverge => Diverge
  end.

Notation "x <- c ;; k" := (cbind c (fun x => k))
  (at level 61, c at next level, right associativity).

(** ** Regular expressions of the host

    [new RegExp(pattern, 'g')] and [String.prototype.match] are modelled for
    the pattern syntax made of literal characters, [.], the escapes of the
    syntax characters, [\b], [\d], [\w], [\s], the assertions [^] and [$],
    groups, alternation and the quantifiers [*], [+], [?] (greedy or lazy).
    A pattern that uses anything else (character classes, braces, group
    specifiers, the other escapes) is [Beyond] the model and is answered by
    the host. *)

Module RegExp.

Inductive cls : Type := Digit | Word | Space.

Inductive regex : Type :=
| Empty
| Chr (c : ascii)
| Dot
| Cls (k : cls)
| Bol
| Eol
| WordB
| Cat (r1 r2 : regex)
| Alt (r1 r2 : regex)
| Star (greedy : bool) (r : regex)
| Plus (greedy : bool) (r : regex)
| Opt (greedy : bool) (r : regex)
| Group (r : regex).

(** *** Parsing a pattern *)

Inductive parsed : Type :=
| Parsed (r : regex)
| Invalid      (* the constructor throws a SyntaxError *)
| Beyond.      (* syntax outside the modelled fragment *)

(** One open group (or the top level): the alternatives already closed by
    [|] and the terms of the current alternative, both newest first. *)
Record frame : Type := mkFrame { alts : list regex; cur : list regex }.

Inductive mode : Type := Normal | Escape | Opened.

Record pstate : Type := mkPState {
  outer : list frame;   (* enclosing groups, innermost first *)
  top : frame;
  pmode : mode
}.

Inductive presult : Type :=
| POk (st : pstate)
| PInvalid
| PBeyond.

Definition seq_of (terms : list regex) : regex := fold_right Cat Empty terms.

Fixpoint alt_of (first : regex) (others : list regex) : regex :=
  match others with
  | [] => first
  | r :: rs => Alt first (alt_of r rs)
  end.

(** The disjunction held by a frame, alternatives in source order. *)
Definition close (f : frame) : regex :=
  match rev (seq_of (rev (cur f)) :: alts f) with
  | [] => Empty
  | r :: rs => alt_of r rs
  end.

Definition push_term (st : pstate) (t : regex) : presult :=
  POk (mkPState (outer st) (mkFrame (alts (top st)) (t :: cur (top st))) Normal).

Definition is_atom (r : regex) : bool :=
  match r with
  | Chr _ | Dot | Cls _ | Group _ => true
  | _ => false
  end.

(** A quantifier character applies to the last term: an atom takes the
    greedy quantifier, a greedy quantifier takes [?] and becomes lazy,
    anything else leaves nothing to repeat. *)
Definition quantify (st : pstate) (c : ascii) : presult :=
  match cur (top st) with
  | [] => PInvalid
  | t :: ts =>
      let put t' := POk (mkPState (outer st) (mkFrame (alts (top st)) (t' :: ts)) Normal) in
      if is_atom t then
        if Ascii.eqb c "*" then put (Star true t)
        else if Ascii.eqb c "+" then put (Plus true t)
        else put (Opt true t)
      else if Ascii.eqb c "?" then
        match t with
        | Star true r => put (Star false r)
        | Plus true r => put (Plus false r)
        | Opt true r => put (Opt false r)
        | _ => PInvalid
        end
      else PInvalid
  end.

Definition is_syntax_char (c : ascii) : bool :=
  existsb (Ascii.eqb c) (lit "^$\.*+?()[]{}|").

Definition step_escape (st : pstate) (c : ascii) : presult :=
  if is_syntax_char c || Ascii.eqb c "/" then push_term st (Chr c)
  else if Ascii.eqb c "b" then push_term st WordB
  else if Ascii.eqb c "d" then push_term st (Cls Digit)
  else if Ascii.eqb c "w" then push_term st (Cls Word)
  else if Ascii.eqb c "s" then push_term st (Cls Space)
  else PBeyond.

Definition step_normal (st : pstate) (c : ascii) : presult :=
  if Ascii.eqb c "\" then POk (mkPState (outer st) (top st) Escape)
  else if Ascii.eqb c "(" then
    POk (mkPState (top st :: outer st) (mkFrame [] []) Opened)
  else if Ascii.eqb c ")" then
    match outer st with
    | [] => PInvalid
    | f :: fs =>
        POk (mkPState fs (mkFrame (alts f) (Group (close (top st)) :: cur f)) Normal)
    end
  else if Ascii.eqb c "|" then
    POk (mkPState (outer st)
           (mkFrame (seq_of (rev (cur (top st))) :: alts (top st)) []) Normal)
  else if Ascii.eqb c "*" || Ascii.eqb c "+" || Ascii.eqb c "?" then quantify st c
  else if Ascii.eqb c "." then push_term st Dot
  else if Ascii.eqb c "^" then push_term st Bol
  else if Ascii.eqb c "$" then push_term st Eol
  else if Ascii.eqb c "[" || Ascii.eqb c "{" then PBeyond
  else push_term st (Chr c).

Definition step (st : pstate) (c : ascii) : presult :=
  match pmode st with
  | Escape => step_escape st c
  | Opened => if Ascii.eqb c "?" then PBeyond else step_normal st c
  | Normal => step_normal st c
  end.

Definition finish (st : pstate) : parsed :=
  match pmode st, outer st with
  | Escape, _ => Invalid          (* \ at end of pattern *)
  | _, _ :: _ => Invalid          (* unterminated group *)
  | _, [] => Parsed (close (top st))
  end.

Fixpoint parse_from (st : pstate) (pattern : str) : parsed :=
  match pattern with
  | [] => finish st
  | c :: rest =>
      match step st c with
      | POk st' => parse_from st' rest
      | PInvalid => Invalid
      | PBeyond => Beyond
      end
  end.

Definition start : pstate := mkPState [] (mkFrame [] []) Normal.

Definition compile (pattern : str) : parsed := parse_from start pattern.

(** *** Matching *)

(** A position in the subject: the code units before it, nearest first,
    and the code units from it on. *)
Record pos : Type := mkPos { before : str; after : str }.

Definition is_word (c : ascii) : bool :=
  let z := code c in
  between 48 57 z || between 65 90 z || between 97 122 z || (z =? 95).

Definition is_digit (c : ascii) : bool := between 48 57 (code c).

Definition is_line_terminator (c : ascii) : bool :=
  let z := code c in (z =? 10) || (z =? 13).

Definition in_cls (k : cls) (c : ascii) : bool :=
  match k with
  | Digit => is_digit c
  | Word => is_word c
  | Space => is_space c
  end.

Definition word_before (p : pos) : bool :=
  match before p with c :: _ => is_word c | [] => false end.

Definition word_after (p : pos) : bool :=
  match after p with c :: _ => is_word c | [] => false end.

Definition at_boundary (p : pos) : bool := xorb (word_before p) (word_after p).

Definition eat (test : ascii -> bool) (p : pos) (k : pos -> option pos) : option pos :=
  match after p with
  | c :: rest => if test c then k (mkPos (c :: before p) rest) else None
  | [] => None
  end.

Definition progress (p p' : pos) : bool :=
  (List.length (after p') <? List.length (after p))%nat.

Definition orelse (a : option pos) (b : option pos) : option pos :=
  match a with Some _ => a | None => b end.

(** Backtracking matcher in continuation style: [m r p k] is the end of
    the first way, in priority order, to match [r] at [p] and have the
    continuation [k] succeed. An iteration of a quantifier that consumes
    nothing is rejected, so the loop runs at most once per code unit left. *)
Fixpoint m (r : regex) (p : pos) (k : pos -> option pos) {struct r} : option pos :=
  let repeat (greedy : bool) (body : regex) :=
    fix loop (n : nat) (p : pos) {struct n} : option pos :=
      match n with
      | O => k p
      | S n' =>
          let again := m body p (fun p' => if progress p p' then loop n' p' else None) in
          if greedy then orelse again (k p) else orelse (k p) again
      end in
  match r with
  | Empty => k p
  | Chr c => eat (Ascii.eqb c) p k
  | Dot => eat (fun c => negb (is_line_terminator c)) p k
  | Cls c => eat (in_cls c) p k
  | Bol => match before p with [] => k p | _ :: _ => None end
  | Eol => match after p with [] => k p | _ :: _ => None end
  | WordB => if at_boundary p then k p else None
  | Cat r1 r2 => m r1 p (fun p' => m r2 p' k)
  | Alt r1 r2 => orelse (m r1 p k) (m r2 p k)
  | Star greedy body => repeat greedy body (List.length (after p)) p
  | Plus greedy body =>
      m body p (fun p' => repeat greedy body (List.length (after p')) p')
  | Opt greedy body =>
      let once := m body p (fun p' => if progress p p' then k p' else None) in
      if greedy then orelse once (k p) else orelse (k p) once
  | Group body => m body p k
  end.

(** The match that starts exactly at [p], if any: its end. *)
Definition match_at (r : regex) (p : pos) : option pos := m r p Some.

(** Number of matches of a global regular expression, as the length of
    [subject.match(re)]: start positions are tried left to right; after a
    match the scan resumes at its end, one code unit further when the match
    was empty. [skip] counts the positions still inside the last match. *)
Fixpoint count_from (r : regex) (bef aft : str) (skip : nat) : Z :=
  let next (sk : nat) :=
    match aft with
    | [] => 0
    | c :: rest => count_from r (c :: bef) rest sk
    end in
  match skip with
  | S sk => next sk
  | O =>
      match match_at r (mkPos bef aft) with
      | Some e => 1 + next (Nat.pred (List.length aft - List.length (after e)))
      | None => next O
      end
  end.

Definition count_matches (r : regex) (subject : str) : Z := count_from r [] subject 0.

End RegExp.

(** ** The host environment

    What the hooks take from their surroundings: the regular expressions
    beyond the modelled fragment (the number of matches of
    [subject.match(new RegExp(pattern, 'g'))], or [None] when the
    constructor throws), the collation of [localeCompare] and the clock of
    [new Date()]. *)

Record Host : Type := mkHost {
  host_match_count : str -> str -> option nat;
  host_localeCompare : str -> str -> Z;
  host_now : Z
}.

(** A host that accepts no pattern beyond the modelled fragment, with a
    collation that tells nothing apart and its clock at the epoch. *)
Definition bare_host : Host := mkHost (fun _ _ => None) (fun _ _ => 0) 0.

(** [(subject.match(new RegExp(pattern, 'g')) || []).length] *)
Definition match_count (h : Host) (pattern subject : str) : completion Z :=
  match RegExp.compile pattern with
  | RegExp.Parsed r => Return (RegExp.count_matches r subject)
  | RegExp.Invalid => Throw SyntaxError
  | RegExp.Beyond =>
      match host_match_count h pattern subject with
      | Some n => Return (Z.of_nat n)
      | None => Throw SyntaxError
      end
  end.

(** ** useSearch *)

Module Search.

Inductive MatchType : Type := title | content.

Record Match : Type := mkMatch {
  type : MatchType;
  text : str;
  index : Z;
  length : Z
}.

Record SearchResult : Type := mkResult {
  path : str;
  name : str;
  r_content : str;
  createdAt : Z;
  updatedAt : Z;
  matches : list Match;
  score : Z
}.

Inductive ContentType : Type := all | tasks | links | text_only.

Inductive SortBy : Type := relevance | date | by_title.

Record SearchFilters : Type := mkFilters {
  dateRange : option (Z * Z);          (* start, end *)
  contentType : option ContentType;
  sortBy : option SortBy
}.

(** A row of the [entry] table: every column but the key may be null. *)
Record Note : Type := mkNote {
  n_path : str;
  n_name : option str;
  n_content : option str;
  n_createdAt : option Z;
  n_updatedAt : option Z
}.

(** [x || ''] on a nullable string. *)
Definition or_empty (x : option str) : str :=
  match x with Some s => s | None => [] end.

(** [x || d] on a nullable date: a date object is always truthy. *)
Definition or_date (x : option Z) (d : Z) : Z :=
  match x with Some t => t | None => d end.

(** [scoreMatch(content, title, query)] *)
Definition scoreMatch (h : Host) (content title query : str) : completion Z :=
  let queryLower := toLowerCase query in
  let titleLower := toLowerCase title in
  let contentLower := toLowerCase content in
  let score := 0 in
  let score :=
    if includes titleLower queryLower then
      let score := score + 10 in
      if startsWith titleLower queryLower then score + 5 else score
    else score in
  contentMatches <- match_count h queryLower contentLower ;;
  let score := score + contentMatches * 1 in
  exactMatches <- match_count h (lit "\b" ++ queryLower ++ lit "\b") contentLower ;;
  let score := score + exactMatches * 2 in
  Return score.

(** The [while (index !== -1)] loop of [findMatches]. *)
Fixpoint findMatches_loop (fuel : nat) (text textLower query queryLower : str)
    (type : MatchType) (index : Z) (matches : list Match) : completion (list Match) :=
  match fuel with
  | O => Diverge
  | S fuel' =>
      if index =? -1 then Return matches
      else
        let matches := matches ++
          [mkMatch type
             (substring text (Z.max 0 (index - 50)) (index + len query + 50))
             index (len query)] in
        findMatches_loop fuel' text textLower query queryLower type
          (indexOf textLower queryLower (index + 1)) matches
  end.

Definition findMatches_fuel (fuel : nat) (text query : str) (type : MatchType)
    : completion (list Match) :=
  let queryLower := toLowerCase query in
  let textLower := toLowerCase text in
  findMatches_loop fuel text textLower query queryLower type
    (indexOf textLower queryLower 0) [].

(** [findMatches(text, query, type)]: one turn of the loop per code unit of
    the text and one more to leave it. *)
Definition findMatches (text query : str) (type : MatchType) : completion (list Match) :=
  findMatches_fuel (S (List.length text)) text query type.

(** *** The search state and its monad

    The three [useState] cells and the console; a computation updates them
    and completes. *)

Record SearchState : Type := mkState {
  isSearching : bool;
  searchResults : list SearchResult;
  searchQuery : str;
  console : list exn        (* arguments of [console.error], oldest first *)
}.

Definition M (A : Type) : Type := SearchState -> completion A * SearchState.

Definition ret {A} (a : A) : M A := fun s => (Return a, s).

Definition bind {A B} (c : M A) (k : A -> M B) : M B :=
  fun s =>
    match c s with
    | (Return a, s') => k a s'
    | (Throw e, s') => (Throw e, s')
    | (Diverge, s') => (Diverge, s')
    end.

Definition lift {A} (c : completion A) : M A := fun s => (c, s).

Definition setIsSearching (b : bool) : M unit :=
  fun s => (Return tt, mkState b (searchResults s) (searchQuery s) (console s)).

Definition setSearchResults (r : list SearchResult) : M unit :=
  fun s => (Return tt, mkState (isSearching s) r (searchQuery s) (console s)).

Definition setSearchQuery (q : str) : M unit :=
  fun s => (Return tt, mkState (isSearching s) (searchResults s) q (console s)).

Definition console_error (e : exn) : M unit :=
  fun s => (Return tt,
            mkState (isSearching s) (searchResults s) (searchQuery s) (console s ++ [e])).

(** [try { body } catch (error) { handler } finally { fin }]: the completion
    of the statement is the one of the body, or of the handler when the body
    threw, unless the finaliser itself completes abruptly. *)
Definition try_catch_finally {A} (body : M A) (handler : exn -> M A) (fin : M unit) : M A :=
  fun s =>
    let finally (r : completion A * SearchState) :=
      match r with
      | (Diverge, s') => (Diverge, s')
      | (c, s') =>
          match fin s' with
          | (Return _, s'') => (c, s'')
          | (Throw e, s'') => (Throw e, s'')
          | (Diverge, s'') => (Diverge, s'')
          end
      end in
    match body s with
    | (Throw e, s') => finally (handler e s')
    | r => finally r
    end.

Declare Scope search_scope.
Delimit Scope search_scope with search.
Notation "x <-- c ;; k" := (bind c (fun x => k))
  (at level 61, c at next level, right associativity) : search_scope.
Notation "c ;;; k" := (bind c (fun _ => k))
  (at level 61, right associativity) : search_scope.

(** *** The filter chain *)

Definition falsy (x : option str) : bool := negb (truthy (or_empty x)).

Definition content_type_ok (ct : option ContentType) (content : str) : bool :=
  match ct with
  | None | Some all => true
  | Some tasks =>
      negb (negb (includes content (lit "- [ ]")) && negb (includes content (lit "- [x]")))
  | Some links =>
      negb (negb (includes content (lit "http")) && negb (includes content (lit "["))
            && negb (includes content (lit "](")))
  | Some text_only =>
      negb (includes content (lit "- [ ]") || includes content (lit "- [x]")
            || includes content (lit "http"))
  end.

Definition date_ok (range : option (Z * Z)) (note : Note) : bool :=
  match range with
  | None => true
  | Some (start, end_) =>
      match (match n_updatedAt note with Some d => Some d | None => n_createdAt note end) with
      | None => true
      | Some noteDate => negb ((noteDate <? start) || (noteDate >? end_))
      end
  end.

(** The callback of [notes.filter]. *)
Definition keep (query : str) (filters : SearchFilters) (note : Note) : bool :=
  if falsy (n_content note) && falsy (n_name note) then false
  else
    let content := or_empty (n_content note) in
    let title := or_empty (n_name note) in
    let searchText := toLowerCase (title ++ lit " " ++ content) in
    let queryLower := toLowerCase query in
    if negb (includes searchText queryLower) then false
    else if negb (date_ok (dateRange filters) note) then false
    else if negb (content_type_ok (contentType filters) content) then false
    else true.

(** The callback of [.map]. *)
Definition to_result (h : Host) (query : str) (note : Note) : completion SearchResult :=
  let content_ := or_empty (n_content note) in
  let title_ := or_empty (n_name note) in
  titleMatches <- findMatches title_ query title ;;
  contentMatches <- findMatches content_ query content ;;
  score <- scoreMatch h content_ title_ query ;;
  Return (mkResult (n_path note) title_ content_
            (or_date (n_createdAt note) (host_now h))
            (or_date (n_updatedAt note) (host_now h))
            (titleMatches ++ slice0 3 contentMatches)
            score).

Fixpoint map_completion {A B} (f : A -> completion B) (l : list A) : completion (list B) :=
  match l with
  | [] => Return []
  | a :: l' => b <- f a ;; bs <- map_completion f l' ;; Return (b :: bs)
  end.

(** The comparator of [.sort]. *)
Definition compare_results (h : Host) (filters : SearchFilters) (a b : SearchResult) : Z :=
  match sortBy filters with
  | Some date => updatedAt b - updatedAt a
  | Some by_title => host_localeCompare h (name a) (name b)
  | Some relevance | None => score b - score a
  end.

(** [Array.prototype.sort] is stable: an element moves behind the ones the
    comparator puts strictly before it, and stays ahead of its equals. *)
Fixpoint insert_by {A} (cmp : A -> A -> Z) (x : A) (l : list A) : list A :=
  match l with
  | [] => [x]
  | y :: l' => if 0 <? cmp x y then y :: insert_by cmp x l' else x :: l
  end.

Definition sort_by {A} (cmp : A -> A -> Z) (l : list A) : list A :=
  fold_right (insert_by cmp) [] l.

(** The body of the [try] block after the store has answered. *)
Definition build_results (h : Host) (query : str) (filters : SearchFilters)
    (notes : list Note) : completion (list SearchResult) :=
  mapped <- map_completion (to_result h query) (filter (keep query filters) notes) ;;
  Return (slice0 50 (sort_by (compare_results h filters) mapped)).

(** A promise that settles is fulfilled with a value or rejected. *)
Inductive settlement (A : Type) : Type :=
| Fulfilled (a : A)
| Rejected (e : exn).
Arguments Fulfilled {A} a.
Arguments Rejected {A} e.

(** [await p] *)
Definition await {A} (p : settlement A) : M A :=
  match p with
  | Fulfilled a => ret a
  | Rejected e => lift (Throw e)
  end.

(** [searchNotes(query, filters)]; [getAllNotes] is the settlement of the
    store read. *)
Definition searchNotes (h : Host) (getAllNotes : settlement (list Note))
    (query : str) (filters : SearchFilters) : M unit :=
  (if negb (truthy (trim query)) then
     setSearchResults [] ;;;
     setSearchQuery []
   else
     setIsSearching true ;;;
     setSearchQuery query ;;;
     try_catch_finally
       (notes <-- await getAllNotes ;;
        results <-- lift (build_results h query filters notes) ;;
        setSearchResults results)
       (fun error =>
          console_error error ;;;
          setSearchResults [])
       (setIsSearching false))%search.

End Search.

(** ** useAutoSave

    The hook keeps three refs; its environment holds the armed timers, the
    clock and the calls of [onSave] that have not settled yet. One render of
    the hook is given by its props; the [debouncedSave] closure of a render
    reads the props of that render and the refs as they are when it runs. *)

Module AutoSave.

Record Props : Type := mkProps {
  content : str;
  delay : Z;
  enabled : bool
}.

(** An armed timer: its handle, the instant it is due and the render whose
    [debouncedSave] it will call. *)
Record Timer : Type := mkTimer {
  timer_id : nat;
  due : Z;
  callback : Props
}.

Record World : Type := mkWorld {
  timeoutRef : option nat;
  lastSavedContentRef : str;
  isSavingRef : bool;
  cleanup : bool;                 (* the last effect returned a cleanup *)
  now : Z;
  next_id : nat;
  timers : list Timer;            (* armed, neither fired nor cleared *)
  in_flight : list str;           (* awaited [onSave] calls, by argument *)
  persist_log : list (Z * str)    (* every [onSave] call: instant, argument *)
}.

Definition init : World := mkWorld None [] false false 0 1 [] [] [].

Definition set_isSaving (b : bool) (w : World) : World :=
  mkWorld (timeoutRef w) (lastSavedContentRef w) b (cleanup w) (now w)
    (next_id w) (timers w) (in_flight w) (persist_log w).

Definition set_lastSaved (c : str) (w : World) : World :=
  mkWorld (timeoutRef w) c (isSavingRef w) (cleanup w) (now w)
    (next_id w) (timers w) (in_flight w) (persist_log w).

Definition set_cleanup (b : bool) (w : World) : World :=
  mkWorld (timeoutRef w) (lastSavedContentRef w) (isSavingRef w) b (now w)
    (next_id w) (timers w) (in_flight w) (persist_log w).

Definition set_now (t : Z) (w : World) : World :=
  mkWorld (timeoutRef w) (lastSavedContentRef w) (isSavingRef w) (cleanup w) t
    (next_id w) (timers w) (in_flight w) (persist_log w).

Definition set_timers (ts : list Timer) (w : World) : World :=
  mkWorld (timeoutRef w) (lastSavedContentRef w) (isSavingRef w) (cleanup w) (now w)
    (next_id w) ts (in_flight w) (persist_log w).

Definition set_in_flight (l : list str) (w : World) : World :=
  mkWorld (timeoutRef w) (lastSavedContentRef w) (isSavingRef w) (cleanup w) (now w)
    (next_id w) (timers w) l (persist_log w).

(** [onSave(c)] is called and its promise awaited. *)
Definition call_onSave (c : str) (w : World) : World :=
  mkWorld (timeoutRef w) (lastSavedContentRef w) (isSavingRef w) (cleanup w) (now w)
    (next_id w) (timers w) (in_flight w ++ [c]) (persist_log w ++ [(now w, c)]).

(** The delay of a timer as the browser reads it.  The argument of
    [setTimeout] is a 32-bit signed integer: an integral delay is taken
    modulo 2^32 into the range from -2^31 to 2^31 - 1, and a negative
    result counts as 0.  So a delay of 2^31 up to 2^32 - 1 fires at once
    and a delay of 2^32 + 5000 after 5000 ms. *)
Definition to_int32 (d : Z) : Z :=
  let x := d mod 4294967296 in
  if 2147483648 <=? x then x - 4294967296 else x.

Definition timeout (d : Z) : Z := Z.max 0 (to_int32 d).

(** [setTimeout(debouncedSave, d)] at the render [p], stored in the ref. *)
Definition setTimeout (p : Props) (d : Z) (w : World) : World :=
  mkWorld (Some (next_id w)) (lastSavedContentRef w) (isSavingRef w) (cleanup w) (now w)
    (S (next_id w)) (timers w ++ [mkTimer (next_id w) (now w + timeout d) p])
    (in_flight w) (persist_log w).

Definition clearTimeout (id : nat) (w : World) : World :=
  set_timers (filter (fun t => negb (Nat.eqb (timer_id t) id)) (timers w)) w.

(** [if (timeoutRef.current) clearTimeout(timeoutRef.current)] *)
Definition clear_current (w : World) : World :=
  match timeoutRef w with
  | Some id => clearTimeout id w
  | None => w
  end.

(** [debouncedSave] of the render [p], up to its [await]. *)
Definition debouncedSave (p : Props) (w : World) : World :=
  if isSavingRef w || negb (enabled p) then w
  else
    let contentToSave := trim (content p) in
    if str_eqb contentToSave (lastSavedContentRef w) then w
    else call_onSave contentToSave (set_isSaving true w).

(** The rest of [debouncedSave] once the oldest awaited call settles:
    the marker is written after a fulfilment, the [catch] block logs a
    rejection, the [finally] block lowers the flag. *)
Definition settle (ok : bool) (w : World) : World :=
  match in_flight w with
  | [] => w
  | contentToSave :: rest =>
      let w := set_in_flight rest w in
      let w := if ok then set_lastSaved contentToSave w else w in
      set_isSaving false w
  end.

(** The effect of a render whose dependencies changed, after the cleanup
    of the previous effect when it had returned one. *)
Definition effect (p : Props) (w : World) : World :=
  let w := if cleanup w then clear_current w else w in
  if negb (enabled p) || negb (truthy (trim (content p))) then set_cleanup false w
  else
    let w := clear_current w in
    let w := setTimeout p (delay p) w in
    set_cleanup true w.

(** [saveNow] of the render [p]. *)
Definition saveNow (p : Props) (w : World) : World :=
  debouncedSave p (clear_current w).

(** The armed timer that is due first, the oldest one among equals. *)
Fixpoint earliest (ts : list Timer) : option Timer :=
  match ts with
  | [] => None
  | t :: ts' =>
      match earliest ts' with
      | Some t' => if due t' <? due t then Some t' else Some t
      | None => Some t
      end
  end.

Definition fire (t : Timer) (w : World) : World :=
  debouncedSave (callback t)
    (set_now (Z.max (now w) (due t)) (clearTimeout (timer_id t) w)).

(** Fire, in the order they are due, the timers due by [target]; a fired
    timer arms no other, so one turn per armed timer is enough. *)
Fixpoint run_timers (fuel : nat) (target : Z) (w : World) : World :=
  match fuel with
  | O => w
  | S fuel' =>
      match earliest (filter (fun t => due t <=? target) (timers w)) with
      | None => w
      | Some t => run_timers fuel' target (fire t w)
      end
  end.

(** The clock moves to [target]. *)
Definition advance (target : Z) (w : World) : World :=
  let w := run_timers (List.length (timers w)) target w in
  set_now (Z.max (now w) target) w.

Inductive event : Type :=
| Change (p : Props)      (* a render with new content or props *)
| SaveNow (p : Props)     (* a call of the [saveNow] of render [p] *)
| Settle (ok : bool)      (* the awaited [onSave] fulfils or rejects *)
| Advance (t : Z).        (* time passes until the instant [t] *)

Definition step (w : World) (e : event) : World :=
  match e with
  | Change p => effect p w
  | SaveNow p => saveNow p w
  | Settle ok => settle ok w
  | Advance t => advance t w
  end.

Definition run (es : list event) (w : World) : World := fold_left step es w.

(** Content changes at given instants, then the clock left to run. *)
Fixpoint changes (l : list (Z * Props)) (until : Z) : list event :=
  match l with
  | [] => [Advance until]
  | (t, p) :: l' => Advance t :: Change p :: changes l' until
  end.

(** The props of the debounce scenario: the default delay, enabled. *)
Definition typing (c : str) : Props := mkProps c 2000 true.

(** *** Invariants *)

(** The flag is raised exactly while one call of [onSave] is awaited. *)
Definition guarded (w : World) : Prop :=
  (isSavingRef w = true /\ exists c, in_flight w = [c])
  \/ (isSavingRef w = false /\ in_flight w = []).

(** At most one timer is armed, and it is the one the ref holds. *)
Definition one_slot (w : World) : Prop :=
  timers w = []
  \/ (cleanup w = true
      /\ exists t, timers w = [t] /\ timeoutRef w = Some (timer_id t)).

Definition trimmed (c : str) : Prop := trim c = c.

(** Every argument [onSave] has received is a trimmed string; the marker is
    empty or one of them. *)
Definition saves_trimmed (w : World) : Prop :=
  Forall trimmed (in_flight w)
  /\ Forall (fun call => trimmed (snd call)) (persist_log w)
  /\ (lastSavedContentRef w = [] \/ In (lastSavedContentRef w) (map snd (persist_log w)))
  /\ incl (in_flight w) (map snd (persist_log w)).

End AutoSave.

(** ** Reference notions

    The notions the specification speaks in, to compare the code with. *)

Module Ref.

(** [q] occurs in [s] as a substring, as a prefix. *)
Definition is_substring (q s : str) : Prop := exists a b, s = a ++ q ++ b.

Definition is_prefix (q s : str) : Prop := exists b, s = q ++ b.

(** [q] occurs in [s] at offset [i]. *)
Definition occurs_at (q s : str) (i : nat) : bool := prefixb q (skipn i s).

(** All the offsets of [s], the end included, that satisfy [hit], in
    increasing order. *)
Definition offsets (hit : nat -> bool) (s : str) : list nat :=
  filter hit (seq 0 (S (List.length s))).

(** Every start position of an occurrence, overlapping ones included. *)
Definition occurrences (q s : str) : list nat := offsets (occurs_at q s) s.

(** The occurrences a left-to-right scan keeps when it resumes at the end
    of each one it has kept: none starts before [free]. *)
Fixpoint disjoint_from (width : nat) (l : list nat) (free : nat) : list nat :=
  match l with
  | [] => []
  | i :: l' =>
      if (free <=? i)%nat then i :: disjoint_from width l' (i + width)
      else disjoint_from width l' free
  end.

Definition word_unit (s : str) (i : nat) : bool :=
  match nth_error s i with
  | Some c => RegExp.is_word c
  | None => false
  end.

(** Offset [i] of [s] is a word boundary: a word character on exactly one
    side. *)
Definition boundary_at (s : str) (i : nat) : bool :=
  xorb (match i with O => false | S j => word_unit s j end) (word_unit s i).

(** An occurrence delimited by word boundaries. *)
Definition whole_word_at (q s : str) (i : nat) : bool :=
  boundary_at s i && occurs_at q s i && boundary_at s (i + List.length q).

Definition whole_word_occurrences (q s : str) : list nat :=
  offsets (whole_word_at q s) s.

(** The window around offset [i]: [text[max(0, i-50) : i+width+50]] within
    the bounds of the text. *)
Definition window (text : str) (i width : nat) : str :=
  skipn (i - 50)%nat (firstn (i + width + 50)%nat text).

(** A string whose first code unit, if any, is no white space. *)
Definition head_kept (s : str) : Prop :=
  match s with [] => True | c :: _ => is_space c = false end.

(** The position of the matcher at offset [i] of [s]. *)
Definition pos_at (s : str) (i : nat) : RegExp.pos :=
  RegExp.mkPos (rev (firstn i s)) (skipn i s).

(** The match [findMatches] pushes for the occurrence at offset [i]. *)
Definition pushed (text query : str) (ty : Search.MatchType) (i : nat) : Search.Match :=
  Search.mkMatch ty
    (substring text (Z.max 0 (Z.of_nat i - 50)) (Z.of_nat i + len query + 50))
    (Z.of_nat i) (len query).

(** No character of the query has a meaning in the pattern syntax. *)
Definition plain (q : str) : Prop :=
  forall c, In c q -> RegExp.is_syntax_char c = false.

(** The points the title gives: 10 for containing the query, 5 more for
    starting with it. *)
Definition title_points (title query : str) : Z :=
  let t := toLowerCase title in
  let q := toLowerCase query in
  (if includes t q then 10 else 0) + (if startsWith t q then 5 else 0).

(** The points the content gives: 1 per match of the query pattern, 2 per
    match of the word-delimited pattern. *)
Definition content_points (h : Host) (content query : str) : completion Z :=
  let q := toLowerCase query in
  let c := toLowerCase content in
  raw <- match_count h q c ;;
  whole <- match_count h (lit "\b" ++ q ++ lit "\b") c ;;
  Return (raw * 1 + whole * 2).

(** The escaping [highlightText] applies to its query before it builds a
    pattern: a backslash before each syntax character. *)
Definition escape (q : str) : str :=
  flat_map (fun c => if RegExp.is_syntax_char c then ["\"%char; c] else [c]) q.

End Ref.

(** ** More reference notions *)

Module Shown.

(** The matches of a text for a query: one per occurrence, with its
    window, its offset and the length of the query. *)
Definition matches_of (text query : str) (ty : Search.MatchType) : list Search.Match :=
  map (fun i => Search.mkMatch ty (Ref.window text i (List.length query))
                  (Z.of_nat i) (len query))
      (Ref.occurrences (toLowerCase query) (toLowerCase text)).

End Shown.

(** ** More invariants of the coordinator *)

Module AutoSaveMore.
Import AutoSave.

(** Every armed timer was armed by an enabled render with content that is
    not blank. *)
Definition armed_well (w : World) : Prop :=
  Forall (fun t => enabled (callback t) = true
                   /\ truthy (trim (content (callback t))) = true) (timers w).

(** No event is a call of [saveNow]. *)
Definition automatic (es : list event) : Prop :=
  Forall (fun e => match e with SaveNow _ => False | _ => True end) es.

(** Every render of the trace has the coordinator disabled. *)
Definition all_disabled (es : list event) : Prop :=
  Forall (fun e => match e with
                   | Change p | SaveNow p => enabled p = false
                   | _ => True
                   end) es.

(** An awaited call carries a content other than the marker. *)
Definition pending_differs (w : World) : Prop :=
  guarded w /\ Forall (fun c => c <> lastSavedContentRef w) (in_flight w).

(** Every argument [onSave] has received is a content that is not empty. *)
Definition quiet_log (w : World) : Prop :=
  Forall (fun call : Z * str => snd call <> []) (persist_log w).

(** What the save logic reads and writes, and the clock. *)
Definition save_state (w : World) : bool * str * list str * list (Z * str) * Z :=
  (isSavingRef w, lastSavedContentRef w, in_flight w, persist_log w, now w).

End AutoSaveMore.

(** ** highlightText *)

Module Highlight.

Import RegExp.

(** [Canonicalize] of a pattern with the ignoreCase flag: the upper-case
    form of the code unit. U+00B5 and U+00FF have theirs outside the
    Latin-1 range, where no other code unit of the range has its own, and
    U+00DF has none of one code unit: they are kept. *)
Definition canonicalize (c : ascii) : ascii :=
  let z := code c in
  if between 97 122 z then unit_of (z - 32)
  else if between 224 254 z && negb (z =? 247) then unit_of (z - 32)
  else c.

Definition canonical (s : str) : str := map canonicalize s.

Fixpoint fold_case (r : regex) : regex :=
  match r with
  | Chr c => Chr (canonicalize c)
  | Cat r1 r2 => Cat (fold_case r1) (fold_case r2)
  | Alt r1 r2 => Alt (fold_case r1) (fold_case r2)
  | Star g r' => Star g (fold_case r')
  | Plus g r' => Plus g (fold_case r')
  | Opt g r' => Opt g (fold_case r')
  | Group r' => Group (fold_case r')
  | Empty | Dot | Cls _ | Bol | Eol | WordB => r
  end.

(** The match of an ignoreCase pattern that starts between [bef] and
    [aft]: the number of code units it spans. Code units are compared by
    their canonical forms, which leaves the classes and the assertions of
    the fragment as they are. *)
Definition match_at_i (r : regex) (bef aft : str) : option nat :=
  match match_at (fold_case r) (mkPos (canonical bef) (canonical aft)) with
  | Some e => Some (List.length aft - List.length (after e))%nat
  | None => None
  end.

Definition mark_open : str := lit "<mark>".
Definition mark_close : str := lit "</mark>".

(** [subject.replace(re, '<mark>$1</mark>')] for a global ignoreCase
    pattern [re] made of one group, whose capture 1 is the whole match:
    the matches are found as by [count_from] and each is copied between
    the tags; [skip] counts the code units still inside the last match. *)
Fixpoint mark_from (r : regex) (bef aft : str) (skip : nat) : str :=
  let next (sk : nat) (copy : bool) :=
    match aft with
    | [] => []
    | c :: rest =>
        (if copy then [c] else []) ++ mark_from r (c :: bef) rest sk
    end in
  match skip with
  | S sk => next sk false
  | O =>
      match match_at_i r bef aft with
      | Some (S n) => mark_open ++ firstn (S n) aft ++ mark_close ++ next n false
      | Some O => mark_open ++ mark_close ++ next O true
      | None => next O true
      end
  end.

(** [highlightText(text, query)]; [host_replace] answers for the patterns
    beyond the modelled fragment. *)
Definition highlightText (host_replace : str -> str -> option str)
    (text query : str) : completion str :=
  if negb (truthy (trim query)) then Return text
  else
    let pattern := lit "(" ++ Ref.escape query ++ lit ")" in
    match compile pattern with
    | Parsed (Cat (Group r) Empty) => Return (mark_from r [] text 0)
    | Invalid => Throw SyntaxError
    | _ =>
        match host_replace pattern text with
        | Some out => Return out
        | None => Throw SyntaxError
        end
    end.

(** [out] is [text] with [n] pieces wrapped in the tags, each piece being
    the query up to case. *)
Inductive marking (query : str) : str -> str -> nat -> Prop :=
| marking_end : marking query [] [] 0
| marking_copy (c : ascii) (text out : str) (n : nat) :
    marking query text out n -> marking query (c :: text) (c :: out) n
| marking_wrap (piece text out : str) (n : nat) :
    canonical piece = canonical query ->
    marking query text out n ->
    marking query (piece ++ text) (mark_open ++ piece ++ mark_close ++ out) (S n).

End Highlight.

(** ** lib/utils *)

Module Files.

(** The scan of [lastIndexOf]: [s] starts at offset [k] and [best] is the
    last occurrence seen before. *)
Fixpoint last_from (q s : str) (k best : Z) : Z :=
  match s with
  | [] => if prefixb q [] then k else best
  | _ :: s' => last_from q s' (k + 1) (if prefixb q s then k else best)
  end.

(** [s.lastIndexOf(q)] *)
Definition lastIndexOf (s q : str) : Z := last_from q s 0 (-1).

(** An index of [slice]: negative ones count from the end. *)
Definition slice_index (s : str) (z : Z) : Z :=
  if z <? 0 then Z.max (len s + z) 0 else Z.min z (len s).

(** [s.slice(start, end)] *)
Definition slice (s : str) (start end_ : Z) : str :=
  let from := slice_index s start in
  let to := slice_index s end_ in
  firstn (Z.to_nat (to - from)) (skipn (Z.to_nat from) s).

(** [s.slice(start)] *)
Definition slice_from (s : str) (start : Z) : str := slice s start (len s).

(** [getFileExtension(filename)] *)
Definition getFileExtension (filename : str) : str :=
  slice_from filename (lastIndexOf filename (lit ".") + 1).

(** [removeFileExtension(filename)] *)
Definition removeFileExtension (filename : str) : str :=
  let lastDotIndex := lastIndexOf filename (lit ".") in
  if lastDotIndex >? 0 then slice filename 0 lastDotIndex else filename.

#[local] Set Warnings "-register-all".

Inductive FileEntry : Type :=
  mkFileEntry (name path : str) (isFolder : bool) (size createdAt updatedAt : option Z)
              (children : option (list FileEntry)).

Definition name (e : FileEntry) : str := let (n, _, _, _, _, _, _) := e in n.
Definition path (e : FileEntry) : str := let (_, p, _, _, _, _, _) := e in p.
Definition isFolder (e : FileEntry) : bool := let (_, _, f, _, _, _, _) := e in f.
Definition createdAt (e : FileEntry) : option Z := let (_, _, _, _, c, _, _) := e in c.
Definition updatedAt (e : FileEntry) : option Z := let (_, _, _, _, _, u, _) := e in u.

Inductive SortKey : Type := by_name | by_date.

(** [a.updatedAt || a.createdAt || new Date(0)], as its time value. *)
Definition entry_date (e : FileEntry) : Z :=
  match updatedAt e with
  | Some d => d
  | None => match createdAt e with Some d => d | None => 0 end
  end.

(** The comparator of [sortFileEntries]. *)
Definition compare_entries (h : Host) (sortBy : SortKey) (a b : FileEntry) : Z :=
  if negb (Bool.eqb (isFolder a) (isFolder b)) then
    (if isFolder a then -1 else 1)
  else
    match sortBy with
    | by_date => entry_date b - entry_date a
    | by_name => host_localeCompare h (name a) (name b)
    end.

(** [sortFileEntries(entries, sortBy)] *)
Definition sortFileEntries (h : Host) (entries : list FileEntry) (sortBy : SortKey)
    : list FileEntry :=
  Search.sort_by (compare_entries h sortBy) entries.

(** Folders before files; within a kind, the later date first. *)
Definition listed_before (a b : FileEntry) : Prop :=
  (isFolder a = true /\ isFolder b = false)
  \/ (isFolder a = isFolder b /\ entry_date b <= entry_date a).

End Files.

(** ** Searches that overlap

    [searchNotes] is an async function: a call runs up to its [await] at
    once and the rest when the store read settles, so the calls the search
    box makes can interleave. *)

Module Overlap.

Import Search.
Local Open Scope search_scope.

(** [searchNotes] up to its [await]; [true] when the call goes on to read
    the store. *)
Definition searchNotes_begin (query : str) : M bool :=
  if negb (truthy (trim query)) then
    setSearchResults [] ;;;
    setSearchQuery [] ;;;
    ret false
  else
    setIsSearching true ;;;
    setSearchQuery query ;;;
    ret true.

(** [searchNotes] from the settlement of the store read on. *)
Definition searchNotes_resume (h : Host) (getAllNotes : settlement (list Note))
    (query : str) (filters : SearchFilters) : M unit :=
  try_catch_finally
    (notes <-- await getAllNotes ;;
     results <-- lift (build_results h query filters notes) ;;
     setSearchResults results)
    (fun error =>
       console_error error ;;;
       setSearchResults [])
    (setIsSearching false).

(** One search, as the search box starts it. *)
Record call : Type := mkCall {
  c_query : str;
  c_filters : SearchFilters;
  c_store : settlement (list Note)     (* what its store read settles to *)
}.

Definition begin (c : call) (s : SearchState) : SearchState :=
  snd (searchNotes_begin (c_query c) s).

Definition resume (h : Host) (c : call) (s : SearchState) : SearchState :=
  snd (searchNotes_resume h (c_store c) (c_query c) (c_filters c) s).

End Overlap.

(** ** CommandPalette

    The fields of a command the key handler reads; its action is named by
    the command that ran. *)

Module Palette.

Record CommandAction : Type := mkCommand {
  id : str;
  label : str;
  description : option str
}.

(** The callback of [commands.filter]: the query is in the label or, when
    there is one, in the description, both lowercased. *)
Definition shown (query : str) (command : CommandAction) : bool :=
  includes (toLowerCase (label command)) (toLowerCase query)
  || match description command with
     | Some d => includes (toLowerCase d) (toLowerCase query)
     | None => false
     end.

Definition filteredCommands (commands : list CommandAction) (query : str)
    : list CommandAction :=
  filter (shown query) commands.

(** [a[i]] for an integer [i]: nothing outside the array. *)
Definition at_index {A} (a : list A) (i : Z) : option A :=
  if i <? 0 then None else nth_error a (Z.to_nat i).

Inductive Key : Type := Escape | ArrowDown | ArrowUp | Enter | Other.

(** What a key press does: the selected index after it, the command whose
    action ran, whether [onClose] was called. *)
Record Pressed : Type := mkPressed {
  selectedIndex : Z;
  ran : option CommandAction;
  closed : bool
}.

(** [handleKeyDown(e)] at the render with these commands, query and
    selected index. *)
Definition handleKeyDown (commands : list CommandAction) (query : str)
    (selected : Z) (key : Key) : Pressed :=
  let filtered := filteredCommands commands query in
  match key with
  | Escape => mkPressed selected None true
  | ArrowDown =>
      mkPressed (if selected <? Z.of_nat (List.length filtered) - 1 then selected + 1 else 0) None false
  | ArrowUp =>
      mkPressed (if selected >? 0 then selected - 1 else Z.of_nat (List.length filtered) - 1) None false
  | Enter =>
      match at_index filtered selected with
      | Some command => mkPressed selected (Some command) true
      | None => mkPressed selected None false
      end
  | Other => mkPressed selected None false
  end.

End Palette.

(** ** useKeyboardShortcuts

    The hook as it also looks for an enclosing [.ProseMirror] element and
    lets the keys s, f and k through in an editing element.  The field
    [action] of a shortcut is left out: the handler returns the shortcut
    whose action it runs. *)

Module Shortcuts.

Record KeyboardShortcut : Type := mkShortcut {
  key : str;
  metaKey : option bool;
  ctrlKey : option bool;
  shiftKey : option bool;
  altKey : option bool;
  description : str
}.

(** [!!flag] of an optional boolean field. *)
Definition on (flag : option bool) : bool :=
  match flag with Some b => b | None => false end.

(** The element the event comes from: its tag name, its [contentEditable]
    attribute and whether [closest('.ProseMirror')] finds an element. *)
Record Target : Type := mkTarget {
  tagName : str;
  contentEditable : str;
  closest_ProseMirror : bool
}.

Record KeyboardEvent : Type := mkEvent {
  e_key : str;
  e_metaKey : bool;
  e_ctrlKey : bool;
  e_shiftKey : bool;
  e_altKey : bool;
  target : Target
}.

(** The five comparisons of the loop body. *)
Definition matches (event : KeyboardEvent) (shortcut : KeyboardShortcut) : bool :=
  let keyMatches := str_eqb (toLowerCase (key shortcut)) (toLowerCase (e_key event)) in
  let metaMatches := Bool.eqb (on (metaKey shortcut)) (e_metaKey event) in
  let ctrlMatches := Bool.eqb (on (ctrlKey shortcut)) (e_ctrlKey event) in
  let shiftMatches := Bool.eqb (on (shiftKey shortcut)) (e_shiftKey event) in
  let altMatches := Bool.eqb (on (altKey shortcut)) (e_altKey event) in
  keyMatches && metaMatches && ctrlMatches && shiftMatches && altMatches.

(** The [for ... of] loop with its [break]: the shortcut whose action runs. *)
Fixpoint run_first (event : KeyboardEvent) (shortcuts : list KeyboardShortcut)
    : option KeyboardShortcut :=
  match shortcuts with
  | [] => None
  | shortcut :: rest =>
      if matches event shortcut then Some shortcut else run_first event rest
  end.

Definition isInEditor (t : Target) : bool :=
  str_eqb (tagName t) (lit "INPUT")
  || str_eqb (tagName t) (lit "TEXTAREA")
  || str_eqb (contentEditable t) (lit "true")
  || closest_ProseMirror t.

Definition allowedInEditor : list str := [lit "s"; lit "f"; lit "k"].

(** [array.includes(x)] on strings. *)
Definition array_includes (a : list str) (x : str) : bool := existsb (str_eqb x) a.

(** [handleKeyDown(event)]: the shortcut whose action ran, for which the
    default of the event was prevented too; [None] when the handler returned
    without running any. *)
Definition handleKeyDown (shortcuts : list KeyboardShortcut) (enabled : bool)
    (event : KeyboardEvent) : option KeyboardShortcut :=
  if negb enabled then None
  else
    let shouldPreventInEditor :=
      isInEditor (target event)
      && negb (array_includes allowedInEditor (toLowerCase (e_key event))) in
    if shouldPreventInEditor then None
    else run_first event shortcuts.

End Shortcuts.

(** ** buildFileTree

    The function keeps one object per path in a [Map] and pushes these
    objects into the [children] arrays of one another and into [tree]: an
    object is shared between the map and the array that holds it, and its
    [children] grow after it was pushed.  The model keeps the objects in a
    store keyed by path, an array of objects as the list of their paths, and
    reads the returned value off the store at the end. *)

Module FileTree.
Import Files.

Definition children (e : FileEntry) : option (list FileEntry) :=
  let (_, _, _, _, _, _, c) := e in c.

(** [{ ...entry, children }] *)
Definition with_children (entry : FileEntry) (kids : list FileEntry) : FileEntry :=
  match entry with
  | mkFileEntry n p f s c u _ => mkFileEntry n p f s c u (Some kids)
  end.

(** [p.split('/').length]: one piece more than there are separators. *)
Definition depth (p : str) : Z := Z.of_nat (S (count_occ ascii_dec p "/"%char)).

(** [p.substring(0, p.lastIndexOf('/'))] *)
Definition parentPath (p : str) : str := substring p 0 (lastIndexOf p (lit "/")).

(** An object of the map: the fields copied from its entry and its
    [children] array. *)
Record Item : Type := mkItem { fields : FileEntry; kids : list str }.

Definition store : Type := list (str * Item).

Fixpoint get (map : store) (p : str) : option Item :=
  match map with
  | [] => None
  | (k, item) :: map' => if str_eqb k p then Some item else get map' p
  end.

Definition has (map : store) (p : str) : bool :=
  match get map p with Some _ => true | None => false end.

(** [map.set(p, item)]: the binding found first is the live one. *)
Definition set (map : store) (p : str) (item : Item) : store := (p, item) :: map.

(** [map.get(parent).children.push(child)] *)
Fixpoint push (map : store) (parent child : str) : store :=
  match map with
  | [] => []
  | (k, item) :: map' =>
      if str_eqb k parent then (k, mkItem (fields item) (kids item ++ [child])) :: map'
      else (k, item) :: push map' parent child
  end.

Definition sortedEntries (entries : list FileEntry) : list FileEntry :=
  Search.sort_by (fun a b => depth (path a) - depth (path b)) entries.

(** The first loop. *)
Definition fill (sorted : list FileEntry) : store :=
  fold_left (fun map entry => set map (path entry) (mkItem entry [])) sorted [].

(** The body of the second loop, on the map and [tree]. *)
Definition place (st : store * list str) (entry : FileEntry) : store * list str :=
  let (map, tree) := st in
  let parent := parentPath (path entry) in
  if truthy parent && has map parent then (push map parent (path entry), tree)
  else (map, tree ++ [path entry]).

Definition link (sorted : list FileEntry) (map : store) : store * list str :=
  fold_left place sorted (map, []).

(** The value of the object at [p], read to [fuel] levels. *)
Fixpoint value (fuel : nat) (map : store) (p : str) : list FileEntry :=
  match fuel, get map p with
  | S n, Some item => [with_children (fields item) (flat_map (value n map) (kids item))]
  | _, _ => []
  end.

(** A parent path is shorter than the path: no chain of children is longer
    than the longest path. *)
Definition levels (entries : list FileEntry) : nat :=
  S (list_max (List.map (fun e => List.length (path e)) entries)).

(** [buildFileTree(entries)] *)
Definition buildFileTree (entries : list FileEntry) : list FileEntry :=
  let sorted := sortedEntries entries in
  let (map, tree) := link sorted (fill sorted) in
  flat_map (value (levels entries) map) tree.

(** *** Reference notions *)

(** The entry has a parent among the entries. *)
Definition nested (entries : list FileEntry) (e : FileEntry) : bool :=
  truthy (parentPath (path e))
  && existsb (fun x => str_eqb (path x) (parentPath (path e))) entries.

(** The entry lies directly under the path [p]. *)
Definition child_of (p : str) (e : FileEntry) : bool :=
  truthy (parentPath (path e)) && str_eqb (parentPath (path e)) p.

(** A node of a forest, at any depth. *)
Inductive inside (node : FileEntry) : list FileEntry -> Prop :=
| inside_here l : In node l -> inside node l
| inside_below l parent below :
    In parent l -> children parent = Some below -> inside node below ->
    inside node l.

(** *** Notions of the proofs *)

(** The state after both loops. *)
Definition built (entries : list FileEntry) : store * list str :=
  link (sortedEntries entries) (fill (sortedEntries entries)).

(** The object after one more child, and after several. *)
Definition grown (child : str) (item : Item) : Item :=
  mkItem (fields item) (kids item ++ [child]).

Definition with_kids (more : list str) (item : Item) : Item :=
  mkItem (fields item) (kids item ++ more).

(** The entry goes to [tree]. *)
Definition top (map : store) (e : FileEntry) : bool :=
  negb (truthy (parentPath (path e)) && has map (parentPath (path e))).

(** With a level left for every unit of a path below the longest, the
    object at a path is read whole. *)
Definition readable (entries : list FileEntry) (n : nat) (p : str) : Prop :=
  (exists e, In e entries /\ path e = p) /\ (levels entries <= n + List.length p)%nat.

End FileTree.

(** ** Sample data

    The notes of the end-to-end example of the specification. *)

Module Sample.

Import Search.

Definition note_a : Note :=
  mkNote (lit "/a") (Some (lit "Shopping List")) (Some (lit "milk eggs bread"))
    (Some 1) (Some 1).

Definition note_b : Note :=
  mkNote (lit "/b") (Some (lit "Diary")) (Some (lit "today I bought milk"))
    (Some 2) (Some 2).

Definition idle : SearchState := mkState false [] [] [].

Definition by_relevance : SearchFilters := mkFilters None None (Some relevance).

(** What the search for "milk" gives for the first note. *)
Definition result_a : SearchResult :=
  mkResult (lit "/a") (lit "Shopping List") (lit "milk eggs bread") 1 1
    [mkMatch content (lit "milk eggs bread") 0 4] 3.

End Sample.

(** * Properties *)

(** ** Strings *)

Section StringFacts.

Lemma len_nonneg (s : str) : 0 <= len s.
Proof. unfold len. lia. Qed.

Lemma toLowerCase_length (s : str) :
  List.length (toLowerCase s) = List.length s.
Proof. unfold toLowerCase. apply length_map. Qed.

Lemma toLowerCase_nil_iff (s : str) : toLowerCase s = [] <-> s = [].
Proof. destruct s; simpl; split; congruence. Qed.

Lemma prefixb_app (p rest : str) : prefixb p (p ++ rest) = true.
Proof.
  induction p as [|a p IH]; simpl; [reflexivity|].
  now rewrite Ascii.eqb_refl, IH.
Qed.

Lemma prefixb_true_split (p s : str) :
  prefixb p s = true -> s = p ++ skipn (List.length p) s.
Proof.
  revert s. induction p as [|a p IH]; intros s H; simpl in *; [reflexivity|].
  destruct s as [|b s]; [discriminate|].
  apply andb_true_iff in H as [Hab Hp].
  apply Ascii.eqb_eq in Hab. subst b. simpl. f_equal. now apply IH.
Qed.

Lemma prefixb_iff (p s : str) : prefixb p s = true <-> Ref.is_prefix p s.
Proof.
  split.
  - intros H. exists (skipn (List.length p) s). now apply prefixb_true_split.
  - intros [b ->]. apply prefixb_app.
Qed.

Lemma prefixb_length (p s : str) :
  prefixb p s = true -> (List.length p <= List.length s)%nat.
Proof.
  revert s. induction p as [|a p IH]; intros [|b s] H; simpl in *;
    try lia; try discriminate.
  apply andb_true_iff in H as [_ H]. apply IH in H. lia.
Qed.

Lemma prefixb_nil_r (p : str) : p <> [] -> prefixb p [] = false.
Proof. destruct p; [congruence | reflexivity]. Qed.

(** [find_from] answers [-1] or an offset from [k] on. *)
Lemma find_from_range (q s : str) (k : Z) :
  0 <= k -> find_from q s k = -1 \/ k <= find_from q s k.
Proof.
  revert k. induction s as [|c s IH]; intros k Hk; simpl.
  - destruct (prefixb q []); lia.
  - destruct (prefixb q (c :: s)); [lia|].
    destruct (IH (k + 1)); lia.
Qed.

(** The scan finds an occurrence exactly when some suffix starts with the
    query. *)
Lemma find_from_found (q s : str) (k : Z) :
  0 <= k ->
  (find_from q s k <> -1 <-> exists a b, s = a ++ q ++ b).
Proof.
  revert k. induction s as [|c s IH]; intros k Hk; simpl.
  - destruct (prefixb q []) eqn:E.
    + split; [intros _|lia].
      destruct q; [|discriminate]. now exists [], [].
    + split; [congruence|]. intros (a & b & H).
      destruct a; [|discriminate]. destruct q; [discriminate|discriminate].
  - destruct (prefixb q (c :: s)) eqn:E.
    + split; [intros _|lia].
      apply prefixb_true_split in E. exists [], (skipn (List.length q) (c :: s)).
      exact E.
    + rewrite IH by lia. split.
      * intros (a & b & ->). now exists (c :: a), b.
      * intros (a & b & H). destruct a as [|a0 a].
        -- simpl in H. rewrite H, prefixb_app in E. discriminate.
        -- inversion H; subst. now exists a, b.
Qed.

Lemma indexOf_0 (s q : str) : indexOf s q 0 = find_from q s 0.
Proof.
  unfold indexOf, clamp.
  pose proof (len_nonneg s).
  replace (Z.min (Z.max 0 0) (len s)) with 0 by lia. reflexivity.
Qed.

Lemma includes_iff (s q : str) : includes s q = true <-> Ref.is_substring q s.
Proof.
  unfold includes, Ref.is_substring. rewrite indexOf_0, negb_true_iff, Z.eqb_neq.
  apply find_from_found. lia.
Qed.

Lemma startsWith_iff (s q : str) : startsWith s q = true <-> Ref.is_prefix q s.
Proof. apply prefixb_iff. Qed.

Lemma startsWith_includes (s q : str) :
  startsWith s q = true -> includes s q = true.
Proof.
  rewrite startsWith_iff, includes_iff. intros [b ->]. now exists [], b.
Qed.

(** [substring] with ordered ends is the part of the text between them. *)
Lemma substring_window (text : str) (i w : nat) :
  (i <= List.length text)%nat ->
  substring text (Z.max 0 (Z.of_nat i - 50)) (Z.of_nat i + Z.of_nat w + 50)
  = Ref.window text i w.
Proof.
  intros Hi. unfold substring, Ref.window, clamp, len.
  set (n := List.length text) in *.
  replace (Z.min (Z.max (Z.max 0 (Z.of_nat i - 50)) 0) (Z.of_nat n))
    with (Z.of_nat (i - 50)) by lia.
  replace (Z.min (Z.max (Z.of_nat i + Z.of_nat w + 50) 0) (Z.of_nat n))
    with (Z.of_nat (Nat.min (i + w + 50) n)) by lia.
  replace (Z.min (Z.of_nat (i - 50)) (Z.of_nat (Nat.min (i + w + 50) n)))
    with (Z.of_nat (i - 50)) by lia.
  replace (Z.max (Z.of_nat (i - 50)) (Z.of_nat (Nat.min (i + w + 50) n)))
    with (Z.of_nat (Nat.min (i + w + 50) n)) by lia.
  rewrite Nat2Z.id.
  replace (Z.to_nat (Z.of_nat (Nat.min (i + w + 50) n) - Z.of_nat (i - 50)))
    with (Nat.min (i + w + 50) n - (i - 50))%nat by lia.
  rewrite firstn_skipn_comm.
  replace (i - 50 + (Nat.min (i + w + 50) n - (i - 50)))%nat
    with (Nat.min (i + w + 50) n) by lia.
  f_equal. subst n.
  destruct (Nat.le_gt_cases (i + w + 50) (List.length text)) as [H|H].
  - now rewrite Nat.min_l by lia.
  - rewrite Nat.min_r by lia.
    rewrite !firstn_all2 by lia. reflexivity.
Qed.

End StringFacts.

(** ** Match Finder *)

Section MatchFinder.

Import Search.

Lemma skipn_step (s : str) (k : nat) (c : ascii) (rest : str) :
  skipn k s = c :: rest -> skipn (S k) s = rest /\ (k < List.length s)%nat.
Proof.
  revert k. induction s as [|a s IH]; intros k H.
  - rewrite skipn_nil in H. discriminate.
  - destruct k as [|k]; simpl in *.
    + inversion H; subst. split; [reflexivity|lia].
    + apply IH in H as [H1 H2]. split; [exact H1|lia].
Qed.

Variables (text query : str) (ty : MatchType).

(** The lowercased text and query, as the loop receives them. *)
Variables (tl ql : str).

Hypothesis ql_not_empty : ql <> [].

(** From the suffix [s] at offset [k] on, the loop pushes one match per
    occurrence and leaves with fuel to spare. *)
Lemma findMatches_loop_from :
  forall (s : str) (k : nat) (acc : list Match) (fuel : nat),
    skipn k tl = s ->
    (List.length s < fuel)%nat ->
    findMatches_loop fuel text tl query ql ty (find_from ql s (Z.of_nat k)) acc
    = Return (acc ++ map (Ref.pushed text query ty)
                         (filter (Ref.occurs_at ql tl) (seq k (S (List.length s))))).
Proof.
  induction s as [|c s IH]; intros k acc fuel Hs Hfuel.
  - destruct fuel as [|fuel]; [simpl in Hfuel; lia|].
    simpl. rewrite (prefixb_nil_r ql ql_not_empty). simpl.
    unfold Ref.occurs_at. rewrite Hs, (prefixb_nil_r ql ql_not_empty). simpl.
    now rewrite app_nil_r.
  - destruct (skipn_step _ _ _ _ Hs) as [Hs' Hk].
    cbn [find_from]. rewrite <- Nat.add_1_r in Hs'.
    change (seq k (S (List.length (c :: s))))
      with (k :: seq (S k) (S (List.length s))).
    cbn [filter]. unfold Ref.occurs_at at 1. rewrite Hs.
    replace (Z.of_nat k + 1) with (Z.of_nat (k + 1)) by lia.
    destruct (prefixb ql (c :: s)) eqn:E.
    + destruct fuel as [|fuel]; [simpl in Hfuel; lia|].
      cbn [findMatches_loop].
      replace (Z.of_nat k =? -1) with false by (symmetry; apply Z.eqb_neq; lia).
      assert (Hnext : indexOf tl ql (Z.of_nat k + 1) = find_from ql s (Z.of_nat (k + 1))).
      { unfold indexOf, clamp, len.
        replace (Z.min (Z.max (Z.of_nat k + 1) 0) (Z.of_nat (List.length tl)))
          with (Z.of_nat (k + 1)) by lia.
        now rewrite Nat2Z.id, Hs'. }
      rewrite Hnext, (IH (k + 1)%nat) by (simpl in Hfuel; auto; lia).
      rewrite <- app_assoc. simpl. rewrite Nat.add_1_r. reflexivity.
    + rewrite (IH (k + 1)%nat) by (simpl in Hfuel; auto; lia).
      rewrite Nat.add_1_r. reflexivity.
Qed.

End MatchFinder.

(** With a query that is not empty the loop of [findMatches] ends, and its
    result is the list of matches pushed for the occurrences. *)
Lemma findMatches_returns (text query : str) (ty : Search.MatchType) :
  query <> [] ->
  Search.findMatches text query ty
  = Return (map (Ref.pushed text query ty)
              (Ref.occurrences (toLowerCase query) (toLowerCase text))).
Proof.
  intros Hq.
  assert (Hql : toLowerCase query <> []) by now rewrite toLowerCase_nil_iff.
  unfold Search.findMatches, Search.findMatches_fuel.
  rewrite indexOf_0.
  pose proof (findMatches_loop_from text query ty (toLowerCase text)
                (toLowerCase query) Hql (toLowerCase text) 0 []
                (S (List.length text)) eq_refl) as H.
  cbn [Z.of_nat app] in H. rewrite H.
  - reflexivity.
  - rewrite toLowerCase_length. lia.
Qed.

Lemma occurrences_in_range (q s : str) (i : nat) :
  In i (Ref.occurrences q s) -> (i <= List.length s)%nat.
Proof.
  unfold Ref.occurrences, Ref.offsets. rewrite filter_In, in_seq. lia.
Qed.

(** An offset is listed exactly when the query is read there. *)
Lemma occurrences_spec (q s : str) (i : nat) :
  In i (Ref.occurrences q s)
  <-> (i <= List.length s)%nat
      /\ exists before_ after_, s = before_ ++ q ++ after_ /\ List.length before_ = i.
Proof.
  unfold Ref.occurrences, Ref.offsets, Ref.occurs_at. rewrite filter_In, in_seq.
  split.
  - intros [Hi H]. split; [lia|].
    apply prefixb_true_split in H.
    exists (firstn i s), (skipn (List.length q) (skipn i s)). split.
    + rewrite <- H. symmetry. apply firstn_skipn.
    + rewrite length_firstn. lia.
  - intros [Hi (a & b & -> & <-)]. split; [lia|].
    rewrite skipn_app, Nat.sub_diag, skipn_all. cbn [skipn app].
    apply prefixb_app.
Qed.

Lemma offsets_increasing (hit : nat -> bool) (s : str) :
  StronglySorted lt (Ref.offsets hit s).
Proof.
  unfold Ref.offsets. generalize (S (List.length s)) 0%nat.
  intros n. induction n as [|n IH]; intros k; cbn [seq filter]; [constructor|].
  destruct (hit k); [|apply IH].
  constructor; [apply IH|].
  apply Forall_forall. intros i Hi.
  apply filter_In in Hi as [Hi _]. apply in_seq in Hi. lia.
Qed.

(** With an empty query the loop never ends: every turn finds the empty
    string again, at the end of the text at the latest. *)
Lemma findMatches_empty_query_diverges (text : str) (ty : Search.MatchType) (fuel : nat) :
  Search.findMatches_fuel fuel text [] ty = Diverge.
Proof.
  unfold Search.findMatches_fuel.
  assert (H : forall z, indexOf (toLowerCase text) (toLowerCase []) z <> -1).
  { intros z. unfold indexOf, clamp.
    pose proof (len_nonneg (toLowerCase text)).
    destruct (skipn _ _); simpl; lia. }
  generalize (H 0). generalize (indexOf (toLowerCase text) (toLowerCase []) 0).
  generalize (@nil Search.Match).
  induction fuel as [|fuel IH]; intros acc z Hz; cbn [Search.findMatches_loop];
    [reflexivity|].
  destruct (z =? -1) eqn:E; [apply Z.eqb_eq in E; contradiction|].
  apply IH, H.
Qed.

(** C5. For every text, match type and query that is not empty,
    [findMatches] returns exactly one match per offset at which the
    lowercased query occurs in the lowercased text, overlapping occurrences
    included, in increasing order of offset; each match carries the window
    [text[max(0, i-50) : i+len(query)+50]] cut at the bounds of the text,
    the offset and the length of the query. *)
Theorem findMatches_one_match_per_occurrence
    (text query : str) (ty : Search.MatchType) (Hq : query <> []) :
  let occ := Ref.occurrences (toLowerCase query) (toLowerCase text) in
  Search.findMatches text query ty
  = Return (map (fun i => Search.mkMatch ty
                            (Ref.window text i (List.length query))
                            (Z.of_nat i) (len query))
                occ)
  /\ (forall i, In i occ <->
        (i <= List.length text)%nat
        /\ exists before_ after_,
             toLowerCase text = before_ ++ toLowerCase query ++ after_
             /\ List.length before_ = i)
  /\ StronglySorted lt occ.
Proof.
  intros occ. split; [|split].
  - rewrite (findMatches_returns text query ty Hq). f_equal.
    apply map_ext_in. intros i Hi.
    apply occurrences_in_range in Hi. rewrite toLowerCase_length in Hi.
    unfold Ref.pushed, len. now rewrite substring_window.
  - intros i. unfold occ. rewrite occurrences_spec, toLowerCase_length. reflexivity.
  - apply offsets_increasing.
Qed.

(** Query "aa" in "aaa": both overlapping occurrences are found. *)
Lemma findMatches_one_match_per_occurrence_witness :
  lit "aa" <> [] /\
  Search.findMatches (lit "aaa") (lit "aa") Search.content
  = Return [Search.mkMatch Search.content (lit "aaa") 0 2;
            Search.mkMatch Search.content (lit "aaa") 1 2].
Proof.
  split; [discriminate|].
  rewrite (proj1 (findMatches_one_match_per_occurrence (lit "aaa") (lit "aa")
                    Search.content ltac:(discriminate))).
  reflexivity.
Defined.

(** ** Regular expressions *)

Section RegExpFacts.

Import RegExp.

Lemma m_Cat r1 r2 p k : m (Cat r1 r2) p k = m r1 p (fun p' => m r2 p' k).
Proof. reflexivity. Qed.

Lemma m_Chr c p k : m (Chr c) p k = eat (Ascii.eqb c) p k.
Proof. reflexivity. Qed.

Lemma m_WordB p k : m WordB p k = if at_boundary p then k p else None.
Proof. reflexivity. Qed.

Lemma m_Empty p k : m Empty p k = k p.
Proof. reflexivity. Qed.

(** *** Patterns without syntax characters *)

Lemma lower_unit_syntax (c : ascii) :
  is_syntax_char (lower_unit c) = is_syntax_char c.
Proof. destruct c as [[] [] [] [] [] [] [] []]; reflexivity. Qed.

Lemma plain_toLowerCase (q : str) : Ref.plain q -> Ref.plain (toLowerCase q).
Proof.
  unfold Ref.plain, toLowerCase. intros H c Hc.
  apply in_map_iff in Hc as (c0 & <- & Hc0).
  rewrite lower_unit_syntax. now apply H.
Qed.

Lemma step_plain (st : pstate) (c : ascii) :
  is_syntax_char c = false -> pmode st = Normal ->
  step st c = push_term st (Chr c).
Proof.
  intros H Hm. unfold step. rewrite Hm. unfold step_normal.
  unfold is_syntax_char in H. simpl in H.
  repeat (apply orb_false_iff in H as [? H]).
  repeat match goal with
         | E : Ascii.eqb c _ = false |- _ => rewrite E; clear E
         end.
  reflexivity.
Qed.

Lemma parse_from_plain (q : str) :
  Ref.plain q ->
  forall (st : pstate) (rest : str),
    pmode st = Normal ->
    parse_from st (q ++ rest)
    = parse_from (mkPState (outer st)
                    (mkFrame (alts (top st)) (rev (map Chr q) ++ cur (top st)))
                    Normal) rest.
Proof.
  induction q as [|c q IH]; intros Hq st rest Hm.
  - destruct st as [o [a cu] md]. simpl in *. now subst md.
  - cbn [app parse_from]. rewrite step_plain; [| apply Hq; now left | exact Hm].
    unfold push_term. rewrite IH; [| intros x Hx; apply Hq; now right | reflexivity].
    cbn [outer top alts cur map rev]. now rewrite <- app_assoc.
Qed.

Lemma compile_plain (q : str) :
  Ref.plain q -> compile q = Parsed (seq_of (map Chr q)).
Proof.
  intros Hq. unfold compile.
  rewrite <- (app_nil_r q) at 1.
  rewrite (parse_from_plain q Hq start [] eq_refl).
  cbn. now rewrite app_nil_r, rev_involutive.
Qed.

Lemma compile_word_plain (q : str) :
  Ref.plain q ->
  compile (lit "\b" ++ q ++ lit "\b")
  = Parsed (seq_of (WordB :: map Chr q ++ [WordB])).
Proof.
  intros Hq. unfold compile.
  change (parse_from start (lit "\b" ++ q ++ lit "\b"))
    with (parse_from (mkPState [] (mkFrame [] [WordB]) Normal) (q ++ lit "\b")).
  rewrite (parse_from_plain q Hq (mkPState [] (mkFrame [] [WordB]) Normal)
             (lit "\b") eq_refl).
  cbn. now rewrite rev_app_distr, rev_involutive.
Qed.

(** A run of literal characters matches where the subject starts with it,
    and consumes it. *)
Lemma m_chars (q : str) (terms : list regex) :
  forall (p : pos) (k : pos -> option pos),
    m (seq_of (map Chr q ++ terms)) p k
    = if prefixb q (after p)
      then m (seq_of terms)
             (mkPos (rev q ++ before p) (skipn (List.length q) (after p))) k
      else None.
Proof.
  induction q as [|c q IH]; intros [bef aft] k.
  - reflexivity.
  - cbn [map app seq_of fold_right]. rewrite m_Cat, m_Chr.
    unfold eat. cbn [after before]. destruct aft as [|a aft]; [reflexivity|].
    cbn [prefixb]. destruct (Ascii.eqb c a) eqn:E; [|reflexivity].
    apply Ascii.eqb_eq in E. subst a.
    fold (seq_of (map Chr q ++ terms)). rewrite IH.
    cbn [after before andb rev List.length skipn]. now rewrite <- app_assoc.
Qed.

Lemma firstn_skipn_succ (s : str) (k : nat) :
  (k < List.length s)%nat ->
  exists c, nth_error s k = Some c /\ skipn k s = c :: skipn (S k) s
            /\ firstn (S k) s = firstn k s ++ [c].
Proof.
  revert k. induction s as [|a s IH]; intros k Hk; [simpl in Hk; lia|].
  destruct k as [|k].
  - exists a. repeat split.
  - destruct (IH k) as (c & H1 & H2 & H3); [simpl in Hk; lia|].
    exists c. repeat split; [exact H1 | exact H2 |].
    change (firstn (S (S k)) (a :: s)) with (a :: firstn (S k) s).
    now rewrite H3.
Qed.

Lemma pos_at_advance (q s : str) (k : nat) :
  (k <= List.length s)%nat ->
  prefixb q (skipn k s) = true ->
  mkPos (rev q ++ rev (firstn k s)) (skipn (List.length q) (skipn k s))
  = Ref.pos_at s (k + List.length q)
  /\ (k + List.length q <= List.length s)%nat.
Proof.
  intros Hk H. pose proof (prefixb_length _ _ H) as Hl.
  rewrite length_skipn in Hl.
  apply prefixb_true_split in H.
  split; [|lia]. unfold Ref.pos_at. f_equal.
  - rewrite <- rev_app_distr. f_equal.
    rewrite <- (firstn_skipn k s) at 2.
    rewrite firstn_app, firstn_firstn, length_firstn.
    replace (Nat.min (k + List.length q) k) with k by lia.
    replace (k + List.length q - Nat.min k (List.length s))%nat
      with (List.length q) by lia.
    f_equal. rewrite H at 1. rewrite firstn_app, Nat.sub_diag, firstn_all.
    simpl. now rewrite app_nil_r.
  - rewrite skipn_skipn. f_equal. lia.
Qed.

Lemma at_boundary_pos_at (s : str) (k : nat) :
  (k <= List.length s)%nat ->
  at_boundary (Ref.pos_at s k) = Ref.boundary_at s k.
Proof.
  intros Hk. unfold at_boundary, Ref.boundary_at. f_equal.
  - unfold word_before, Ref.pos_at, Ref.word_unit. cbn [before].
    destruct k as [|j]; [reflexivity|].
    destruct (firstn_skipn_succ s j) as (c & H1 & _ & H3); [lia|].
    rewrite H3, rev_app_distr, H1. reflexivity.
  - unfold word_after, Ref.pos_at, Ref.word_unit. cbn [after].
    destruct (Nat.eq_dec k (List.length s)) as [->|Hne].
    + rewrite skipn_all. 
      now replace (nth_error s (List.length s)) with (@None ascii)
        by (symmetry; apply nth_error_None; lia).
    + destruct (firstn_skipn_succ s k) as (c & H1 & H2 & _); [lia|].
      now rewrite H2, H1.
Qed.

Lemma match_at_plain (q s : str) (k : nat) :
  (k <= List.length s)%nat ->
  match_at (seq_of (map Chr q)) (Ref.pos_at s k)
  = if Ref.occurs_at q s k then Some (Ref.pos_at s (k + List.length q)) else None.
Proof.
  intros Hk. unfold match_at. rewrite <- (app_nil_r (map Chr q)), m_chars.
  unfold Ref.occurs_at. cbn [after before Ref.pos_at].
  destruct (prefixb q (skipn k s)) eqn:E; [|reflexivity].
  cbn [seq_of fold_right]. rewrite m_Empty.
  now destruct (pos_at_advance q s k Hk E) as [-> _].
Qed.

Lemma match_at_word_plain (q s : str) (k : nat) :
  (k <= List.length s)%nat ->
  match_at (seq_of (WordB :: map Chr q ++ [WordB])) (Ref.pos_at s k)
  = if Ref.whole_word_at q s k
    then Some (Ref.pos_at s (k + List.length q)) else None.
Proof.
  intros Hk. unfold match_at, Ref.whole_word_at.
  cbn [seq_of fold_right]. rewrite m_Cat, m_WordB, at_boundary_pos_at by exact Hk.
  destruct (Ref.boundary_at s k); [|reflexivity].
  fold (seq_of (map Chr q ++ [WordB])). rewrite m_chars.
  unfold Ref.occurs_at. cbn [after before Ref.pos_at andb].
  destruct (prefixb q (skipn k s)) eqn:E; [|reflexivity].
  destruct (pos_at_advance q s k Hk E) as [-> Hle].
  cbn [seq_of fold_right andb]. rewrite m_Cat, m_WordB, m_Empty.
  now rewrite at_boundary_pos_at by exact Hle.
Qed.

End RegExpFacts.

(** *** Counting the matches of a global pattern *)

Lemma count_from_nonneg (r : RegExp.regex) (aft : str) :
  forall (bef : str) (skip : nat), 0 <= RegExp.count_from r bef aft skip.
Proof.
  induction aft as [|c aft IH]; intros bef skip; destruct skip; cbn [RegExp.count_from].
  - destruct (RegExp.match_at r _); lia.
  - lia.
  - destruct (RegExp.match_at r _); [pose proof (IH (c :: bef)
      (Nat.pred (List.length (c :: aft) - List.length (RegExp.after p)))) |
      pose proof (IH (c :: bef) O)]; lia.
  - apply IH.
Qed.

Lemma disjoint_from_free (w : nat) (l : list nat) (a b : nat) :
  (forall i, In i l -> (a <= i /\ b <= i)%nat) ->
  Ref.disjoint_from w l a = Ref.disjoint_from w l b.
Proof.
  destruct l as [|i l]; intros H; [reflexivity|].
  destruct (H i (or_introl eq_refl)) as [Ha Hb]. simpl.
  apply Nat.leb_le in Ha, Hb. now rewrite Ha, Hb.
Qed.

Section Counting.

Variables (r : RegExp.regex) (s : str) (w : nat) (hit : nat -> bool).

Hypothesis width_positive : (1 <= w)%nat.

Hypothesis hit_fits : forall k, hit k = true -> (k + w <= List.length s)%nat.

Hypothesis match_at_hit : forall k, (k <= List.length s)%nat ->
  RegExp.match_at r (Ref.pos_at s k)
  = if hit k then Some (Ref.pos_at s (k + w)) else None.

(** When the pattern matches exactly at the offsets [hit], over [w] code
    units each, the global scan counts the occurrences that do not overlap
    an earlier counted one. *)
Lemma count_from_disjoint (n : nat) :
  forall (k skip : nat),
    (k + n = List.length s)%nat ->
    RegExp.count_from r (rev (firstn k s)) (skipn k s) skip
    = Z.of_nat (List.length
        (Ref.disjoint_from w (filter hit (seq k (S n))) (k + skip))).
Proof.
  induction n as [|n IH]; intros k skip Hk.
  - assert (Hnot : hit k = false).
    { destruct (hit k) eqn:E; [apply hit_fits in E; lia | reflexivity]. }
    pose proof (match_at_hit k ltac:(lia)) as Hm. rewrite Hnot in Hm.
    unfold Ref.pos_at in Hm.
    replace k with (List.length s) in * by lia. rewrite skipn_all in *.
    cbn [seq filter]. rewrite Hnot.
    destruct skip; cbn [RegExp.count_from]; [now rewrite Hm | reflexivity].
  - destruct (firstn_skipn_succ s k ltac:(lia)) as (c & _ & Hskip & Hfirst).
    pose proof (match_at_hit k ltac:(lia)) as Hm. unfold Ref.pos_at in Hm.
    rewrite Hskip in *.
    assert (Hbef : c :: rev (firstn k s) = rev (firstn (S k) s)).
    { now rewrite Hfirst, rev_app_distr. }
    change (seq k (S (S n))) with (k :: seq (S k) (S n)). cbn [filter].
    destruct skip as [|sk]; cbn [RegExp.count_from].
    + rewrite Hm. destruct (hit k) eqn:E.
      * pose proof (hit_fits k E) as Hfit.
        cbn [RegExp.after Ref.pos_at Ref.disjoint_from].
        replace (k + 0 <=? k)%nat with true by (symmetry; apply Nat.leb_le; lia).
        rewrite Hbef, (IH (S k)) by lia.
        rewrite length_skipn. cbn [List.length].
        replace (S k + Nat.pred (S (List.length (skipn (S k) s)) - (List.length s - (k + w))))%nat
          with (k + w)%nat by (rewrite length_skipn; lia).
        lia.
      * rewrite Hbef, (IH (S k)) by lia. do 2 f_equal.
        apply disjoint_from_free. intros i Hi.
        apply filter_In in Hi as [Hi _]. apply in_seq in Hi. lia.
    + rewrite Hbef, (IH (S k)) by lia.
      replace (S k + sk)%nat with (k + S sk)%nat by lia.
      destruct (hit k); [|reflexivity].
      cbn [Ref.disjoint_from].
      now replace (k + S sk <=? k)%nat with false by (symmetry; apply Nat.leb_gt; lia).
Qed.

Lemma count_matches_disjoint :
  RegExp.count_matches r s
  = Z.of_nat (List.length (Ref.disjoint_from w (Ref.offsets hit s) 0)).
Proof.
  unfold RegExp.count_matches, Ref.offsets.
  apply (count_from_disjoint (List.length s) 0 0). lia.
Qed.

End Counting.

Lemma occurs_at_fits (q s : str) (k : nat) :
  q <> [] -> Ref.occurs_at q s k = true -> (k + List.length q <= List.length s)%nat.
Proof.
  unfold Ref.occurs_at. intros Hq H.
  destruct (Nat.le_gt_cases k (List.length s)) as [L|L].
  - apply prefixb_length in H. rewrite length_skipn in H. lia.
  - rewrite skipn_all2, prefixb_nil_r in H by (auto; lia). discriminate.
Qed.

(** The pattern made of a plain query counts its occurrences that do not
    overlap. *)
Lemma count_plain (q s : str) :
  q <> [] ->
  RegExp.count_matches (RegExp.seq_of (map RegExp.Chr q)) s
  = Z.of_nat (List.length
      (Ref.disjoint_from (List.length q) (Ref.occurrences q s) 0)).
Proof.
  intros Hq. apply count_matches_disjoint.
  - destruct q; [congruence | simpl; lia].
  - intros k. now apply occurs_at_fits.
  - intros k Hk. now apply match_at_plain.
Qed.

Lemma count_word_plain (q s : str) :
  q <> [] ->
  RegExp.count_matches
    (RegExp.seq_of (RegExp.WordB :: map RegExp.Chr q ++ [RegExp.WordB])) s
  = Z.of_nat (List.length
      (Ref.disjoint_from (List.length q) (Ref.whole_word_occurrences q s) 0)).
Proof.
  intros Hq. apply count_matches_disjoint.
  - destruct q; [congruence | simpl; lia].
  - intros k H. unfold Ref.whole_word_at in H.
    apply andb_true_iff in H as [H _]. apply andb_true_iff in H as [_ H].
    now apply occurs_at_fits.
  - intros k Hk. now apply match_at_word_plain.
Qed.

Lemma match_count_nonneg (h : Host) (pattern subject : str) (n : Z) :
  match_count h pattern subject = Return n -> 0 <= n.
Proof.
  unfold match_count. destruct (RegExp.compile pattern).
  - intros [= <-]. apply count_from_nonneg.
  - discriminate.
  - destruct (host_match_count h pattern subject); [intros [= <-]; lia | discriminate].
Qed.

(** Building and running a pattern throws or returns: it never loops. *)
Lemma match_count_ends (h : Host) (pattern subject : str) :
  match_count h pattern subject <> Diverge.
Proof.
  unfold match_count. destruct (RegExp.compile pattern); try discriminate.
  destruct (host_match_count h pattern subject); discriminate.
Qed.

(** ** Relevance Scorer *)

Section RelevanceScorer.

Import Search.

(** The score is the sum of what the title gives and what the content
    gives, when the patterns built from the query are accepted. *)
Lemma scoreMatch_parts (h : Host) (content title query : str) :
  scoreMatch h content title query
  = (c <- Ref.content_points h content query ;;
     Return (Ref.title_points title query + c)).
Proof.
  unfold scoreMatch, Ref.content_points, Ref.title_points.
  pose proof (startsWith_includes (toLowerCase title) (toLowerCase query)) as Hsi.
  destruct (match_count h (toLowerCase query) (toLowerCase content)) as [raw| |];
    [|reflexivity|reflexivity].
  destruct (match_count h _ (toLowerCase content)) as [whole| |];
    [|reflexivity|reflexivity].
  cbn [cbind]. f_equal.
  destruct (startsWith (toLowerCase title) (toLowerCase query)).
  - rewrite Hsi by reflexivity. lia.
  - destruct (includes (toLowerCase title) (toLowerCase query)); lia.
Qed.

Lemma title_points_cases (title query : str) :
  let t := toLowerCase title in
  let q := toLowerCase query in
  (Ref.is_prefix q t -> Ref.title_points title query = 15)
  /\ (Ref.is_substring q t -> ~ Ref.is_prefix q t -> Ref.title_points title query = 10)
  /\ (~ Ref.is_substring q t -> Ref.title_points title query = 0).
Proof.
  intros t q. unfold Ref.title_points. fold t q.
  pose proof (startsWith_includes t q) as Hsi.
  pose proof (startsWith_iff t q) as Hs.
  pose proof (includes_iff t q) as Hi.
  destruct (startsWith t q), (includes t q); repeat split; intros;
    try reflexivity; intuition (try discriminate; try congruence).
Qed.

Lemma content_points_nonneg (h : Host) (content query : str) (c : Z) :
  Ref.content_points h content query = Return c -> 0 <= c.
Proof.
  unfold Ref.content_points.
  destruct (match_count h (toLowerCase query) _) as [raw| |] eqn:E1; try discriminate.
  destruct (match_count h (_ ++ _) _) as [whole| |] eqn:E2; try discriminate.
  cbn [cbind]. intros [= <-].
  apply match_count_nonneg in E1, E2. lia.
Qed.

Lemma title_points_nonneg (title query : str) : 0 <= Ref.title_points title query.
Proof.
  unfold Ref.title_points.
  destruct (includes _ _), (startsWith _ _); lia.
Qed.

Lemma content_points_value (h : Host) (content query : str) :
  query <> [] -> Ref.plain query ->
  Ref.content_points h content query
  = Return
      (Z.of_nat (List.length
         (Ref.disjoint_from (List.length query)
            (Ref.occurrences (toLowerCase query) (toLowerCase content)) 0)) * 1
       + Z.of_nat (List.length
         (Ref.disjoint_from (List.length query)
            (Ref.whole_word_occurrences (toLowerCase query) (toLowerCase content)) 0)) * 2).
Proof.
  intros Hq Hp.
  assert (Hql : toLowerCase query <> []) by now rewrite toLowerCase_nil_iff.
  apply plain_toLowerCase in Hp.
  unfold Ref.content_points, match_count.
  rewrite (compile_plain _ Hp), (compile_word_plain _ Hp). cbn [cbind].
  rewrite (count_plain _ _ Hql), (count_word_plain _ _ Hql).
  now rewrite toLowerCase_length.
Qed.

End RelevanceScorer.

(** C1, as the code behaves. The scorer builds its patterns from the
    query as it stands, while [highlightText] escapes it first: for content
    "a.b.c" and query "." the pattern matches every code unit, so the raw
    count is 5 and the score 15, although "." occurs twice; the escaped
    query would count 2; a query "(" makes the constructor throw. The match
    finder searches literally and finds the two occurrences. *)
Theorem scoreMatch_reads_query_as_pattern (h : Host) :
  match_count h (toLowerCase (lit ".")) (toLowerCase (lit "a.b.c")) = Return 5
  /\ Ref.occurrences (toLowerCase (lit ".")) (toLowerCase (lit "a.b.c")) = [1; 3]%nat
  /\ match_count h (Ref.escape (lit ".")) (lit "a.b.c") = Return 2
  /\ Search.scoreMatch h (lit "a.b.c") [] (lit ".") = Return 15
  /\ Search.scoreMatch h (lit "x") [] (lit "(") = Throw SyntaxError
  /\ Search.findMatches (lit "a.b.c") (lit ".") Search.content
     = Return [Search.mkMatch Search.content (lit "a.b.c") 1 1;
               Search.mkMatch Search.content (lit "a.b.c") 3 1].
Proof. repeat split; reflexivity. Qed.



Lemma plain_milk : Ref.plain (lit "milk").
Proof.
  intros c Hc. simpl in Hc.
  repeat (destruct Hc as [<-|Hc]; [reflexivity|]). contradiction.
Qed.


(** C3. For every title and query, compared in lower case, the title gives
    10 points when it contains the query and 5 more when it starts with it,
    so 15 for a prefix, 10 for a query contained elsewhere only, and 0 for a
    query it does not contain; the score starts from 0, adds these points to
    those of the content, and is never negative. *)
Theorem scoreMatch_title_points (h : Host) (content title query : str) :
  let t := toLowerCase title in
  let q := toLowerCase query in
  Search.scoreMatch h content title query
  = (c <- Ref.content_points h content query ;;
     Return (0 + Ref.title_points title query + c))
  /\ (Ref.is_prefix q t -> Ref.title_points title query = 10 + 5)
  /\ (Ref.is_substring q t -> ~ Ref.is_prefix q t -> Ref.title_points title query = 10)
  /\ (~ Ref.is_substring q t -> Ref.title_points title query = 0)
  /\ (forall s, Search.scoreMatch h content title query = Return s -> 0 <= s).
Proof.
  intros t q.
  destruct (title_points_cases title query) as (H15 & H10 & H0).
  split; [apply scoreMatch_parts|].
  repeat split; try assumption.
  intros s. rewrite scoreMatch_parts.
  destruct (Ref.content_points h content query) as [c| |] eqn:E; try discriminate.
  cbn [cbind]. intros [= <-].
  pose proof (content_points_nonneg _ _ _ _ E).
  pose proof (title_points_nonneg title query). lia.
Qed.

(** Title "Shopping List", query "Shopping", content "milk eggs bread":
    15 from the title alone, nothing from the content. *)
Lemma scoreMatch_title_points_witness :
  Ref.is_prefix (toLowerCase (lit "Shopping")) (toLowerCase (lit "Shopping List"))
  /\ Ref.title_points (lit "Shopping List") (lit "Shopping") = 15
  /\ Search.scoreMatch bare_host (lit "milk eggs bread") (lit "Shopping List")
       (lit "Shopping") = Return 15
  /\ 0 <= 15.
Proof.
  pose proof (scoreMatch_title_points bare_host (lit "milk eggs bread")
                (lit "Shopping List") (lit "Shopping")) as (Hsum & H15 & _ & _ & Hpos).
  assert (Hp : Ref.is_prefix (toLowerCase (lit "Shopping"))
                 (toLowerCase (lit "Shopping List"))).
  { exists (lit " list"). reflexivity. }
  split; [exact Hp|]. split; [exact (H15 Hp)|].
  split; [rewrite Hsum; reflexivity|].
  apply Hpos. rewrite Hsum. reflexivity.
Defined.

(** C4, as stated, fails: with title "ab" and content "b b b b b b" the
    query "a" is a prefix of the title and scores 15, while the query "b",
    contained in the title but not at its start, scores 10 + 6 + 12. *)
Lemma scoreMatch_not_ordered_by_title_rank :
  ~ (forall (h : Host) (title content q1 q2 q3 : str) (s1 s2 s3 : Z),
       let t := toLowerCase title in
       Ref.is_prefix (toLowerCase q1) t ->
       Ref.is_substring (toLowerCase q2) t -> ~ Ref.is_prefix (toLowerCase q2) t ->
       ~ Ref.is_substring (toLowerCase q3) t ->
       Ref.is_substring (toLowerCase q3) (toLowerCase content) ->
       Search.scoreMatch h content title q1 = Return s1 ->
       Search.scoreMatch h content title q2 = Return s2 ->
       Search.scoreMatch h content title q3 = Return s3 ->
       s2 <= s1 /\ s3 <= s2).
Proof.
  intros H.
  specialize (H bare_host (lit "ab") (lit "b b b b b b")
                (lit "a") (lit "b") (lit " ") 15 28 15).
  cbv zeta in H. rewrite <- !startsWith_iff, <- !includes_iff in H.
  assert (G : 28 <= 15 /\ 15 <= 28).
  { apply H; try reflexivity; vm_compute; congruence. }
  lia.
Qed.

(** C4, amended. For a fixed title and content, a query that is a prefix
    of the title takes 15 points from the title, a query contained in the
    title but not at its start takes 10, and a query absent from the title
    takes none; each score is these points plus the points of the content
    for that query, so the scores are ordered in this way whenever the
    points of the content are not in the opposite order. *)
Theorem scoreMatch_ordered_by_title_points
    (h : Host) (title content q1 q2 q3 : str) (s1 s2 s3 : Z) :
  let t := toLowerCase title in
  Ref.is_prefix (toLowerCase q1) t ->
  Ref.is_substring (toLowerCase q2) t -> ~ Ref.is_prefix (toLowerCase q2) t ->
  ~ Ref.is_substring (toLowerCase q3) t ->
  Search.scoreMatch h content title q1 = Return s1 ->
  Search.scoreMatch h content title q2 = Return s2 ->
  Search.scoreMatch h content title q3 = Return s3 ->
  exists c1 c2 c3 : Z,
    Ref.content_points h content q1 = Return c1
    /\ Ref.content_points h content q2 = Return c2
    /\ Ref.content_points h content q3 = Return c3
    /\ s1 = 15 + c1 /\ s2 = 10 + c2 /\ s3 = 0 + c3
    /\ (c2 <= c1 -> s2 <= s1) /\ (c3 <= c2 -> s3 <= s2).
Proof.
  intros t Hp1 Hs2 Hp2 Hs3 E1 E2 E3.
  destruct (title_points_cases title q1) as (T1 & _ & _).
  destruct (title_points_cases title q2) as (_ & T2 & _).
  destruct (title_points_cases title q3) as (_ & _ & T3).
  rewrite scoreMatch_parts in E1, E2, E3.
  rewrite T1 in E1 by assumption. rewrite T2 in E2 by assumption.
  rewrite T3 in E3 by assumption.
  destruct (Ref.content_points h content q1) as [c1| |]; try discriminate.
  destruct (Ref.content_points h content q2) as [c2| |]; try discriminate.
  destruct (Ref.content_points h content q3) as [c3| |]; try discriminate.
  unfold cbind in E1, E2, E3.
  assert (H1 : 15 + c1 = s1) by congruence.
  assert (H2 : 10 + c2 = s2) by congruence.
  assert (H3 : 0 + c3 = s3) by congruence.
  exists c1, c2, c3.
  repeat match goal with |- _ /\ _ => split end; try reflexivity; lia.
Qed.

(** Title "ab", content "a b c": the queries "a", "b" and "c" have the same
    points from the content and score 18, 13 and 3. *)
Lemma scoreMatch_ordered_by_title_points_witness :
  exists c1 c2 c3 : Z,
    Ref.content_points bare_host (lit "a b c") (lit "a") = Return c1
    /\ Ref.content_points bare_host (lit "a b c") (lit "b") = Return c2
    /\ Ref.content_points bare_host (lit "a b c") (lit "c") = Return c3
    /\ 18 = 15 + c1 /\ 13 = 10 + c2 /\ 3 = 0 + c3
    /\ (c2 <= c1 -> 13 <= 18) /\ (c3 <= c2 -> 3 <= 13).
Proof.
  apply (scoreMatch_ordered_by_title_points bare_host (lit "ab") (lit "a b c")
           (lit "a") (lit "b") (lit "c") 18 13 3).
  - exists (lit "b"). reflexivity.
  - exists (lit "a"), []. reflexivity.
  - rewrite <- startsWith_iff. vm_compute. discriminate.
  - rewrite <- includes_iff. vm_compute. discriminate.
  - reflexivity.
  - reflexivity.
  - reflexivity.
Defined.

(** ** Search Orchestrator *)

Section SearchOrchestrator.

Import Search.

Lemma truthy_trim_nonempty (query : str) :
  truthy (trim query) = true -> query <> [].
Proof. intros H ->. discriminate. Qed.

Lemma scoreMatch_ends (h : Host) (content_ title_ query : str) :
  scoreMatch h content_ title_ query <> Diverge.
Proof.
  unfold scoreMatch.
  destruct (match_count h (toLowerCase query) _) eqn:E1; cbn [cbind];
    [| discriminate | now apply match_count_ends in E1].
  destruct (match_count h (_ ++ _) _) eqn:E2; cbn [cbind];
    [discriminate | discriminate | now apply match_count_ends in E2].
Qed.

Lemma to_result_ends (h : Host) (query : str) (note : Note) :
  query <> [] -> to_result h query note <> Diverge.
Proof.
  intros Hq. unfold to_result.
  rewrite !(findMatches_returns _ _ _ Hq). cbn [cbind].
  pose proof (scoreMatch_ends h (or_empty (n_content note))
                (or_empty (n_name note)) query).
  destruct (scoreMatch h _ _ query); [discriminate | discriminate | congruence].
Qed.

Lemma map_completion_ends {A B} (f : A -> completion B) (l : list A) :
  (forall a, f a <> Diverge) -> map_completion f l <> Diverge.
Proof.
  intros Hf. induction l as [|a l IH]; cbn [map_completion]; [discriminate|].
  specialize (Hf a). destruct (f a); cbn [cbind]; [|discriminate|congruence].
  destruct (map_completion f l); cbn [cbind]; [discriminate|discriminate|congruence].
Qed.

Lemma build_results_ends (h : Host) (query : str) (filters : SearchFilters)
    (notes : list Note) :
  query <> [] -> build_results h query filters notes <> Diverge.
Proof.
  intros Hq. unfold build_results.
  pose proof (map_completion_ends (to_result h query)
                (filter (keep query filters) notes)
                (fun n => to_result_ends h query n Hq)).
  destruct (map_completion _ _); cbn [cbind]; [discriminate|discriminate|congruence].
Qed.

End SearchOrchestrator.

(** C6. For every query that is not empty after trimming and every filter
    set, [searchNotes] completes normally whatever the store read and the
    processing of its rows do; when the read is rejected or the processing
    throws, the published results are empty and the error goes to the
    console; on every path [isSearching] ends false. *)
Theorem searchNotes_degrades_to_empty
    (h : Host) (store : Search.settlement (list Search.Note)) (query : str)
    (filters : Search.SearchFilters) (s0 : Search.SearchState)
    (Hquery : truthy (trim query) = true) :
  exists s1 : Search.SearchState,
    Search.searchNotes h store query filters s0 = (Return tt, s1)
    /\ Search.isSearching s1 = false
    /\ (forall e, store = Search.Rejected e ->
          Search.searchResults s1 = [] /\ Search.console s1 = Search.console s0 ++ [e])
    /\ (forall notes e, store = Search.Fulfilled notes ->
          Search.build_results h query filters notes = Throw e ->
          Search.searchResults s1 = [] /\ Search.console s1 = Search.console s0 ++ [e])
    /\ (forall notes results, store = Search.Fulfilled notes ->
          Search.build_results h query filters notes = Return results ->
          Search.searchResults s1 = results).
Proof.
  pose proof (truthy_trim_nonempty query Hquery) as Hq.
  unfold Search.searchNotes. rewrite Hquery. cbn [negb].
  destruct store as [notes|e].
  - pose proof (build_results_ends h query filters notes Hq) as Hends.
    unfold Search.bind, Search.try_catch_finally, Search.await, Search.ret,
      Search.lift, Search.setIsSearching, Search.setSearchQuery,
      Search.setSearchResults, Search.console_error.
    cbn [Search.isSearching Search.searchResults Search.searchQuery Search.console].
    destruct (Search.build_results h query filters notes) as [rs|e|] eqn:E;
      [| |congruence].
    + eexists. split; [reflexivity|]. cbn.
      repeat split; intros; try discriminate; congruence.
    + eexists. split; [reflexivity|]. cbn.
      repeat split; intros; try discriminate; congruence.
  - eexists. split; [reflexivity|]. cbn.
    repeat split; intros; try discriminate; congruence.
Qed.

(** A rejected store read, and a query "(" that makes the scorer throw on
    a note that contains it: both leave no result and no loading flag. *)
Lemma searchNotes_degrades_to_empty_witness :
  truthy (trim (lit "(")) = true
  /\ exists s1 : Search.SearchState,
       Search.searchNotes bare_host
         (Search.Fulfilled [Search.mkNote (lit "/a") (Some (lit "Maths"))
                              (Some (lit "f(x)")) None None])
         (lit "(") (Search.mkFilters None None None)
         (Search.mkState false [] [] [])
       = (Return tt, s1)
       /\ Search.isSearching s1 = false
       /\ Search.searchResults s1 = []
       /\ Search.console s1 = [SyntaxError].
Proof.
  split; [reflexivity|].
  destruct (searchNotes_degrades_to_empty bare_host
              (Search.Fulfilled [Search.mkNote (lit "/a") (Some (lit "Maths"))
                                   (Some (lit "f(x)")) None None])
              (lit "(") (Search.mkFilters None None None)
              (Search.mkState false [] [] []) eq_refl)
    as (s1 & Hrun & Hflag & _ & Hthrow & _).
  exists s1. split; [exact Hrun|]. split; [exact Hflag|].
  exact (Hthrow _ SyntaxError eq_refl eq_refl).
Defined.

(** ** Auto-Save Coordinator *)

Section Trim.

Import Ref.

Lemma trimStart_head (s : str) : head_kept (trimStart s).
Proof.
  induction s as [|c s IH]; simpl; [exact I|].
  destruct (is_space c) eqn:E; [exact IH | exact E].
Qed.

Lemma trimStart_kept (s : str) : head_kept s -> trimStart s = s.
Proof. destruct s as [|c s]; simpl; [reflexivity|]. now intros ->. Qed.

Lemma trimStart_suffix (s : str) : exists pre, s = pre ++ trimStart s.
Proof.
  induction s as [|c s [pre IH]]; simpl; [now exists []|].
  destruct (is_space c); [|now exists []].
  exists (c :: pre). simpl. now f_equal.
Qed.

Lemma trimStart_last (s : str) : head_kept (rev s) -> head_kept (rev (trimStart s)).
Proof.
  destruct (trimStart_suffix s) as [pre H]. intros Hs.
  rewrite H, rev_app_distr in Hs.
  destruct (rev (trimStart s)); [exact I | exact Hs].
Qed.

Lemma trim_idempotent (s : str) : trim (trim s) = trim s.
Proof.
  unfold trim, trimEnd.
  assert (H : head_kept (rev (trimStart (rev (trimStart s))))).
  { apply trimStart_last. rewrite rev_involutive. apply trimStart_head. }
  rewrite (trimStart_kept _ H), rev_involutive.
  now rewrite (trimStart_kept _ (trimStart_head _)).
Qed.

End Trim.

Lemma str_eqb_eq (a b : str) : str_eqb a b = true <-> a = b.
Proof. unfold str_eqb. destruct (list_eq_dec ascii_dec a b); split; congruence. Qed.

(** *** What every step preserves *)

Section Preservation.

Import AutoSave.

Variable P : World -> Prop.

Hypothesis P_clearTimeout : forall w id, P w -> P (clearTimeout id w).
Hypothesis P_setTimeout : forall w p d, P w -> P (setTimeout p d w).
Hypothesis P_set_now : forall w t, P w -> P (set_now t w).
Hypothesis P_set_cleanup : forall w b, P w -> P (set_cleanup b w).
Hypothesis P_debouncedSave : forall w p, P w -> P (debouncedSave p w).

Lemma P_clear_current (w : World) : P w -> P (clear_current w).
Proof. unfold clear_current. destruct (timeoutRef w); auto. Qed.

Lemma P_effect (w : World) (p : Props) : P w -> P (effect p w).
Proof.
  intros H. unfold effect.
  assert (H' : P (if cleanup w then clear_current w else w)).
  { destruct (cleanup w); auto using P_clear_current. }
  destruct (negb (enabled p) || negb (truthy (trim (content p))));
    auto using P_clear_current.
Qed.

Lemma P_saveNow (w : World) (p : Props) : P w -> P (saveNow p w).
Proof. unfold saveNow. auto using P_clear_current. Qed.

Lemma P_fire (w : World) (t : Timer) : P w -> P (fire t w).
Proof. unfold fire. auto. Qed.

Lemma P_run_timers (fuel : nat) (target : Z) :
  forall w, P w -> P (run_timers fuel target w).
Proof.
  induction fuel as [|fuel IH]; intros w H; cbn [run_timers]; [exact H|].
  destruct (earliest _); auto using P_fire.
Qed.

Lemma P_advance (w : World) (target : Z) : P w -> P (advance target w).
Proof. unfold advance. auto using P_run_timers. Qed.

Hypothesis P_settle : forall w ok, P w -> P (settle ok w).

Lemma P_step (w : World) (e : event) : P w -> P (step w e).
Proof.
  destruct e; cbn [step]; auto using P_effect, P_saveNow, P_advance.
Qed.

Lemma P_run (es : list event) : forall w, P w -> P (run es w).
Proof.
  unfold run. induction es as [|e es IH]; intros w H; cbn [fold_left];
    auto using P_step.
Qed.

End Preservation.

(** What the save logic reads and writes is out of reach of the timer
    and clock operations: such goals close by unfolding the records. *)
Ltac frame :=
  intros;
  repeat match goal with w : AutoSave.World |- _ => destruct w end;
  cbn in *; auto.

Section Coordinator.

Import AutoSave.

Lemma saving_blocks (w : World) (p : Props) :
  isSavingRef w = true -> debouncedSave p w = w.
Proof. intros H. unfold debouncedSave. now rewrite H. Qed.

Lemma unchanged_blocks (w : World) (p : Props) :
  trim (content p) = lastSavedContentRef w -> debouncedSave p w = w.
Proof.
  intros H. unfold debouncedSave.
  destruct (isSavingRef w || negb (enabled p)); [reflexivity|].
  apply str_eqb_eq in H. now rewrite H.
Qed.

Lemma guarded_debouncedSave (w : World) (p : Props) :
  guarded w -> guarded (debouncedSave p w).
Proof.
  intros [[Hs Hf]|[Hs Hf]].
  - rewrite saving_blocks by exact Hs. left. auto.
  - unfold debouncedSave. rewrite Hs. cbn [orb].
    destruct (negb (enabled p)); [right; auto|].
    destruct (str_eqb _ _); [right; auto|].
    left. destruct w; cbn in *. subst. split; [reflexivity|]. eexists. reflexivity.
Qed.

Lemma guarded_settle (w : World) (ok : bool) : guarded w -> guarded (settle ok w).
Proof.
  intros [[Hs [c Hf]]|[Hs Hf]]; unfold settle; rewrite Hf.
  - right. destruct ok; destruct w; cbn in *; auto.
  - right. auto.
Qed.

Lemma guarded_reachable (es : list event) : guarded (run es init).
Proof.
  apply P_run;
    first [ apply guarded_debouncedSave
          | apply guarded_settle
          | unfold guarded; frame; fail ].
Qed.

(** While the flag is raised, no timer firing and no manual save calls
    [onSave]. *)
Lemma blocked_while_saving (w w' : World) :
  isSavingRef w' = true /\ in_flight w' = in_flight w
  /\ persist_log w' = persist_log w ->
  forall p t,
    (in_flight (saveNow p w') = in_flight w
     /\ persist_log (saveNow p w') = persist_log w)
    /\ (in_flight (advance t w') = in_flight w
        /\ persist_log (advance t w') = persist_log w).
Proof.
  intros H p t.
  set (Q := fun x : World => isSavingRef x = true /\ in_flight x = in_flight w
                             /\ persist_log x = persist_log w).
  assert (Hsave : forall x q, Q x -> Q (debouncedSave q x)).
  { intros x q Hx. rewrite saving_blocks; [exact Hx | apply Hx]. }
  split.
  - apply (P_saveNow Q); try exact H; try exact Hsave; unfold Q; frame.
  - apply (P_advance Q); try exact H; try exact Hsave; unfold Q; frame.
Qed.

End Coordinator.

(** C7. In every execution of the coordinator at most one call of [onSave]
    is awaited at any time, and a save request that arrives meanwhile, a
    timer that fires or a call of [saveNow], calls [onSave] no further and
    leaves nothing queued. *)
Theorem at_most_one_persist_in_flight (es : list AutoSave.event) :
  let w := AutoSave.run es AutoSave.init in
  (List.length (AutoSave.in_flight w) <= 1)%nat
  /\ (AutoSave.in_flight w <> [] ->
      forall (p : AutoSave.Props) (t : Z),
        (AutoSave.in_flight (AutoSave.saveNow p w) = AutoSave.in_flight w
         /\ AutoSave.persist_log (AutoSave.saveNow p w) = AutoSave.persist_log w)
        /\ (AutoSave.in_flight (AutoSave.advance t w) = AutoSave.in_flight w
            /\ AutoSave.persist_log (AutoSave.advance t w) = AutoSave.persist_log w)).
Proof.
  intros w. destruct (guarded_reachable es) as [[Hs [c Hf]]|[Hs Hf]]; fold w in Hs, Hf.
  - split; [rewrite Hf; simpl; lia|].
    intros _. apply blocked_while_saving. auto.
  - split; [rewrite Hf; simpl; lia|].
    intros H. contradiction.
Qed.

(** A timer fires and calls [onSave]; before the call settles the content
    changes, the next timer fires and [saveNow] is called: still one call. *)
Lemma at_most_one_persist_in_flight_witness :
  let w := AutoSave.run [AutoSave.Change (AutoSave.typing (lit "a"));
                         AutoSave.Advance 2000;
                         AutoSave.Change (AutoSave.typing (lit "ab"))]
             AutoSave.init in
  AutoSave.in_flight w = [lit "a"]
  /\ AutoSave.persist_log (AutoSave.advance 9000 w) = [(2000, lit "a")]
  /\ AutoSave.persist_log (AutoSave.saveNow (AutoSave.typing (lit "ab")) w)
     = [(2000, lit "a")].
Proof.
  intros w.
  pose proof (at_most_one_persist_in_flight
                [AutoSave.Change (AutoSave.typing (lit "a"));
                 AutoSave.Advance 2000;
                 AutoSave.Change (AutoSave.typing (lit "ab"))]) as [_ H].
  fold w in H.
  assert (Hw : AutoSave.in_flight w = [lit "a"]) by reflexivity.
  split; [exact Hw|].
  destruct (H ltac:(rewrite Hw; discriminate) (AutoSave.typing (lit "ab")) 9000)
    as [[_ H1] [_ H2]].
  split; [rewrite H2 | rewrite H1]; reflexivity.
Defined.

Section Marker.

Import AutoSave.


Lemma run_app (es1 es2 : list event) (w : World) :
  run (es1 ++ es2) w = run es2 (run es1 w).
Proof. unfold run. apply fold_left_app. Qed.

Lemma debouncedSave_cases (w : World) (p : Props) :
  debouncedSave p w = w
  \/ (persist_log (debouncedSave p w) = persist_log w ++ [(now w, trim (content p))]
      /\ in_flight (debouncedSave p w) = in_flight w ++ [trim (content p)]
      /\ lastSavedContentRef (debouncedSave p w) = lastSavedContentRef w).
Proof.
  unfold debouncedSave.
  destruct (isSavingRef w || negb (enabled p)); [now left|].
  destruct (str_eqb _ _); [now left|].
  right. frame.
Qed.

Lemma saves_trimmed_debouncedSave (w : World) (p : Props) :
  saves_trimmed w -> saves_trimmed (debouncedSave p w).
Proof.
  intros H. destruct (debouncedSave_cases w p) as [->|(Hlog & Hfl & Hm)]; [exact H|].
  destruct H as (H1 & H2 & H3 & H4).
  unfold saves_trimmed. rewrite Hlog, Hfl, Hm, map_app. cbn [map snd].
  repeat split.
  - apply Forall_app. split; [exact H1|].
    constructor; [apply trim_idempotent | constructor].
  - apply Forall_app. split; [exact H2|].
    constructor; [apply trim_idempotent | constructor].
  - destruct H3 as [H3|H3]; [now left | right; apply in_or_app; now left].
  - intros c Hc. apply in_app_or in Hc as [Hc|Hc]; apply in_or_app.
    + left. now apply H4.
    + now right.
Qed.

Lemma saves_trimmed_settle (w : World) (ok : bool) :
  saves_trimmed w -> saves_trimmed (settle ok w).
Proof.
  intros (H1 & H2 & H3 & H4). unfold settle.
  destruct (in_flight w) as [|c rest] eqn:E; [unfold saves_trimmed; now rewrite E|].
  assert (Hc : In c (map snd (persist_log w))) by (apply H4; now left).
  assert (Hrest : incl rest (map snd (persist_log w))).
  { intros x Hx. apply H4. now right. }
  inversion H1; subst.
  unfold saves_trimmed. destruct ok; destruct w; cbn in *; auto.
Qed.

Lemma saves_trimmed_reachable (es : list event) : saves_trimmed (run es init).
Proof.
  apply P_run;
    first [ apply saves_trimmed_debouncedSave
          | apply saves_trimmed_settle
          | unfold saves_trimmed; frame; fail
          | idtac ].
  unfold saves_trimmed. cbn. repeat split; auto. intros x [].
Qed.

(** The marker moves only when an awaited call is fulfilled. *)
Lemma marker_kept_by_step (w : World) (e : event) :
  e <> Settle true -> lastSavedContentRef (step w e) = lastSavedContentRef w.
Proof.
  intros He.
  set (Q := fun x : World => lastSavedContentRef x = lastSavedContentRef w).
  assert (Hsave : forall x q, Q x -> Q (debouncedSave q x)).
  { intros x q Hx. unfold Q.
    destruct (debouncedSave_cases x q) as [->|(_ & _ & ->)]; exact Hx. }
  destruct e as [p|p|[|]|t]; cbn [step].
  - apply (P_effect Q); try reflexivity; unfold Q; frame.
  - apply (P_saveNow Q); try reflexivity; try exact Hsave; unfold Q; frame.
  - congruence.
  - unfold settle. destruct (in_flight w); frame.
  - apply (P_advance Q); try reflexivity; try exact Hsave; unfold Q; frame.
Qed.

Lemma marker_kept_by_run (es : list event) :
  Forall (fun e => e <> Settle true) es ->
  forall w, lastSavedContentRef (run es w) = lastSavedContentRef w.
Proof.
  unfold run. induction 1 as [|e es He _ IH]; intros w; cbn [fold_left];
    [reflexivity|].
  now rewrite IH, marker_kept_by_step.
Qed.

(** A save request whose trimmed content is the marker calls nothing. *)
Lemma unchanged_skips (w : World) (p : Props) :
  trim (content p) = lastSavedContentRef w ->
  persist_log (saveNow p w) = persist_log w
  /\ (forall t, callback t = p -> persist_log (fire t w) = persist_log w).
Proof.
  intros H. split.
  - unfold saveNow. rewrite unchanged_blocks.
    + unfold clear_current. destruct (timeoutRef w); frame.
    + rewrite H. unfold clear_current. destruct (timeoutRef w); frame.
  - intros t <-. unfold fire. rewrite unchanged_blocks; [frame|].
    rewrite H. frame.
Qed.

End Marker.

(** C8, as stated, fails: "X" is saved, then "Y" is saved, and the next
    save attempt with content "X" calls [onSave] again, because the marker
    holds the content of the last fulfilled call only. *)
Lemma saved_content_persisted_again :
  ~ (forall (es1 es2 : list AutoSave.event) (x : str) (rest : list str)
            (p : AutoSave.Props),
       AutoSave.in_flight (AutoSave.run es1 AutoSave.init) = x :: rest ->
       let w := AutoSave.run (es1 ++ AutoSave.Settle true :: es2) AutoSave.init in
       trim (AutoSave.content p) = trim x ->
       AutoSave.persist_log (AutoSave.saveNow p w) = AutoSave.persist_log w).
Proof.
  intros H.
  specialize (H [AutoSave.SaveNow (AutoSave.typing (lit "X"))]
                [AutoSave.SaveNow (AutoSave.typing (lit "Y")); AutoSave.Settle true]
                (lit "X") [] (AutoSave.typing (lit "X")) eq_refl eq_refl).
  vm_compute in H. discriminate.
Qed.

(** C8, amended. After a call of [onSave] with content X is fulfilled, and
    until another call is fulfilled, the marker holds X and every save
    attempt, manual or by a timer, whose trimmed content equals trimmed X
    calls [onSave] no further; no step other than a fulfilment changes the
    marker, a rejection included. *)
Theorem unchanged_content_not_persisted_again
    (es1 es2 : list AutoSave.event) (x : str) (rest : list str)
    (Hx : AutoSave.in_flight (AutoSave.run es1 AutoSave.init) = x :: rest)
    (Hes2 : Forall (fun e => e <> AutoSave.Settle true) es2) :
  let w := AutoSave.run (es1 ++ AutoSave.Settle true :: es2) AutoSave.init in
  AutoSave.lastSavedContentRef w = x
  /\ (forall p : AutoSave.Props,
        trim (AutoSave.content p) = trim x ->
        AutoSave.persist_log (AutoSave.saveNow p w) = AutoSave.persist_log w
        /\ (forall t, AutoSave.callback t = p ->
              AutoSave.persist_log (AutoSave.fire t w) = AutoSave.persist_log w))
  /\ (forall (w' : AutoSave.World) (e : AutoSave.event),
        e <> AutoSave.Settle true ->
        AutoSave.lastSavedContentRef (AutoSave.step w' e)
        = AutoSave.lastSavedContentRef w').
Proof.
  intros w.
  assert (Hw : AutoSave.lastSavedContentRef w = x).
  { subst w. rewrite run_app.
    change (AutoSave.run (AutoSave.Settle true :: es2) ?v)
      with (AutoSave.run es2 (AutoSave.settle true v)).
    rewrite (marker_kept_by_run es2 Hes2).
    unfold AutoSave.settle. rewrite Hx. reflexivity. }
  assert (Htrim : trim x = x).
  { destruct (saves_trimmed_reachable es1) as (H1 & _).
    rewrite Hx in H1. now inversion H1. }
  split; [exact Hw|]. split; [|exact marker_kept_by_step].
  intros p Hp. apply unchanged_skips. congruence.
Qed.

(** "X" is saved; the content becomes "Y", whose save is rejected, and
    comes back to " X ": the marker is still "X" and nothing is called. *)
Lemma unchanged_content_not_persisted_again_witness :
  let w := AutoSave.run [AutoSave.SaveNow (AutoSave.typing (lit "X"));
                         AutoSave.Settle true;
                         AutoSave.SaveNow (AutoSave.typing (lit "Y"));
                         AutoSave.Settle false]
             AutoSave.init in
  AutoSave.lastSavedContentRef w = lit "X"
  /\ AutoSave.persist_log (AutoSave.saveNow (AutoSave.typing (lit " X ")) w)
     = [(0, lit "X"); (0, lit "Y")].
Proof.
  intros w.
  destruct (unchanged_content_not_persisted_again
              [AutoSave.SaveNow (AutoSave.typing (lit "X"))]
              [AutoSave.SaveNow (AutoSave.typing (lit "Y")); AutoSave.Settle false]
              (lit "X") [] eq_refl
              ltac:(repeat constructor; discriminate))
    as (Hm & Hskip & _).
  split; [exact Hm|].
  destruct (Hskip (AutoSave.typing (lit " X ")) eq_refl) as [H _].
  cbn [app] in H. fold w in H. rewrite H. reflexivity.
Defined.

(** C10, as stated, fails in its last part: "X" is saved, then "Y" is
    saved, and the content " X ", which differs from the saved "X" by
    surrounding white space only, is persisted again, as "X": the marker
    holds the content of the last fulfilled call, not every saved one. *)
Lemma whitespace_variant_persisted_again :
  ~ (forall (es1 es2 : list AutoSave.event) (x : str) (rest : list str)
            (p : AutoSave.Props),
       AutoSave.in_flight (AutoSave.run es1 AutoSave.init) = x :: rest ->
       let w := AutoSave.run (es1 ++ AutoSave.Settle true :: es2) AutoSave.init in
       AutoSave.content p <> x -> trim (AutoSave.content p) = x ->
       AutoSave.persist_log (AutoSave.saveNow p w) = AutoSave.persist_log w
       /\ (forall t, AutoSave.callback t = p ->
             AutoSave.persist_log (AutoSave.fire t w) = AutoSave.persist_log w)).
Proof.
  intros H.
  destruct (H [AutoSave.SaveNow (AutoSave.typing (lit "X"))]
              [AutoSave.SaveNow (AutoSave.typing (lit "Y")); AutoSave.Settle true]
              (lit "X") [] (AutoSave.typing (lit " X ")) eq_refl
              ltac:(discriminate) eq_refl) as [Hnow _].
  vm_compute in Hnow. discriminate.
Qed.

(** C10, amended. Whenever the coordinator calls [onSave], the argument is
    the trimmed content of the render, and it is what the marker takes when
    the call is fulfilled: along every execution each argument passed and
    the marker are trimmed strings, and a content that differs from the
    marker by surrounding white space only is not persisted; the marker is
    the content of the last fulfilled call, as no other step writes it. *)
Theorem persist_receives_trimmed_content
    (es : list AutoSave.event) (p : AutoSave.Props) :
  let w := AutoSave.run es AutoSave.init in
  (AutoSave.debouncedSave p w = w
   \/ (AutoSave.persist_log (AutoSave.debouncedSave p w)
       = AutoSave.persist_log w ++ [(AutoSave.now w, trim (AutoSave.content p))]
       /\ AutoSave.in_flight (AutoSave.debouncedSave p w)
          = AutoSave.in_flight w ++ [trim (AutoSave.content p)]))
  /\ Forall (fun call => trim (snd call) = snd call) (AutoSave.persist_log w)
  /\ (forall c rest, AutoSave.in_flight w = c :: rest ->
        AutoSave.lastSavedContentRef (AutoSave.settle true w) = c /\ trim c = c)
  /\ trim (AutoSave.lastSavedContentRef w) = AutoSave.lastSavedContentRef w
  /\ (trim (AutoSave.content p) = AutoSave.lastSavedContentRef w ->
      AutoSave.persist_log (AutoSave.saveNow p w) = AutoSave.persist_log w
      /\ (forall t, AutoSave.callback t = p ->
            AutoSave.persist_log (AutoSave.fire t w) = AutoSave.persist_log w))
  /\ (forall (w' : AutoSave.World) (e : AutoSave.event),
        e <> AutoSave.Settle true ->
        AutoSave.lastSavedContentRef (AutoSave.step w' e)
        = AutoSave.lastSavedContentRef w').
Proof.
  intros w.
  destruct (saves_trimmed_reachable es) as (H1 & H2 & H3 & H4). fold w in H1, H2, H3, H4.
  split.
  { destruct (debouncedSave_cases w p) as [H|(Ha & Hb & _)]; [now left | right; auto]. }
  split; [exact H2|]. split.
  { intros c rest Hf. split.
    - unfold AutoSave.settle. rewrite Hf. reflexivity.
    - rewrite Hf in H1. now inversion H1. }
  split.
  { destruct H3 as [->|H3]; [reflexivity|].
    apply in_map_iff in H3 as (call & <- & Hcall).
    rewrite Forall_forall in H2. now apply H2. }
  split; [apply unchanged_skips | exact marker_kept_by_step].
Qed.

(** " note " is typed and saved as "note"; typing "note  " afterwards
    persists nothing. *)
Lemma persist_receives_trimmed_content_witness :
  let w := AutoSave.run [AutoSave.Change (AutoSave.typing (lit " note "));
                         AutoSave.Advance 2000;
                         AutoSave.Settle true]
             AutoSave.init in
  AutoSave.persist_log w = [(2000, lit "note")]
  /\ AutoSave.lastSavedContentRef w = lit "note"
  /\ AutoSave.persist_log (AutoSave.saveNow (AutoSave.typing (lit "note  ")) w)
     = [(2000, lit "note")].
Proof.
  intros w.
  destruct (persist_receives_trimmed_content
              [AutoSave.Change (AutoSave.typing (lit " note "));
               AutoSave.Advance 2000;
               AutoSave.Settle true]
              (AutoSave.typing (lit "note  ")))
    as (_ & _ & _ & _ & Hskip & _).
  split; [reflexivity|]. split; [reflexivity|].
  destruct (Hskip eq_refl) as [H _]. fold w in H. rewrite H. reflexivity.
Defined.

(** C9, as stated, fails: when the content as of t=900 is blank, the
    change clears the pending timer and arms none, so nothing is ever
    persisted. *)
Lemma blank_content_cancels_save :
  ~ (forall (c0 c1 c2 : str) (until : Z),
       c0 <> c1 -> c1 <> c2 -> 2900 <= until ->
       AutoSave.persist_log
         (AutoSave.run
            (AutoSave.changes [(0, AutoSave.typing c0); (500, AutoSave.typing c1);
                               (900, AutoSave.typing c2)] until)
            AutoSave.init)
       = [(2900, c2)]).
Proof.
  intros H.
  specialize (H (lit "a") (lit "ab") (lit " ") 5000
                ltac:(discriminate) ltac:(discriminate) ltac:(lia)).
  vm_compute in H. discriminate.
Qed.

(** *** The debounce timer *)

Section Debounce.

Import AutoSave.

Lemma timeout_nonneg (d : Z) : 0 <= timeout d.
Proof. unfold timeout. lia. Qed.

(** A delay that fits 32 bits is taken as it is, a negative one as 0. *)
Lemma timeout_int32 (d : Z) :
  -2147483648 <= d <= 2147483647 -> timeout d = Z.max 0 d.
Proof.
  intros H. unfold timeout, to_int32. f_equal.
  destruct (Z_lt_le_dec d 0) as [Hn|Hp].
  - assert (E : d mod 4294967296 = d + 4294967296).
    { symmetry. apply Z.mod_unique with (-1); lia. }
    rewrite E. cbn zeta.
    replace (2147483648 <=? d + 4294967296) with true by (symmetry; apply Z.leb_le; lia).
    lia.
  - rewrite Z.mod_small by lia. cbn zeta.
    replace (2147483648 <=? d) with false by (symmetry; apply Z.leb_gt; lia).
    reflexivity.
Qed.

Lemma effect_blank (p : Props) (w : World) :
  truthy (trim (content p)) = false ->
  effect p w = set_cleanup false (if cleanup w then clear_current w else w).
Proof. intros H. unfold effect. rewrite H. now rewrite orb_true_r. Qed.

Lemma effect_typed (p : Props) (w : World) :
  enabled p = true -> truthy (trim (content p)) = true ->
  effect p w
  = set_cleanup true
      (setTimeout p (delay p) (clear_current (if cleanup w then clear_current w else w))).
Proof. intros He H. unfold effect. now rewrite He, H. Qed.

(** After the three changes one timer is armed, for the last content. *)
Lemma three_changes_one_timer (c0 c1 c2 : str) :
  truthy (trim c2) = true ->
  exists id next,
    run [Advance 0; Change (typing c0); Advance 500; Change (typing c1);
         Advance 900; Change (typing c2)] init
    = mkWorld (Some id) [] false true 900 next [mkTimer id 2900 (typing c2)] [] [].
Proof.
  intros H2. unfold run. cbn [fold_left step].
  rewrite (effect_typed (typing c2)) by (try reflexivity; exact H2).
  destruct (truthy (trim c0)) eqn:E0; destruct (truthy (trim c1)) eqn:E1;
    first [ rewrite (effect_typed (typing c0)) by (try reflexivity; exact E0)
          | rewrite (effect_blank (typing c0)) by exact E0 ];
    first [ rewrite (effect_typed (typing c1)) by (try reflexivity; exact E1)
          | rewrite (effect_blank (typing c1)) by exact E1 ];
    do 2 eexists; reflexivity.
Qed.

Lemma single_timer_fires (id next : nat) (c : str) (until : Z) :
  trim c <> [] ->
  let w := mkWorld (Some id) [] false true 900 next [mkTimer id 2900 (typing c)] [] [] in
  (2900 <= until -> persist_log (advance until w) = [(2900, trim c)])
  /\ (until < 2900 -> persist_log (advance until w) = []).
Proof.
  intros Hc w.
  assert (Hne : str_eqb (trim c) [] = false).
  { destruct (str_eqb (trim c) []) eqn:E; [apply str_eqb_eq in E; contradiction|reflexivity]. }
  unfold advance, w. cbn [timers List.length run_timers filter due].
  split; intros Hu.
  - replace (2900 <=? until) with true by (symmetry; apply Z.leb_le; lia).
    cbn [earliest]. unfold fire, debouncedSave. cbn -[trim str_eqb]. rewrite Hne. reflexivity.
  - replace (2900 <=? until) with false by (symmetry; apply Z.leb_gt; lia).
    reflexivity.
Qed.

Lemma debouncedSave_timers (w : World) (p : Props) :
  timers (debouncedSave p w) = timers w
  /\ cleanup (debouncedSave p w) = cleanup w
  /\ timeoutRef (debouncedSave p w) = timeoutRef w
  /\ next_id (debouncedSave p w) = next_id w
  /\ now (debouncedSave p w) = now w.
Proof.
  unfold debouncedSave.
  destruct (isSavingRef w || negb (enabled p)); [auto|].
  destruct (str_eqb _ _); [auto|]. destruct w; cbn; auto.
Qed.

Lemma one_slot_cleared (w : World) :
  one_slot w -> timers (if cleanup w then clear_current w else w) = [].
Proof.
  intros [H|(Hc & t & Ht & Hr)].
  - destruct (cleanup w); [|exact H].
    unfold clear_current. destruct (timeoutRef w); [|exact H].
    unfold clearTimeout. destruct w; cbn in *. now rewrite H.
  - rewrite Hc. unfold clear_current. rewrite Hr.
    unfold clearTimeout. destruct w; cbn in *. rewrite Ht. cbn.
    now rewrite Nat.eqb_refl.
Qed.

Lemma clear_current_empty (w : World) : timers w = [] -> clear_current w = w.
Proof.
  intros H. unfold clear_current. destruct (timeoutRef w); [|reflexivity].
  unfold clearTimeout. rewrite H. destruct w; cbn in *. now subst.
Qed.

Lemma one_slot_clear_current (w : World) : one_slot w -> timers (clear_current w) = [].
Proof.
  intros [H|(Hc & t & Ht & Hr)].
  - now rewrite clear_current_empty.
  - unfold clear_current. rewrite Hr.
    unfold clearTimeout. destruct w; cbn in *. rewrite Ht. cbn.
    now rewrite Nat.eqb_refl.
Qed.

Lemma effect_rearms (w : World) (p : Props) :
  one_slot w -> enabled p = true -> truthy (trim (content p)) = true ->
  timers (effect p w) = [mkTimer (next_id w) (now w + timeout (delay p)) p]
  /\ timeoutRef (effect p w) = Some (next_id w)
  /\ cleanup (effect p w) = true.
Proof.
  intros Hw He Hc. rewrite effect_typed by assumption.
  pose proof (one_slot_cleared w Hw) as H0.
  rewrite (clear_current_empty _ H0).
  assert (Hn : next_id (if cleanup w then clear_current w else w) = next_id w
               /\ now (if cleanup w then clear_current w else w) = now w).
  { destruct (cleanup w); [|auto]. unfold clear_current.
    destruct (timeoutRef w); destruct w; cbn; auto. }
  destruct Hn as [Hn1 Hn2].
  destruct (if cleanup w then clear_current w else w); cbn in *. subst. auto.
Qed.

Lemma one_slot_step (w : World) (e : event) : one_slot w -> one_slot (step w e).
Proof.
  intros Hw. destruct e as [p|p|ok|t]; cbn [step].
  - destruct (enabled p) eqn:He; [destruct (truthy (trim (content p))) eqn:Hc|].
    + destruct (effect_rearms w p Hw He Hc) as (H1 & H2 & H3).
      right. split; [exact H3|]. eexists. split; [exact H1|exact H2].
    + left. rewrite effect_blank by exact Hc.
      pose proof (one_slot_cleared w Hw).
      destruct (if cleanup w then clear_current w else w); cbn in *; auto.
    + left. unfold effect. rewrite He. cbn [negb orb].
      pose proof (one_slot_cleared w Hw).
      destruct (if cleanup w then clear_current w else w); cbn in *; auto.
  - left. unfold saveNow.
    destruct (debouncedSave_timers (clear_current w) p) as (-> & _).
    now apply one_slot_clear_current.
  - unfold settle. destruct (in_flight w); [exact Hw|].
    destruct ok; destruct w; exact Hw.
  - unfold advance.
    assert (H : one_slot (run_timers (List.length (timers w)) t w)).
    { destruct Hw as [H|(Hc & tm & Ht & Hr)].
      - rewrite H. exact (or_introl H).
      - rewrite Ht. cbn [List.length run_timers]. rewrite Ht. cbn [filter].
        destruct (due tm <=? t); cbn [earliest].
        + left. unfold fire.
          destruct (debouncedSave_timers
                      (set_now (Z.max (now w) (due tm)) (clearTimeout (timer_id tm) w))
                      (callback tm)) as (-> & _).
          unfold clearTimeout. destruct w; cbn in *. rewrite Ht. cbn.
          now rewrite Nat.eqb_refl.
        + right. eauto. }
    destruct (run_timers _ _ _); exact H.
Qed.

Lemma one_slot_reachable (es : list event) : one_slot (run es init).
Proof.
  assert (H : forall w, one_slot w -> one_slot (run es w)).
  { unfold run. induction es as [|e es IH]; intros w Hw; cbn [fold_left];
      auto using one_slot_step. }
  apply H. now left.
Qed.

End Debounce.

(** C9, amended. With the coordinator enabled and a delay of 2000 ms,
    content changes at t=0, t=500 and t=900, the last one to a content that
    is not blank, cause exactly one call of [onSave], at t=2900, with the
    trimmed content as of t=900, and none before; in every execution a
    change to a content that is not blank leaves one armed timer, the new
    one, due a full delay later, so no earlier timer fires after it.  The
    delay is the one the browser reads: the delay itself, a negative one as
    0, whenever it fits 32 bits. *)
Theorem debounce_collapses_changes
    (c0 c1 c2 : str) (until : Z) (Hc2 : trim c2 <> []) :
  let w := AutoSave.run
             (AutoSave.changes [(0, AutoSave.typing c0); (500, AutoSave.typing c1);
                                (900, AutoSave.typing c2)] until)
             AutoSave.init in
  (2900 <= until -> AutoSave.persist_log w = [(2900, trim c2)])
  /\ (until < 2900 -> AutoSave.persist_log w = [])
  /\ (forall (es : list AutoSave.event) (p : AutoSave.Props),
        AutoSave.enabled p = true -> truthy (trim (AutoSave.content p)) = true ->
        let v := AutoSave.run es AutoSave.init in
        AutoSave.timers (AutoSave.effect p v)
        = [AutoSave.mkTimer (AutoSave.next_id v)
             (AutoSave.now v + AutoSave.timeout (AutoSave.delay p)) p]
        /\ (-2147483648 <= AutoSave.delay p <= 2147483647 ->
            AutoSave.timeout (AutoSave.delay p) = Z.max 0 (AutoSave.delay p))).
Proof.
  intros w.
  assert (H2 : truthy (trim c2) = true) by (destruct (trim c2); [congruence|reflexivity]).
  destruct (three_changes_one_timer c0 c1 c2 H2) as (id & next & Hw5).
  assert (Hw : w = AutoSave.advance until
                     (AutoSave.mkWorld (Some id) [] false true 900 next
                        [AutoSave.mkTimer id 2900 (AutoSave.typing c2)] [] [])).
  { rewrite <- Hw5. reflexivity. }
  rewrite Hw.
  destruct (single_timer_fires id next c2 until Hc2) as [Hfire Hwait].
  split; [exact Hfire|]. split; [exact Hwait|].
  intros es p He Hc v. split; [|apply timeout_int32].
  exact (proj1 (effect_rearms v p (one_slot_reachable es) He Hc)).
Qed.

(** Typing "a", "ab", "abc": one call, at t=2900, with "abc". *)
Lemma debounce_collapses_changes_witness :
  trim (lit "abc") <> []
  /\ AutoSave.persist_log
       (AutoSave.run
          (AutoSave.changes [(0, AutoSave.typing (lit "a"));
                             (500, AutoSave.typing (lit "ab"));
                             (900, AutoSave.typing (lit "abc"))] 5000)
          AutoSave.init)
     = [(2900, lit "abc")].
Proof.
  split; [discriminate|].
  exact (proj1 (debounce_collapses_changes (lit "a") (lit "ab") (lit "abc") 5000
                  ltac:(discriminate)) ltac:(lia)).
Defined.

(** ** The examples of the specification, run on the model *)

Section Examples.

Import Search.

Import Sample.

(** Query "milk": both notes score 3 and keep the order of the store. *)
Example search_milk :
  let s := snd (searchNotes bare_host (Fulfilled [note_a; note_b]) (lit "milk")
                  by_relevance idle) in
  map (fun r => (path r, score r)) (searchResults s)
  = [(lit "/a", 3); (lit "/b", 3)]
  /\ isSearching s = false.
Proof. split; reflexivity. Qed.

(** Query "Shopping": "/a" scores 15 and "/b" is filtered out. *)
Example search_shopping :
  let s := snd (searchNotes bare_host (Fulfilled [note_a; note_b]) (lit "Shopping")
                  by_relevance idle) in
  map (fun r => (path r, score r)) (searchResults s) = [(lit "/a", 15)].
Proof. reflexivity. Qed.

(** A blank query clears the results and the query and reads nothing. *)
Example search_blank (store : settlement (list Note)) (s0 : SearchState) :
  searchNotes bare_host store (lit "  ") by_relevance s0
  = (Return tt, mkState (isSearching s0) [] [] (console s0)).
Proof. reflexivity. Qed.

(** The content-type filter on a task and on a link. *)
Example content_type_examples :
  content_type_ok (Some tasks) (lit "- [ ] buy milk") = true
  /\ content_type_ok (Some text_only) (lit "- [ ] buy milk") = false
  /\ content_type_ok (Some links) (lit "see https://example.com") = true
  /\ content_type_ok (Some text_only) (lit "see https://example.com") = false.
Proof. repeat split; reflexivity. Qed.

(** Two hundred matching notes: fifty results. *)
Example search_cap :
  let s := snd (searchNotes bare_host (Fulfilled (repeat note_b 200)) (lit "milk")
                  by_relevance idle) in
  List.length (searchResults s) = 50%nat.
Proof. vm_compute. reflexivity. Qed.

(** Matches of global patterns of the modelled fragment. *)
Example match_count_examples (h : Host) :
  match_count h (lit "b*") (lit "ab") = Return 3
  /\ match_count h (lit "a*?") (lit "aa") = Return 3
  /\ match_count h (lit "(a|ab)(c|bcd)(d*)") (lit "abcd") = Return 1
  /\ match_count h (lit "\bmilk\b") (lit "milk, milkshake; milk") = Return 2
  /\ match_count h (lit "a+") (lit "aa b aaa") = Return 2
  /\ match_count h (lit "a**") (lit "aa") = Throw SyntaxError
  /\ match_count h (lit "a)") (lit "aa") = Throw SyntaxError.
Proof. repeat split; reflexivity. Qed.

End Examples.

(** * Further properties *)

(** ** The sort and the cap of the orchestrator *)

Section SortFacts.

Import Search.

Context {A : Type} (cmp : A -> A -> Z).

Lemma insert_by_perm (x : A) (l : list A) : Permutation (insert_by cmp x l) (x :: l).
Proof.
  induction l as [|y l IH]; cbn [insert_by]; [reflexivity|].
  destruct (0 <? cmp x y); [|reflexivity].
  rewrite IH. apply perm_swap.
Qed.

Lemma sort_by_perm (l : list A) : Permutation (sort_by cmp l) l.
Proof.
  unfold sort_by. induction l as [|x l IH]; cbn [fold_right]; [reflexivity|].
  rewrite insert_by_perm. now constructor.
Qed.

(** An element passes only the elements the comparator puts strictly
    before it: a class of elements none of which is put before another
    keeps its order. *)
Lemma insert_by_stable (keep_ : A -> bool) (x : A) (l : list A) :
  (forall a b, keep_ a = true -> keep_ b = true -> cmp a b <= 0) ->
  filter keep_ (insert_by cmp x l) = filter keep_ (x :: l).
Proof.
  intros H. induction l as [|y l IH]; cbn [insert_by]; [reflexivity|].
  destruct (0 <? cmp x y) eqn:E; [|reflexivity].
  apply Z.ltb_lt in E. cbn [filter] in *. rewrite IH.
  destruct (keep_ x) eqn:Ex, (keep_ y) eqn:Ey; try reflexivity.
  specialize (H x y Ex Ey). lia.
Qed.

Lemma sort_by_stable (keep_ : A -> bool) (l : list A) :
  (forall a b, keep_ a = true -> keep_ b = true -> cmp a b <= 0) ->
  filter keep_ (sort_by cmp l) = filter keep_ l.
Proof.
  intros H. unfold sort_by. induction l as [|x l IH]; cbn [fold_right]; [reflexivity|].
  rewrite (insert_by_stable keep_ x _ H). cbn [filter]. now rewrite IH.
Qed.

Variable le : A -> A -> Prop.

Hypothesis le_trans : forall a b c, le a b -> le b c -> le a c.
Hypothesis cmp_after : forall a b, 0 < cmp a b -> le b a.
Hypothesis cmp_before : forall a b, cmp a b <= 0 -> le a b.

Lemma insert_by_sorted (x : A) (l : list A) :
  StronglySorted le l -> StronglySorted le (insert_by cmp x l).
Proof.
  induction 1 as [|y l Hl IH Hy]; cbn [insert_by].
  - repeat constructor.
  - destruct (0 <? cmp x y) eqn:E.
    + apply Z.ltb_lt in E. constructor; [exact IH|].
      apply (Permutation_Forall (Permutation_sym (insert_by_perm x l))).
      constructor; [now apply cmp_after | exact Hy].
    + apply Z.ltb_ge in E. apply cmp_before in E.
      constructor; [now constructor|].
      constructor; [exact E|].
      eapply Forall_impl; [|exact Hy]. intros z Hz. now apply (le_trans x y z).
Qed.

Lemma sort_by_sorted (l : list A) : StronglySorted le (sort_by cmp l).
Proof.
  unfold sort_by. induction l as [|x l IH]; cbn [fold_right]; [constructor|].
  now apply insert_by_sorted.
Qed.

End SortFacts.

Lemma in_firstn {A} (n : nat) (l : list A) (x : A) : In x (firstn n l) -> In x l.
Proof.
  revert n. induction l as [|y l IH]; intros [|n] H; cbn [firstn] in H;
    try contradiction.
  destruct H as [->|H]; [now left | right; eauto].
Qed.

Lemma StronglySorted_firstn {A} (le : A -> A -> Prop) (n : nat) (l : list A) :
  StronglySorted le l -> StronglySorted le (firstn n l).
Proof.
  intros H. revert n. induction H as [|x l Hl IH Hx]; intros [|n]; cbn [firstn];
    try constructor.
  - apply IH.
  - apply Forall_forall. intros y Hy. rewrite Forall_forall in Hx.
    apply Hx. eapply in_firstn; eauto.
Qed.

Section Orchestrator.

Import Search.

Lemma map_completion_return {A B} (f : A -> completion B) (l : list A) (out : list B) :
  map_completion f l = Return out ->
  Forall2 (fun a b => f a = Return b) l out.
Proof.
  revert out. induction l as [|a l IH]; cbn [map_completion]; intros out H.
  - injection H as <-. constructor.
  - destruct (f a) as [b| |] eqn:Ea; cbn [cbind] in H; try discriminate.
    destruct (map_completion f l) as [bs| |]; cbn [cbind] in H; try discriminate.
    injection H as <-. constructor; [exact Ea | now apply IH].
Qed.

Lemma map_completion_all {A B} (f : A -> completion B) (g : A -> B) (l : list A) :
  (forall a, In a l -> f a = Return (g a)) ->
  map_completion f l = Return (map g l).
Proof.
  induction l as [|a l IH]; intros H; cbn [map_completion map]; [reflexivity|].
  rewrite (H a (or_introl eq_refl)). cbn [cbind].
  rewrite IH by (intros; apply H; now right). reflexivity.
Qed.

Lemma Forall2_in_r {A B} (R : A -> B -> Prop) (l : list A) (out : list B) (b : B) :
  Forall2 R l out -> In b out -> exists a, In a l /\ R a b.
Proof.
  induction 1 as [|a b' l out Hab _ IH]; intros Hb; [contradiction|].
  destruct Hb as [->|Hb].
  - exists a. split; [now left | exact Hab].
  - destruct (IH Hb) as (a' & Ha' & HR). exists a'. split; [now right | exact HR].
Qed.

(** What [build_results] returns is the head of the sorted list of the
    results of the kept notes. *)
Lemma build_results_return (h : Host) (query : str) (filters : SearchFilters)
    (notes : list Note) (rs : list SearchResult) :
  build_results h query filters notes = Return rs ->
  exists mapped,
    Forall2 (fun n r => to_result h query n = Return r)
      (filter (keep query filters) notes) mapped
    /\ rs = firstn 50 (sort_by (compare_results h filters) mapped).
Proof.
  unfold build_results, slice0. intros H.
  destruct (map_completion _ _) as [mapped| |] eqn:E; cbn [cbind] in H; try discriminate.
  injection H as <-. exists mapped. split; [|reflexivity].
  now apply map_completion_return.
Qed.

End Orchestrator.

Section Published.

Import Search.

(** What [searchNotes] publishes is nothing, or what [build_results]
    returned for the rows the store read gave. *)
Lemma searchNotes_published (h : Host) (store : settlement (list Note)) (query : str)
    (filters : SearchFilters) (s0 : SearchState) :
  let s1 := snd (searchNotes h store query filters s0) in
  searchResults s1 = []
  \/ (truthy (trim query) = true
      /\ exists notes, store = Fulfilled notes
         /\ build_results h query filters notes = Return (searchResults s1)
         /\ console s1 = console s0).
Proof.
  unfold searchNotes. destruct (truthy (trim query)) eqn:Hq; cbn [negb].
  - destruct store as [notes|e]; [|now left].
    unfold bind, try_catch_finally, await, ret, lift, setIsSearching, setSearchQuery,
      setSearchResults, console_error.
    cbn [isSearching searchResults searchQuery console].
    destruct (build_results h query filters notes) as [rs|e|] eqn:E; cbn.
    + right. split; [reflexivity|]. exists notes. auto.
    + now left.
    + left. pose proof (build_results_ends h query filters notes
                         (truthy_trim_nonempty query Hq)). congruence.
  - now left.
Qed.

End Published.

(** X1. Whatever the store read gives and whether the processing throws or
    not, [searchNotes] publishes at most 50 results and no more than the
    rows read; under [relevance], or without a sort key, they are in
    non-increasing order of score, under [date] in non-increasing order of
    [updatedAt]. *)
Theorem searchResults_capped_and_ranked
    (h : Host) (store : Search.settlement (list Search.Note)) (query : str)
    (filters : Search.SearchFilters) (s0 : Search.SearchState) :
  let rs := Search.searchResults (snd (Search.searchNotes h store query filters s0)) in
  (List.length rs <= 50)%nat
  /\ (forall notes, store = Search.Fulfilled notes ->
        (List.length rs <= List.length notes)%nat)
  /\ (Search.sortBy filters = None \/ Search.sortBy filters = Some Search.relevance ->
      StronglySorted (fun a b => Search.score b <= Search.score a) rs)
  /\ (Search.sortBy filters = Some Search.date ->
      StronglySorted (fun a b => Search.updatedAt b <= Search.updatedAt a) rs).
Proof.
  intros rs.
  destruct (searchNotes_published h store query filters s0) as [H|(_ & notes & Hs & Hb & _)];
    fold rs in H || fold rs in Hb.
  - rewrite H. cbn. repeat split; intros; try lia; constructor.
  - destruct (build_results_return _ _ _ _ _ Hb) as (mapped & Hmap & Hrs).
    assert (Hlen : (List.length mapped <= List.length notes)%nat).
    { rewrite <- (Forall2_length Hmap). apply filter_length_le. }
    split; [rewrite Hrs, length_firstn; lia|].
    split.
    { intros notes' Hs'. rewrite Hs in Hs'. injection Hs' as <-.
      rewrite Hrs, length_firstn.
      rewrite (Permutation_length (sort_by_perm _ mapped)). lia. }
    split.
    + intros Hsort. rewrite Hrs. apply StronglySorted_firstn.
      destruct Hsort as [E|E];
        apply sort_by_sorted; unfold Search.compare_results; try rewrite E;
        intros; lia.
    + intros Hsort. rewrite Hrs. apply StronglySorted_firstn.
      apply sort_by_sorted; unfold Search.compare_results; try rewrite Hsort;
        intros; lia.
Qed.

Section Provenance.

Import Search.

Lemma findMatches_matches_of (text query : str) (ty : MatchType) :
  query <> [] -> findMatches text query ty = Return (Shown.matches_of text query ty).
Proof.
  intros Hq. rewrite (findMatches_returns text query ty Hq). f_equal.
  apply map_ext_in. intros i Hi.
  apply occurrences_in_range in Hi. rewrite toLowerCase_length in Hi.
  unfold Ref.pushed, len. now rewrite substring_window.
Qed.

Lemma to_result_fields (h : Host) (query : str) (n : Note) (r : SearchResult) :
  query <> [] ->
  to_result h query n = Return r ->
  path r = n_path n
  /\ name r = or_empty (n_name n)
  /\ r_content r = or_empty (n_content n)
  /\ createdAt r = or_date (n_createdAt n) (host_now h)
  /\ updatedAt r = or_date (n_updatedAt n) (host_now h)
  /\ matches r = Shown.matches_of (name r) query title
                 ++ firstn 3 (Shown.matches_of (r_content r) query content)
  /\ scoreMatch h (r_content r) (name r) query = Return (score r).
Proof.
  intros Hq. unfold to_result.
  rewrite !(findMatches_matches_of _ _ _ Hq). cbn [cbind].
  destruct (scoreMatch h _ _ query) as [s| |] eqn:E; cbn [cbind]; try discriminate.
  intros [= <-]. cbn. repeat split; auto.
Qed.

Lemma keep_true (query : str) (filters : SearchFilters) (n : Note) :
  keep query filters n = true ->
  (or_empty (n_content n) <> [] \/ or_empty (n_name n) <> [])
  /\ includes (toLowerCase (or_empty (n_name n) ++ lit " " ++ or_empty (n_content n)))
       (toLowerCase query) = true
  /\ date_ok (dateRange filters) n = true
  /\ content_type_ok (contentType filters) (or_empty (n_content n)) = true.
Proof.
  unfold keep, falsy.
  destruct (or_empty (n_content n)) as [|c cs] eqn:Ec;
    destruct (or_empty (n_name n)) as [|t ts] eqn:Et; cbn [truthy negb andb];
    try discriminate;
    destruct (includes _ _); cbn [negb]; try discriminate;
    destruct (date_ok _ _); cbn [negb]; try discriminate;
    destruct (content_type_ok _ _); cbn [negb]; try discriminate;
    intros _; repeat split; auto; (left; discriminate) || (right; discriminate).
Qed.

End Provenance.

(** X3. Every published result is built from a row of the store read
    that passes the filter chain: it has the path of the row, a name or a
    content that is not empty, the query inside its name, a space and its
    content once lowercased, a content of the requested type, and a date
    within the requested range when the row has an [updatedAt]. *)
Theorem searchResults_come_from_kept_notes
    (h : Host) (store : Search.settlement (list Search.Note)) (query : str)
    (filters : Search.SearchFilters) (s0 : Search.SearchState) (r : Search.SearchResult) :
  In r (Search.searchResults (snd (Search.searchNotes h store query filters s0))) ->
  exists notes n,
    store = Search.Fulfilled notes /\ In n notes
    /\ Search.keep query filters n = true
    /\ Search.to_result h query n = Return r
    /\ Search.path r = Search.n_path n
    /\ (Search.name r <> [] \/ Search.r_content r <> [])
    /\ includes (toLowerCase (Search.name r ++ lit " " ++ Search.r_content r))
         (toLowerCase query) = true
    /\ Search.content_type_ok (Search.contentType filters) (Search.r_content r) = true
    /\ (forall start end_ d,
          Search.dateRange filters = Some (start, end_) ->
          Search.n_updatedAt n = Some d ->
          Search.updatedAt r = d /\ start <= d <= end_).
Proof.
  intros Hr.
  destruct (searchNotes_published h store query filters s0)
    as [H|(Hq & notes & Hs & Hb & _)]; [rewrite H in Hr; contradiction|].
  apply truthy_trim_nonempty in Hq.
  destruct (build_results_return _ _ _ _ _ Hb) as (mapped & Hmap & Hrs).
  rewrite Hrs in Hr. apply in_firstn in Hr.
  apply (Permutation_in _ (sort_by_perm _ mapped)) in Hr.
  destruct (Forall2_in_r _ _ _ _ Hmap Hr) as (n & Hn & Hres).
  apply filter_In in Hn as [Hn Hkeep].
  destruct (to_result_fields h query n r Hq Hres) as (Hp & Hname & Hc & _ & Hu & _).
  destruct (keep_true query filters n Hkeep) as (Hne & Hinc & Hdate & Hct).
  exists notes, n. rewrite Hname, Hc.
  repeat match goal with |- _ /\ _ => split end; auto.
  - tauto.
  - intros start end_ d Hrange Hd. rewrite Hu, Hd. cbn [Search.or_date].
    split; [reflexivity|].
    unfold Search.date_ok in Hdate. rewrite Hrange, Hd in Hdate.
    apply negb_true_iff, orb_false_iff in Hdate as [H1 H2].
    apply Z.ltb_ge in H1. apply Z.gtb_ltb, Z.ltb_ge in H2 || (rewrite Z.gtb_ltb in H2; apply Z.ltb_ge in H2).
    lia.
Qed.

Lemma searchResults_come_from_kept_notes_witness :
  In Sample.result_a
    (Search.searchResults
       (snd (Search.searchNotes bare_host
               (Search.Fulfilled [Sample.note_a; Sample.note_b]) (lit "milk")
               Sample.by_relevance Sample.idle)))
  /\ exists notes n,
       In n notes /\ Search.keep (lit "milk") Sample.by_relevance n = true
       /\ Search.path Sample.result_a = Search.n_path n.
Proof.
  assert (H : In Sample.result_a
                (Search.searchResults
                   (snd (Search.searchNotes bare_host
                           (Search.Fulfilled [Sample.note_a; Sample.note_b]) (lit "milk")
                           Sample.by_relevance Sample.idle)))).
  { left. reflexivity. }
  split; [exact H|].
  destruct (searchResults_come_from_kept_notes _ _ _ _ _ _ H)
    as (notes & n & _ & Hn & Hk & _ & Hp & _).
  exists notes, n. auto.
Defined.


(** X4. The matches of a published result are all the matches of the
    query in its name followed by the first three in its content, and its
    score is what [scoreMatch] returns on its content and name, which is
    not negative. *)
Theorem searchResults_matches_and_score
    (h : Host) (store : Search.settlement (list Search.Note)) (query : str)
    (filters : Search.SearchFilters) (s0 : Search.SearchState) (r : Search.SearchResult) :
  In r (Search.searchResults (snd (Search.searchNotes h store query filters s0))) ->
  Search.matches r
  = Shown.matches_of (Search.name r) query Search.title
    ++ firstn 3 (Shown.matches_of (Search.r_content r) query Search.content)
  /\ (List.length (Search.matches r)
      <= List.length (Ref.occurrences (toLowerCase query) (toLowerCase (Search.name r))) + 3)%nat
  /\ Search.scoreMatch h (Search.r_content r) (Search.name r) query
     = Return (Search.score r)
  /\ 0 <= Search.score r.
Proof.
  intros Hr.
  destruct (searchNotes_published h store query filters s0)
    as [H|(Hq & notes & Hs & Hb & _)]; [rewrite H in Hr; contradiction|].
  apply truthy_trim_nonempty in Hq.
  destruct (build_results_return _ _ _ _ _ Hb) as (mapped & Hmap & Hrs).
  rewrite Hrs in Hr. apply in_firstn in Hr.
  apply (Permutation_in _ (sort_by_perm _ mapped)) in Hr.
  destruct (Forall2_in_r _ _ _ _ Hmap Hr) as (n & _ & Hres).
  destruct (to_result_fields h query n r Hq Hres) as (_ & _ & _ & _ & _ & Hm & Hsc).
  split; [exact Hm|]. split; [|split; [exact Hsc|]].
  - rewrite Hm, length_app, length_firstn. unfold Shown.matches_of at 1.
    rewrite length_map. lia.
  - rewrite scoreMatch_parts in Hsc.
    destruct (Ref.content_points h _ query) as [c| |] eqn:E; try discriminate.
    cbn [cbind] in Hsc. injection Hsc as <-.
    pose proof (content_points_nonneg _ _ _ _ E).
    pose proof (title_points_nonneg (Search.name r) query). lia.
Qed.

Lemma searchResults_matches_and_score_witness :
  In Sample.result_a
    (Search.searchResults
       (snd (Search.searchNotes bare_host
               (Search.Fulfilled [Sample.note_a; Sample.note_b]) (lit "milk")
               Sample.by_relevance Sample.idle)))
  /\ Search.scoreMatch bare_host (lit "milk eggs bread") (lit "Shopping List") (lit "milk")
     = Return 3.
Proof.
  assert (H : In Sample.result_a
                (Search.searchResults
                   (snd (Search.searchNotes bare_host
                           (Search.Fulfilled [Sample.note_a; Sample.note_b]) (lit "milk")
                           Sample.by_relevance Sample.idle)))).
  { left. reflexivity. }
  split; [exact H|].
  exact (proj1 (proj2 (proj2 (searchResults_matches_and_score _ _ _ _ _ _ H)))).
Defined.


Section Stability.

Import Search.

Lemma filter_firstn_prefix {A} (f : A -> bool) (n : nat) (l : list A) :
  exists rest, filter f l = filter f (firstn n l) ++ rest.
Proof.
  exists (filter f (skipn n l)).
  rewrite <- filter_app. now rewrite firstn_skipn.
Qed.

Lemma map_completion_of_results {A B} (f : A -> completion B) (l : list A) (out : list B) :
  Forall2 (fun a b => f a = Return b) l out -> map_completion f l = Return out.
Proof.
  induction 1 as [|a b l out Hab _ IH]; cbn [map_completion]; [reflexivity|].
  now rewrite Hab, IH.
Qed.

End Stability.

(** X2. When every kept row gives a result, the published list is the
    first 50 of their stable sort: a permutation before the cut, in which
    the results of one score under [relevance] (of one [updatedAt] under
    [date]) stand in the order of the store read. *)
Theorem equal_ranks_keep_store_order
    (h : Host) (notes : list Search.Note) (query : str)
    (filters : Search.SearchFilters) (s0 : Search.SearchState)
    (mapped : list Search.SearchResult)
    (Hquery : truthy (trim query) = true)
    (Hmapped : Forall2 (fun n r => Search.to_result h query n = Return r)
                 (filter (Search.keep query filters) notes) mapped) :
  let rs := Search.searchResults
              (snd (Search.searchNotes h (Search.Fulfilled notes) query filters s0)) in
  Permutation (Search.sort_by (Search.compare_results h filters) mapped) mapped
  /\ rs = firstn 50 (Search.sort_by (Search.compare_results h filters) mapped)
  /\ (Search.sortBy filters = None \/ Search.sortBy filters = Some Search.relevance ->
      forall k, exists rest,
        filter (fun r => Search.score r =? k) mapped
        = filter (fun r => Search.score r =? k) rs ++ rest)
  /\ (Search.sortBy filters = Some Search.date ->
      forall k, exists rest,
        filter (fun r => Search.updatedAt r =? k) mapped
        = filter (fun r => Search.updatedAt r =? k) rs ++ rest).
Proof.
  intros rs.
  assert (Hrs : rs = firstn 50 (Search.sort_by (Search.compare_results h filters) mapped)).
  { subst rs. unfold Search.searchNotes. rewrite Hquery. cbn [negb].
    unfold Search.bind, Search.try_catch_finally, Search.await, Search.ret, Search.lift,
      Search.setIsSearching, Search.setSearchQuery, Search.setSearchResults.
    cbn [Search.isSearching Search.searchResults Search.searchQuery Search.console].
    unfold Search.build_results.
    rewrite (map_completion_of_results _ _ _ Hmapped). reflexivity. }
  split; [apply sort_by_perm|]. split; [exact Hrs|]. split.
  - intros Hsort k. rewrite Hrs.
    rewrite <- (sort_by_stable (Search.compare_results h filters)
                  (fun r => Search.score r =? k) mapped).
    + apply filter_firstn_prefix.
    + intros a b Ha Hb. apply Z.eqb_eq in Ha, Hb.
      unfold Search.compare_results. destruct Hsort as [-> | ->]; lia.
  - intros Hsort k. rewrite Hrs.
    rewrite <- (sort_by_stable (Search.compare_results h filters)
                  (fun r => Search.updatedAt r =? k) mapped).
    + apply filter_firstn_prefix.
    + intros a b Ha Hb. apply Z.eqb_eq in Ha, Hb.
      unfold Search.compare_results. rewrite Hsort. lia.
Qed.

Lemma equal_ranks_keep_store_order_witness :
  map Search.path
    (Search.searchResults
       (snd (Search.searchNotes bare_host
               (Search.Fulfilled [Sample.note_b; Sample.note_a]) (lit "milk")
               Sample.by_relevance Sample.idle)))
  = [lit "/b"; lit "/a"].
Proof.
  destruct (Search.to_result bare_host (lit "milk") Sample.note_a) as [ra| |] eqn:Ea;
    try discriminate.
  destruct (Search.to_result bare_host (lit "milk") Sample.note_b) as [rb| |] eqn:Eb;
    try discriminate.
  destruct (equal_ranks_keep_store_order bare_host [Sample.note_b; Sample.note_a]
              (lit "milk") Sample.by_relevance Sample.idle [rb; ra] eq_refl)
    as (_ & Hrs & _).
  { repeat constructor; assumption. }
  rewrite Hrs. injection Ea as <-. injection Eb as <-. reflexivity.
Defined.


Section NoMatch.

Import Search.

Lemma offsets_none (hit : nat -> bool) (s : str) :
  (forall i, hit i = false) -> Ref.offsets hit s = [].
Proof.
  intros H. unfold Ref.offsets. induction (seq 0 (S (List.length s))) as [|i l IH];
    cbn [filter]; [reflexivity|]. now rewrite H.
Qed.

Lemma occurrences_none (q s : str) :
  ~ Ref.is_substring q s -> Ref.occurrences q s = [].
Proof.
  intros H. destruct (Ref.occurrences q s) as [|i l] eqn:E; [reflexivity|].
  exfalso. apply H.
  assert (Hi : In i (Ref.occurrences q s)) by (rewrite E; now left).
  apply occurrences_spec in Hi as (_ & a & b & -> & _). now exists a, b.
Qed.

Lemma whole_word_occurrences_none (q s : str) :
  ~ Ref.is_substring q s -> Ref.whole_word_occurrences q s = [].
Proof.
  intros H. apply offsets_none. intros i.
  unfold Ref.whole_word_at.
  destruct (Ref.occurs_at q s i) eqn:E; [|now rewrite andb_false_r].
  exfalso. apply H. unfold Ref.occurs_at in E.
  apply prefixb_true_split in E.
  exists (firstn i s), (skipn (List.length q) (skipn i s)).
  rewrite <- E. symmetry. apply firstn_skipn.
Qed.

Lemma scoreMatch_plain_returns (h : Host) (content_ title_ query : str) :
  query <> [] -> Ref.plain query ->
  exists s, scoreMatch h content_ title_ query = Return s.
Proof.
  intros Hq Hp. rewrite scoreMatch_parts, (content_points_value h _ _ Hq Hp).
  cbn [cbind]. eauto.
Qed.

Lemma to_result_plain_returns (h : Host) (query : str) (n : Note) :
  query <> [] -> Ref.plain query -> exists r, to_result h query n = Return r.
Proof.
  intros Hq Hp. unfold to_result.
  rewrite !(findMatches_returns _ _ _ Hq). cbn [cbind].
  destruct (scoreMatch_plain_returns h (or_empty (n_content n))
              (or_empty (n_name n)) query Hq Hp) as [s ->].
  cbn [cbind]. eauto.
Qed.

Lemma map_completion_total {A B} (f : A -> completion B) (l : list A) :
  (forall a, exists b, f a = Return b) ->
  exists out, map_completion f l = Return out /\ List.length out = List.length l.
Proof.
  intros H. induction l as [|a l (out & IH & Hlen)]; cbn [map_completion].
  - now exists [].
  - destruct (H a) as [b ->]. rewrite IH. cbn [cbind].
    exists (b :: out). cbn. auto.
Qed.

End NoMatch.

(** X5. The filter keeps a row when the query occurs in name, space and
    content taken together, so a row is kept whose name ends with the start
    of the query and whose content starts with its end; for such a row, and
    any row in which a plain query occurs neither in the name nor in the
    content, the result has no match and the score 0. *)
Theorem result_without_match
    (h : Host) (query : str) (n : Search.Note)
    (Hq : query <> []) (Hplain : Ref.plain query)
    (Htitle : ~ Ref.is_substring (toLowerCase query)
                  (toLowerCase (Search.or_empty (Search.n_name n))))
    (Hcontent : ~ Ref.is_substring (toLowerCase query)
                    (toLowerCase (Search.or_empty (Search.n_content n)))) :
  exists r, Search.to_result h query n = Return r
            /\ Search.matches r = [] /\ Search.score r = 0.
Proof.
  destruct (to_result_plain_returns h query n Hq Hplain) as [r Hr].
  exists r. split; [exact Hr|].
  destruct (to_result_fields h query n r Hq Hr) as (_ & Hn & Hc & _ & _ & Hm & Hs).
  rewrite Hn, Hc in Hm, Hs. split.
  - rewrite Hm. unfold Shown.matches_of.
    now rewrite (occurrences_none _ _ Htitle), (occurrences_none _ _ Hcontent).
  - rewrite scoreMatch_parts, (content_points_value h _ _ Hq Hplain) in Hs.
    rewrite (occurrences_none _ _ Hcontent),
      (whole_word_occurrences_none _ _ Hcontent) in Hs.
    destruct (title_points_cases (Search.or_empty (Search.n_name n)) query)
      as (_ & _ & H0).
    rewrite (H0 Htitle) in Hs. cbn in Hs. congruence.
Qed.

Lemma result_without_match_witness :
  let n := Search.mkNote (lit "/n") (Some (lit "Plan")) (Some (lit "B is next")) None None in
  Search.keep (lit "plan b") (Search.mkFilters None None None) n = true
  /\ exists r, Search.to_result bare_host (lit "plan b") n = Return r
               /\ Search.matches r = [] /\ Search.score r = 0.
Proof.
  intros n. split; [reflexivity|].
  apply (result_without_match bare_host (lit "plan b") n).
  - discriminate.
  - intros c Hc. cbn in Hc.
    repeat (destruct Hc as [<-|Hc]; [reflexivity|]). contradiction.
  - rewrite <- includes_iff. vm_compute. discriminate.
  - rewrite <- includes_iff. vm_compute. discriminate.
Defined.

(** X6. With a query that is not blank and has no character of the
    pattern syntax, a fulfilled store read never ends in the error path: the
    console is left as it was, the loading flag is lowered, the query is
    published and the results number the kept rows, up to 50. *)
Theorem plain_query_search_succeeds
    (h : Host) (notes : list Search.Note) (query : str)
    (filters : Search.SearchFilters) (s0 : Search.SearchState)
    (Hquery : truthy (trim query) = true) (Hplain : Ref.plain query) :
  let s1 := snd (Search.searchNotes h (Search.Fulfilled notes) query filters s0) in
  List.length (Search.searchResults s1)
  = Nat.min 50 (List.length (filter (Search.keep query filters) notes))
  /\ Search.console s1 = Search.console s0
  /\ Search.isSearching s1 = false
  /\ Search.searchQuery s1 = query.
Proof.
  intros s1. pose proof (truthy_trim_nonempty query Hquery) as Hq.
  destruct (map_completion_total (Search.to_result h query)
              (filter (Search.keep query filters) notes)
              (fun n => to_result_plain_returns h query n Hq Hplain))
    as (out & Hout & Hlen).
  subst s1. unfold Search.searchNotes. rewrite Hquery. cbn [negb].
  unfold Search.bind, Search.try_catch_finally, Search.await, Search.ret, Search.lift,
    Search.setIsSearching, Search.setSearchQuery, Search.setSearchResults.
  cbn [Search.isSearching Search.searchResults Search.searchQuery Search.console].
  unfold Search.build_results. rewrite Hout.
  cbn [cbind snd Search.isSearching Search.searchResults Search.searchQuery
       Search.console].
  repeat split.
  unfold slice0. rewrite length_firstn.
  now rewrite (Permutation_length (sort_by_perm _ out)), Hlen.
Qed.

Lemma plain_query_search_succeeds_witness :
  truthy (trim (lit "milk")) = true /\ Ref.plain (lit "milk")
  /\ List.length
       (Search.searchResults
          (snd (Search.searchNotes bare_host (Search.Fulfilled (repeat Sample.note_b 200))
                  (lit "milk") Sample.by_relevance Sample.idle)))
     = 50%nat.
Proof.
  split; [reflexivity|]. split; [exact plain_milk|].
  rewrite (proj1 (plain_query_search_succeeds bare_host (repeat Sample.note_b 200)
                    (lit "milk") Sample.by_relevance Sample.idle eq_refl plain_milk)).
  vm_compute. reflexivity.
Defined.


(** X7. How the content types relate: [all] accepts every content; a
    content accepted as [tasks] is accepted as [links] too, since the link
    test accepts any opening bracket; [tasks] and [text] exclude each other,
    and a content accepted as [text] has no "http". *)
Theorem content_type_classes (c : str) :
  let ok ct := Search.content_type_ok (Some ct) c in
  ok Search.all = true
  /\ (ok Search.tasks = true -> ok Search.links = true)
  /\ (ok Search.tasks = true -> ok Search.text_only = false)
  /\ (ok Search.text_only = true ->
      includes c (lit "http") = false /\ ok Search.tasks = false).
Proof.
  intros ok. subst ok. cbn [Search.content_type_ok].
  assert (Hsub : forall marker, Ref.is_substring (lit "[") marker ->
                   includes c marker = true -> includes c (lit "[") = true).
  { intros marker (a & b & ->) H. apply includes_iff in H as (x & y & ->).
    apply includes_iff. exists (x ++ a), (b ++ y). now rewrite <- !app_assoc. }
  pose proof (Hsub (lit "- [ ]") (ex_intro _ (lit "- ") (ex_intro _ (lit " ]") eq_refl))) as H1.
  pose proof (Hsub (lit "- [x]") (ex_intro _ (lit "- ") (ex_intro _ (lit "x]") eq_refl))) as H2.
  destruct (includes c (lit "- [ ]")), (includes c (lit "- [x]")),
    (includes c (lit "http")), (includes c (lit "[")), (includes c (lit "]("));
    cbn; repeat split; intros; try reflexivity; try discriminate;
    try (specialize (H1 eq_refl); discriminate);
    try (specialize (H2 eq_refl); discriminate).
Qed.

(** ** More on the Auto-Save Coordinator *)

Section AutoSaveExtras.

Import AutoSave AutoSaveMore.

Lemma earliest_in (ts : list Timer) (t : Timer) : earliest ts = Some t -> In t ts.
Proof.
  revert t. induction ts as [|t0 ts IH]; intros t H; cbn [earliest] in H; [discriminate|].
  destruct (earliest ts) as [t'|].
  - destruct (due t' <? due t0); injection H as <-; [right; now apply IH | now left].
  - injection H as <-. now left.
Qed.

Lemma truthy_nonempty (s : str) : truthy s = true -> s <> [].
Proof. destruct s; [discriminate | discriminate]. Qed.

Lemma armed_well_clear_current (w : World) : armed_well w -> armed_well (clear_current w).
Proof.
  unfold armed_well, clear_current. intros H.
  destruct (timeoutRef w); [|exact H].
  destruct w; cbn in *. apply Forall_forall. intros t Ht.
  apply filter_In in Ht as [Ht _]. rewrite Forall_forall in H. now apply H.
Qed.

Lemma automatic_step (w : World) (e : event) :
  match e with SaveNow _ => False | _ => True end ->
  armed_well w /\ AutoSaveMore.quiet_log w -> armed_well (step w e) /\ AutoSaveMore.quiet_log (step w e).
Proof.
  intros He [Ha Hl]. destruct e as [p|p|ok|t]; cbn [step]; [|contradiction| |].
  - (* Change *)
    unfold effect.
    assert (H1 : armed_well (if cleanup w then clear_current w else w)
                 /\ AutoSaveMore.quiet_log (if cleanup w then clear_current w else w)).
    { destruct (cleanup w); [|auto]. split; [now apply armed_well_clear_current|].
      unfold clear_current. destruct (timeoutRef w); destruct w; exact Hl. }
    destruct H1 as [H1 H2]. set (w1 := if cleanup w then clear_current w else w) in *.
    destruct (enabled p) eqn:Ee; cbn [negb orb].
    + destruct (truthy (trim (content p))) eqn:Ec; cbn [negb].
      * pose proof (armed_well_clear_current w1 H1) as H3.
        assert (H4 : AutoSaveMore.quiet_log (clear_current w1)).
        { unfold clear_current. destruct (timeoutRef w1); destruct w1; exact H2. }
        destruct (clear_current w1); unfold armed_well, AutoSaveMore.quiet_log in *; cbn in *.
        split; [|exact H4]. apply Forall_app. split; [exact H3|].
        repeat constructor; assumption.
      * destruct w1; auto.
    + destruct w1; auto.
  - (* Settle *)
    unfold settle. destruct (in_flight w); [auto|].
    destruct ok; destruct w; auto.
  - (* Advance *)
    unfold advance.
    assert (H : forall fuel v, armed_well v /\ AutoSaveMore.quiet_log v ->
                armed_well (run_timers fuel t v) /\ AutoSaveMore.quiet_log (run_timers fuel t v)).
    { induction fuel as [|fuel IH]; intros v [Hv1 Hv2]; cbn [run_timers]; [auto|].
      destruct (earliest _) as [tm|] eqn:E; [|auto].
      apply earliest_in, filter_In in E as [E _].
      assert (Htm : enabled (callback tm) = true
                    /\ truthy (trim (content (callback tm))) = true).
      { unfold armed_well in Hv1. rewrite Forall_forall in Hv1. now apply Hv1. }
      apply IH. unfold fire.
      set (v1 := set_now _ (clearTimeout (timer_id tm) v)).
      assert (Hv1' : armed_well v1 /\ AutoSaveMore.quiet_log v1).
      { subst v1. destruct v; unfold armed_well, AutoSaveMore.quiet_log in *; cbn in *.
        split; [|exact Hv2]. apply Forall_forall. intros x Hx.
        apply filter_In in Hx as [Hx _]. rewrite Forall_forall in Hv1. now apply Hv1. }
      destruct Hv1' as [G1 G2].
      destruct (debouncedSave_timers v1 (callback tm)) as (Ht & _).
      split; [unfold armed_well; now rewrite Ht|].
      destruct (debouncedSave_cases v1 (callback tm)) as [->|(Hlog & _)]; [exact G2|].
      unfold AutoSaveMore.quiet_log. rewrite Hlog. apply Forall_app. split; [exact G2|].
      constructor; [|constructor]. cbn [snd]. apply truthy_nonempty, Htm. }
    destruct (H (List.length (timers w)) w (conj Ha Hl)) as [G1 G2].
    destruct (run_timers _ _ _); auto.
Qed.

End AutoSaveExtras.

(** X10. In an execution without a call of [saveNow], every argument
    [onSave] receives is a content that is not empty: a timer is armed only
    for content that is not blank. *)
Theorem automatic_saves_are_not_empty (es : list AutoSave.event) :
  AutoSaveMore.automatic es ->
  Forall (fun call => snd call <> []) (AutoSave.persist_log (AutoSave.run es AutoSave.init)).
Proof.
  intros H.
  assert (G : forall w, AutoSaveMore.armed_well w /\ AutoSaveMore.quiet_log w ->
              AutoSaveMore.quiet_log (AutoSave.run es w)).
  { unfold AutoSave.run. induction H as [|e es He _ IH]; intros w Hw; cbn [fold_left];
      [apply Hw|].
    apply IH. now apply automatic_step. }
  apply G. split; constructor.
Qed.

Lemma automatic_saves_are_not_empty_witness :
  let es := [AutoSave.Change (AutoSave.typing (lit "a")); AutoSave.Advance 2000;
             AutoSave.Settle true; AutoSave.Change (AutoSave.typing (lit " "));
             AutoSave.Advance 9000] in
  AutoSaveMore.automatic es
  /\ AutoSave.persist_log (AutoSave.run es AutoSave.init) = [(2000, lit "a")]
  /\ Forall (fun call => snd call <> [])
       (AutoSave.persist_log (AutoSave.run es AutoSave.init)).
Proof.
  intros es.
  assert (H : AutoSaveMore.automatic es) by (repeat constructor).
  split; [exact H|]. split; [reflexivity|].
  exact (automatic_saves_are_not_empty es H).
Defined.


Section AutoSaveExtras2.

Import AutoSave AutoSaveMore.

Lemma advance_no_timer (w : World) (t : Z) :
  timers w = [] -> advance t w = set_now (Z.max (now w) t) w.
Proof. intros H. unfold advance. rewrite H. reflexivity. Qed.

Lemma disabled_step (w : World) (e : event) :
  match e with Change p | SaveNow p => enabled p = false | _ => True end ->
  timers w = [] /\ persist_log w = [] ->
  timers (step w e) = [] /\ persist_log (step w e) = [].
Proof.
  intros He [Ht Hl]. destruct e as [p|p|ok|t]; cbn [step].
  - unfold effect. rewrite He. cbn [negb orb].
    assert (H : (if cleanup w then clear_current w else w) = w).
    { destruct (cleanup w); [now apply clear_current_empty | reflexivity]. }
    rewrite H. destruct w; auto.
  - unfold saveNow, debouncedSave. rewrite He, orb_true_r.
    now rewrite clear_current_empty.
  - unfold settle. destruct (in_flight w); [auto|]. destruct ok; destruct w; auto.
  - rewrite advance_no_timer by exact Ht. destruct w; auto.
Qed.

Lemma effect_save_state (w : World) (p : Props) :
  AutoSaveMore.save_state (effect p w) = AutoSaveMore.save_state w.
Proof.
  apply (P_effect (fun x => AutoSaveMore.save_state x = AutoSaveMore.save_state w)); try reflexivity;
    intros x; intros; destruct x; assumption.
Qed.

Lemma clear_current_save_state (w : World) :
  AutoSaveMore.save_state (clear_current w) = AutoSaveMore.save_state w.
Proof. unfold clear_current. destruct (timeoutRef w); destruct w; reflexivity. Qed.

(** A lone timer fires when it is due and not before. *)
Lemma advance_one_timer (w : World) (tm : Timer) (t : Z) :
  timers w = [tm] -> now w <= due tm ->
  advance t w
  = if due tm <=? t
    then set_now (Z.max (due tm) t)
           (debouncedSave (callback tm)
              (set_now (due tm) (clearTimeout (timer_id tm) w)))
    else set_now (Z.max (now w) t) w.
Proof.
  intros Ht Hnow. unfold advance. rewrite Ht. cbn [List.length run_timers].
  rewrite Ht. cbn [filter]. destruct (due tm <=? t) eqn:E; cbn [earliest]; [|reflexivity].
  unfold fire. replace (Z.max (now w) (due tm)) with (due tm) by lia.
  f_equal. destruct (debouncedSave_timers
                       (set_now (due tm) (clearTimeout (timer_id tm) w)) (callback tm))
    as (_ & _ & _ & _ & ->).
  destruct w; reflexivity.
Qed.

End AutoSaveExtras2.

(** X11. While every render has the coordinator disabled, no timer is
    armed and [onSave] is never called, by timers or by [saveNow]. *)
Theorem disabled_never_persists (es : list AutoSave.event) :
  AutoSaveMore.all_disabled es ->
  AutoSave.persist_log (AutoSave.run es AutoSave.init) = []
  /\ AutoSave.timers (AutoSave.run es AutoSave.init) = [].
Proof.
  intros H.
  assert (G : forall w, AutoSave.timers w = [] /\ AutoSave.persist_log w = [] ->
              AutoSave.timers (AutoSave.run es w) = []
              /\ AutoSave.persist_log (AutoSave.run es w) = []).
  { unfold AutoSave.run. induction H as [|e es He _ IH]; intros w Hw; cbn [fold_left];
      [exact Hw|].
    apply IH. now apply disabled_step. }
  destruct (G AutoSave.init (conj eq_refl eq_refl)). auto.
Qed.

Lemma disabled_never_persists_witness :
  let off := AutoSave.mkProps (lit "draft") 2000 false in
  let es := [AutoSave.Change off; AutoSave.Advance 5000; AutoSave.SaveNow off] in
  AutoSaveMore.all_disabled es
  /\ AutoSave.persist_log (AutoSave.run es AutoSave.init) = [].
Proof.
  intros off es.
  assert (H : AutoSaveMore.all_disabled es) by (repeat constructor).
  split; [exact H|].
  exact (proj1 (disabled_never_persists es H)).
Defined.


(** X12. From any reachable state with no save awaited, a change to a
    content that is not blank and differs, once trimmed, from the marker is
    persisted exactly one delay later when nothing else happens: before that
    instant [onSave] is not called, from it on it has been called once, with
    the trimmed content.  The delay is the one the browser reads, a 32-bit
    signed integer: for a delay from 0 to 2147483647 the instant is the
    delay after the change, and for a delay from 2147483648 to 4294967295
    it is the instant of the change. *)
Theorem change_persisted_after_delay
    (es : list AutoSave.event) (p : AutoSave.Props) (t : Z) :
  let w := AutoSave.run es AutoSave.init in
  let due_ := AutoSave.now w + AutoSave.timeout (AutoSave.delay p) in
  AutoSave.in_flight w = [] ->
  AutoSave.enabled p = true ->
  trim (AutoSave.content p) <> [] ->
  trim (AutoSave.content p) <> AutoSave.lastSavedContentRef w ->
  let w' := AutoSave.advance t (AutoSave.effect p w) in
  (due_ <= t ->
   AutoSave.persist_log w'
   = AutoSave.persist_log w ++ [(due_, trim (AutoSave.content p))]
   /\ AutoSave.in_flight w' = [trim (AutoSave.content p)]
   /\ AutoSave.timers w' = [])
  /\ (t < due_ -> AutoSave.persist_log w' = AutoSave.persist_log w
                  /\ AutoSave.in_flight w' = [])
  /\ (0 <= AutoSave.delay p <= 2147483647 ->
      due_ = AutoSave.now w + AutoSave.delay p)
  /\ (2147483648 <= AutoSave.delay p <= 4294967295 -> due_ = AutoSave.now w).
Proof.
  intros w due_ Hidle He Hc Hm w'.
  pose proof (timeout_nonneg (AutoSave.delay p)) as Hnn.
  assert (Htruthy : truthy (trim (AutoSave.content p)) = true).
  { destruct (trim (AutoSave.content p)); [congruence | reflexivity]. }
  destruct (effect_rearms w p (one_slot_reachable es) He Htruthy) as (Ht & _ & _).
  pose proof (effect_save_state w p) as Hs. unfold AutoSaveMore.save_state in Hs.
  injection Hs as Hs1 Hs2 Hs3 Hs4 Hs5.
  assert (Hsaving : AutoSave.isSavingRef w = false).
  { destruct (guarded_reachable es) as [[_ [c Hf]]|[Hf _]]; [|exact Hf].
    fold w in Hf. rewrite Hf in Hidle. discriminate. }
  assert (Hin : 0 <= AutoSave.delay p <= 2147483647 ->
                due_ = AutoSave.now w + AutoSave.delay p).
  { intros Hr. unfold due_. rewrite timeout_int32 by lia. lia. }
  assert (Hout : 2147483648 <= AutoSave.delay p <= 4294967295 -> due_ = AutoSave.now w).
  { intros Hr. unfold due_, AutoSave.timeout, AutoSave.to_int32.
    rewrite Z.mod_small by lia. cbn zeta.
    replace (2147483648 <=? AutoSave.delay p) with true by (symmetry; apply Z.leb_le; lia).
    lia. }
  subst w'. rewrite (advance_one_timer _ _ t Ht) by (cbn [AutoSave.due]; lia).
  cbn [AutoSave.due AutoSave.callback AutoSave.timer_id]. fold due_.
  assert (Hne : str_eqb (trim (AutoSave.content p)) (AutoSave.lastSavedContentRef w) = false).
  { destruct (str_eqb _ _) eqn:E; [apply str_eqb_eq in E; contradiction | reflexivity]. }
  clearbody due_.
  split; [|split; [|split; assumption]]; intros Ht'.
  - replace (due_ <=? t) with true by (symmetry; apply Z.leb_le; lia).
    unfold AutoSave.debouncedSave.
    destruct (AutoSave.effect p w) as [tr ls sv cl nw ni ts fl lg]; cbn in *.
    subst. rewrite Hsaving, He, Hne. cbn. rewrite Hidle.
    rewrite Nat.eqb_refl. auto.
  - replace (due_ <=? t) with false by (symmetry; apply Z.leb_gt; lia).
    destruct (AutoSave.effect p w); cbn in *. subst. auto.
Qed.

Lemma change_persisted_after_delay_witness :
  AutoSave.persist_log
    (AutoSave.advance 5000 (AutoSave.effect (AutoSave.typing (lit "abc")) AutoSave.init))
  = [(2000, lit "abc")]
  /\ AutoSave.persist_log
       (AutoSave.advance 1999 (AutoSave.effect (AutoSave.typing (lit "abc")) AutoSave.init))
     = [].
Proof.
  destruct (change_persisted_after_delay [] (AutoSave.typing (lit "abc")) 5000
              eq_refl eq_refl ltac:(discriminate) ltac:(discriminate)) as [H _].
  destruct (change_persisted_after_delay [] (AutoSave.typing (lit "abc")) 1999
              eq_refl eq_refl ltac:(discriminate) ltac:(discriminate)) as (_ & H' & _).
  split.
  - exact (proj1 (H ltac:(cbn; lia))).
  - exact (proj1 (H' ltac:(cbn; lia))).
Defined.


Section AutoSaveExtras3.

Import AutoSave AutoSaveMore.

Lemma pending_differs_debouncedSave (w : World) (p : Props) :
  pending_differs w -> pending_differs (debouncedSave p w).
Proof.
  intros [Hg Hf]. split; [now apply guarded_debouncedSave|].
  unfold debouncedSave.
  destruct (isSavingRef w) eqn:Es; cbn [orb]; [exact Hf|].
  destruct (negb (enabled p)); [exact Hf|].
  destruct (str_eqb _ _) eqn:E; [exact Hf|].
  assert (Hne : trim (content p) <> lastSavedContentRef w).
  { intros H. apply str_eqb_eq in H. congruence. }
  destruct w; cbn in *. apply Forall_app. split; [exact Hf|]. now repeat constructor.
Qed.

Lemma pending_differs_settle (w : World) (ok : bool) :
  pending_differs w -> pending_differs (settle ok w).
Proof.
  intros [Hg Hf]. split; [now apply guarded_settle|].
  unfold settle. destruct (in_flight w) as [|c rest] eqn:E; [now rewrite E|].
  assert (Hrest : rest = []).
  { destruct Hg as [[_ [c' Hc']]|[_ Hc']]; congruence. }
  subst rest. destruct ok; destruct w; cbn in *; constructor.
Qed.

Lemma pending_differs_reachable (es : list event) : pending_differs (run es init).
Proof.
  apply P_run;
    first [ apply pending_differs_debouncedSave
          | apply pending_differs_settle
          | unfold pending_differs, guarded; intros w; intros; destruct w; assumption
          | idtac ].
  split; [right; auto | constructor].
Qed.

End AutoSaveExtras3.

(** X13. [saveNow] leaves no timer armed, so the passing of time after
    it calls [onSave] no further; when no save is awaited, the coordinator
    is enabled and the trimmed content differs from the marker, it calls
    [onSave] at once with the trimmed content. *)
Theorem saveNow_replaces_pending_save (es : list AutoSave.event) (p : AutoSave.Props) :
  let w := AutoSave.run es AutoSave.init in
  let w' := AutoSave.saveNow p w in
  AutoSave.timers w' = []
  /\ (forall t, AutoSave.persist_log (AutoSave.advance t w') = AutoSave.persist_log w')
  /\ (AutoSave.in_flight w = [] -> AutoSave.enabled p = true ->
      trim (AutoSave.content p) <> AutoSave.lastSavedContentRef w ->
      AutoSave.persist_log w'
      = AutoSave.persist_log w ++ [(AutoSave.now w, trim (AutoSave.content p))]).
Proof.
  intros w w'.
  assert (Ht : AutoSave.timers w' = []).
  { subst w'. unfold AutoSave.saveNow.
    destruct (debouncedSave_timers (AutoSave.clear_current w) p) as (-> & _).
    apply one_slot_clear_current, one_slot_reachable. }
  split; [exact Ht|]. split.
  - intros t. rewrite (advance_no_timer w' t Ht). destruct w'; reflexivity.
  - intros Hidle He Hm.
    assert (Hsaving : AutoSave.isSavingRef w = false).
    { destruct (guarded_reachable es) as [[_ [c Hf]]|[Hf _]]; [|exact Hf].
      fold w in Hf. rewrite Hf in Hidle. discriminate. }
    assert (Hne : str_eqb (trim (AutoSave.content p)) (AutoSave.lastSavedContentRef w) = false).
    { destruct (str_eqb _ _) eqn:E; [apply str_eqb_eq in E; contradiction | reflexivity]. }
    subst w'. unfold AutoSave.saveNow, AutoSave.debouncedSave.
    pose proof (clear_current_save_state w) as Hs. unfold AutoSaveMore.save_state in Hs.
    injection Hs as Hs1 Hs2 Hs3 Hs4 Hs5.
    rewrite Hs1, Hs2, Hsaving, He, Hne. cbn [negb orb].
    destruct (AutoSave.clear_current w); cbn in *. now subst.
Qed.

(** X14. A content change made while a save is awaited, whose timer
    fires before the save settles, is not saved afterwards either: once the
    save has settled no timer is armed and nothing is awaited, however long
    the clock runs. *)
Theorem change_during_save_is_dropped
    (es : list AutoSave.event) (p : AutoSave.Props) (ok : bool) (t1 t2 : Z) :
  let w := AutoSave.run es AutoSave.init in
  AutoSave.in_flight w <> [] ->
  AutoSave.now w + AutoSave.timeout (AutoSave.delay p) <= t1 ->
  let w' := AutoSave.run [AutoSave.Change p; AutoSave.Advance t1;
                          AutoSave.Settle ok; AutoSave.Advance t2] w in
  AutoSave.persist_log w' = AutoSave.persist_log w
  /\ AutoSave.timers w' = []
  /\ AutoSave.in_flight w' = [].
Proof.
  intros w Hbusy Hdue w'.
  destruct (guarded_reachable es) as [[Hs [c Hf]]|[Hs Hf]]; fold w in Hs, Hf;
    [|contradiction].
  pose proof (effect_save_state w p) as Hst. unfold AutoSaveMore.save_state in Hst.
  injection Hst as Hs1 Hs2 Hs3 Hs4 Hs5.
  set (w1 := AutoSave.effect p w) in *.
  (* the timer, if one was armed, has fired and was refused *)
  assert (H2 : exists w2, AutoSave.advance t1 w1 = w2
                 /\ AutoSave.timers w2 = []
                 /\ AutoSave.in_flight w2 = [c]
                 /\ AutoSave.persist_log w2 = AutoSave.persist_log w).
  { eexists. split; [reflexivity|].
    assert (Hslot : AutoSave.timers w1 = []
                    \/ exists tm, AutoSave.timers w1 = [tm]
                        /\ AutoSave.due tm
                           = AutoSave.now w + AutoSave.timeout (AutoSave.delay p)).
    { destruct (AutoSave.enabled p) eqn:Ee;
        [destruct (truthy (trim (AutoSave.content p))) eqn:Ec|].
      - right. destruct (effect_rearms w p (one_slot_reachable es) Ee Ec) as (Ht & _).
        eexists. split; [exact Ht | reflexivity].
      - left. subst w1. rewrite effect_blank by exact Ec.
        pose proof (one_slot_cleared w (one_slot_reachable es)).
        destruct (if AutoSave.cleanup w then AutoSave.clear_current w else w); assumption.
      - left. subst w1. unfold AutoSave.effect. rewrite Ee. cbn [negb orb].
        pose proof (one_slot_cleared w (one_slot_reachable es)).
        destruct (if AutoSave.cleanup w then AutoSave.clear_current w else w); assumption. }
    destruct Hslot as [Ht|(tm & Ht & Hd)].
    - rewrite (advance_no_timer w1 t1 Ht).
      destruct w1; cbn in *. subst. auto.
    - pose proof (timeout_nonneg (AutoSave.delay p)) as Hnn.
      rewrite (advance_one_timer w1 tm t1 Ht) by lia.
      replace (AutoSave.due tm <=? t1) with true by (symmetry; apply Z.leb_le; lia).
      rewrite saving_blocks by (destruct w1; cbn in *; congruence).
      destruct w1; cbn -[Nat.eqb] in *. subst.
      cbn [filter]. rewrite Nat.eqb_refl. cbn. auto. }
  destruct H2 as (w2 & Hw2 & Ht2 & Hf2 & Hl2).
  subst w'. unfold AutoSave.run. cbn [fold_left AutoSave.step]. fold w1. rewrite Hw2.
  assert (H3 : AutoSave.timers (AutoSave.settle ok w2) = []
               /\ AutoSave.in_flight (AutoSave.settle ok w2) = []
               /\ AutoSave.persist_log (AutoSave.settle ok w2) = AutoSave.persist_log w).
  { unfold AutoSave.settle. rewrite Hf2. destruct ok; destruct w2; cbn in *; auto. }
  destruct H3 as (Ht3 & Hf3 & Hl3).
  rewrite (advance_no_timer _ t2 Ht3).
  destruct (AutoSave.settle ok w2); cbn in *. auto.
Qed.

Lemma change_during_save_is_dropped_witness :
  let es := [AutoSave.Change (AutoSave.typing (lit "a")); AutoSave.Advance 2000] in
  AutoSave.in_flight (AutoSave.run es AutoSave.init) = [lit "a"]
  /\ AutoSave.persist_log
       (AutoSave.run [AutoSave.Change (AutoSave.typing (lit "ab")); AutoSave.Advance 4000;
                      AutoSave.Settle true; AutoSave.Advance 99000]
          (AutoSave.run es AutoSave.init))
     = [(2000, lit "a")].
Proof.
  intros es. split; [reflexivity|].
  exact (proj1 (change_during_save_is_dropped es (AutoSave.typing (lit "ab")) true
                  4000 99000 ltac:(discriminate) ltac:(cbn; lia))).
Defined.


(** X15. A rejected save leaves the marker as it was, and the next
    [saveNow] with the same content calls [onSave] with it again. *)
Theorem rejected_save_is_retried
    (es : list AutoSave.event) (p : AutoSave.Props) (c : str) (rest : list str) :
  let w := AutoSave.run es AutoSave.init in
  AutoSave.in_flight w = c :: rest ->
  AutoSave.enabled p = true ->
  trim (AutoSave.content p) = c ->
  let w1 := AutoSave.settle false w in
  AutoSave.lastSavedContentRef w1 = AutoSave.lastSavedContentRef w
  /\ AutoSave.persist_log (AutoSave.saveNow p w1)
     = AutoSave.persist_log w ++ [(AutoSave.now w, c)].
Proof.
  intros w Hf He Hc w1.
  destruct (pending_differs_reachable es) as [Hg Hd]. fold w in Hg, Hd.
  rewrite Hf in Hd. inversion Hd as [|? ? Hne _]; subst.
  assert (Hrest : rest = []).
  { destruct Hg as [[_ [c' Hc']]|[_ Hc']]; congruence. }
  subst rest.
  assert (Hneb : str_eqb (trim (AutoSave.content p)) (AutoSave.lastSavedContentRef w) = false).
  { destruct (str_eqb _ _) eqn:E; [apply str_eqb_eq in E; contradiction | reflexivity]. }
  subst w1. unfold AutoSave.settle. rewrite Hf.
  split; [destruct w; reflexivity|].
  unfold AutoSave.saveNow, AutoSave.debouncedSave.
  set (w1 := AutoSave.set_isSaving false (AutoSave.set_in_flight [] w)).
  pose proof (clear_current_save_state w1) as Hs. unfold AutoSaveMore.save_state in Hs.
  injection Hs as Hs1 Hs2 Hs3 Hs4 Hs5.
  rewrite Hs1, Hs2. subst w1.
  replace (AutoSave.isSavingRef (AutoSave.set_isSaving false (AutoSave.set_in_flight [] w)))
    with false by (destruct w; reflexivity).
  replace (AutoSave.lastSavedContentRef
             (AutoSave.set_isSaving false (AutoSave.set_in_flight [] w)))
    with (AutoSave.lastSavedContentRef w) by (destruct w; reflexivity).
  rewrite He, Hneb. cbn [negb orb].
  destruct (AutoSave.clear_current _); destruct w; cbn in *. now subst.
Qed.

Lemma rejected_save_is_retried_witness :
  let es := [AutoSave.SaveNow (AutoSave.typing (lit "a"))] in
  AutoSave.in_flight (AutoSave.run es AutoSave.init) = [lit "a"]
  /\ AutoSave.persist_log
       (AutoSave.saveNow (AutoSave.typing (lit "a"))
          (AutoSave.settle false (AutoSave.run es AutoSave.init)))
     = [(0, lit "a"); (0, lit "a")].
Proof.
  intros es. split; [reflexivity|].
  exact (proj2 (rejected_save_is_retried es (AutoSave.typing (lit "a")) (lit "a") []
                  eq_refl eq_refl eq_refl)).
Defined.


(** ** highlightText *)

Section HighlightFacts.

Import RegExp Highlight.

Lemma step_escaped (st : pstate) (c : ascii) :
  is_syntax_char c = true -> pmode st = Normal ->
  step st "\"%char = POk (mkPState (outer st) (top st) Escape)
  /\ step (mkPState (outer st) (top st) Escape) c
     = push_term (mkPState (outer st) (top st) Escape) (Chr c).
Proof.
  intros Hc Hm. split.
  - unfold step. rewrite Hm. reflexivity.
  - unfold step. cbn [pmode]. unfold step_escape. now rewrite Hc.
Qed.

(** The escaped query parses as the run of its characters, whatever they
    are. *)
Lemma parse_from_escape (q : str) :
  forall (st : pstate) (rest : str),
    pmode st = Normal ->
    parse_from st (Ref.escape q ++ rest)
    = parse_from (mkPState (outer st)
                    (mkFrame (alts (top st)) (rev (map Chr q) ++ cur (top st)))
                    Normal) rest.
Proof.
  induction q as [|c q IH]; intros st rest Hm.
  - destruct st as [o [a cu] md]. cbn in *. now subst md.
  - unfold Ref.escape. cbn [flat_map]. fold (Ref.escape q).
    destruct (is_syntax_char c) eqn:Ec.
    + destruct (step_escaped st c Ec Hm) as [H1 H2].
      cbn [app parse_from]. rewrite H1. cbn [parse_from]. rewrite H2.
      unfold push_term. cbn [outer top]. rewrite IH by reflexivity.
      cbn [outer top alts cur map rev]. now rewrite <- app_assoc.
    + cbn [app parse_from]. rewrite (step_plain st c Ec Hm).
      unfold push_term. rewrite IH by reflexivity.
      cbn [outer top alts cur map rev]. now rewrite <- app_assoc.
Qed.

Lemma compile_highlight_pattern (q : str) :
  compile (lit "(" ++ Ref.escape q ++ lit ")")
  = Parsed (Cat (Group (seq_of (map Chr q))) Empty).
Proof.
  unfold compile.
  change (parse_from start (lit "(" ++ Ref.escape q ++ lit ")"))
    with (parse_from (mkPState [mkFrame [] []] (mkFrame [] []) Opened)
            (Ref.escape q ++ lit ")")).
  destruct q as [|c q].
  - reflexivity.
  - unfold Ref.escape. cbn [flat_map]. fold (Ref.escape q).
    destruct (is_syntax_char c) eqn:Ec.
    + cbn [app parse_from].
      assert (H1 : step (mkPState [mkFrame [] []] (mkFrame [] []) Opened) "\"%char
                   = POk (mkPState [mkFrame [] []] (mkFrame [] []) Escape)) by reflexivity.
      rewrite H1. cbn [parse_from].
      destruct (step_escaped (mkPState [mkFrame [] []] (mkFrame [] []) Normal) c Ec eq_refl)
        as [_ H2]. cbn [outer top] in H2. rewrite H2. unfold push_term. cbn [outer top alts cur].
      rewrite (parse_from_escape q
                 (mkPState [mkFrame [] []] (mkFrame [] [Chr c]) Normal)
                 (lit ")") eq_refl).
      cbn. now rewrite rev_app_distr, rev_involutive.
    + cbn [app parse_from].
      assert (H1 : step (mkPState [mkFrame [] []] (mkFrame [] []) Opened) c
                   = push_term (mkPState [mkFrame [] []] (mkFrame [] []) Opened) (Chr c)).
      { unfold step. cbn [pmode].
        assert (Hq : Ascii.eqb c "?" = false).
        { unfold is_syntax_char in Ec. cbn in Ec.
          repeat (apply orb_false_iff in Ec as [? Ec]). assumption. }
        rewrite Hq.
        pose proof (step_plain (mkPState [mkFrame [] []] (mkFrame [] []) Normal) c Ec eq_refl)
          as Hs. unfold step in Hs. cbn [pmode] in Hs. exact Hs. }
      rewrite H1. unfold push_term. cbn [outer top alts cur].
      rewrite (parse_from_escape q
                 (mkPState [mkFrame [] []] (mkFrame [] [Chr c]) Normal)
                 (lit ")") eq_refl).
      cbn. now rewrite rev_app_distr, rev_involutive.
Qed.

End HighlightFacts.

Section HighlightMatch.

Import RegExp Highlight.

Variable q : str.
Hypothesis q_not_empty : q <> [].

(** The pattern of the query, as [highlightText] builds it. *)
Variable r : regex.
Hypothesis r_chars : r = seq_of (map Chr q).

Lemma fold_case_chars (l : str) :
  fold_case (seq_of (map Chr l)) = seq_of (map Chr (canonical l)).
Proof.
  unfold seq_of, canonical in *.
  induction l as [|c l IH]; cbn [map fold_right fold_case]; [reflexivity|].
  now rewrite IH.
Qed.

Lemma canonical_length (s : str) : List.length (canonical s) = List.length s.
Proof. apply length_map. Qed.

Lemma match_at_fold (p : pos) :
  match_at (fold_case r) p
  = if prefixb (canonical q) (after p)
    then Some (mkPos (rev (canonical q) ++ before p)
                 (skipn (List.length q) (after p)))
    else None.
Proof.
  unfold match_at. rewrite r_chars, fold_case_chars.
  rewrite <- (app_nil_r (map Chr (canonical q))), m_chars.
  destruct (prefixb (canonical q) (after p)); [|reflexivity].
  cbn [seq_of fold_right]. now rewrite m_Empty, canonical_length.
Qed.

Lemma match_at_i_chars (bef aft : str) :
  match_at_i r bef aft
  = if prefixb (canonical q) (canonical aft) then Some (List.length q) else None.
Proof.
  unfold match_at_i. rewrite match_at_fold. cbn [after before].
  destruct (prefixb (canonical q) (canonical aft)) eqn:E; [|reflexivity].
  cbn [after].
  apply prefixb_length in E. rewrite !canonical_length in E.
  rewrite length_skipn, !canonical_length. f_equal. lia.
Qed.

Lemma prefix_piece (aft : str) :
  prefixb (canonical q) (canonical aft) = true ->
  canonical (firstn (List.length q) aft) = canonical q
  /\ (List.length q <= List.length aft)%nat.
Proof.
  intros E. pose proof (prefixb_length _ _ E) as Hl. rewrite !canonical_length in Hl.
  split; [|exact Hl].
  apply prefixb_true_split in E. unfold canonical in *.
  rewrite <- firstn_map, E, firstn_app, length_map, Nat.sub_diag.
  rewrite <- (length_map canonicalize q) at 1. rewrite firstn_all. cbn.
  apply app_nil_r.
Qed.

Lemma mark_from_skip (skip : nat) :
  forall bef aft, (skip <= List.length aft)%nat ->
    mark_from r bef aft skip
    = mark_from r (rev (firstn skip aft) ++ bef) (skipn skip aft) 0.
Proof.
  induction skip as [|sk IH]; intros bef aft H; [reflexivity|].
  destruct aft as [|c rest]; [cbn in H; lia|].
  cbn [mark_from app firstn skipn rev]. rewrite IH by (cbn in H; lia).
  now rewrite <- app_assoc.
Qed.

Lemma count_from_skip (rx : regex) (skip : nat) :
  forall bef aft, (skip <= List.length aft)%nat ->
    count_from rx bef aft skip
    = count_from rx (rev (firstn skip aft) ++ bef) (skipn skip aft) 0.
Proof.
  induction skip as [|sk IH]; intros bef aft H; [reflexivity|].
  destruct aft as [|c rest]; [cbn in H; lia|].
  cbn [count_from app firstn skipn rev]. rewrite IH by (cbn in H; lia).
  now rewrite <- app_assoc.
Qed.


Lemma mark_from_marking (n : nat) :
  forall bef aft, (List.length aft <= n)%nat ->
    marking q aft (mark_from r bef aft 0)
      (Z.to_nat (count_from (fold_case r) (canonical bef) (canonical aft) 0)).
Proof.
  assert (Hq : exists m, List.length q = S m).
  { destruct q; [congruence | eexists; reflexivity]. }
  destruct Hq as [m Hq].
  induction n as [|n IH]; intros bef aft Hn.
  - destruct aft; [|cbn in Hn; lia].
    cbn [mark_from count_from canonical map].
    rewrite match_at_i_chars, match_at_fold. cbn [after canonical map].
    rewrite (prefixb_nil_r (canonical q))
      by (unfold canonical; destruct q; [congruence | discriminate]).
    constructor.
  - destruct aft as [|c rest]; [apply (IH bef []); cbn; lia|].
    change (canonical (c :: rest)) with (canonicalize c :: canonical rest).
    cbn [mark_from count_from].
    change (canonicalize c :: canonical rest) with (canonical (c :: rest)).
    rewrite match_at_i_chars, match_at_fold. cbn [after before].
    destruct (prefixb (canonical q) (canonical (c :: rest))) eqn:E.
    + destruct (prefix_piece _ E) as [Hpiece Hlen].
      rewrite Hq in *. cbn [after].
      change (canonical (c :: rest)) with (canonicalize c :: canonical rest).
      cbn [skipn List.length]. rewrite length_skipn, canonical_length.
      cbn [List.length] in Hlen.
      replace (Nat.pred (S (List.length rest) - (List.length rest - m))) with m by lia.
      rewrite mark_from_skip by lia.
      rewrite (count_from_skip _ m) by (rewrite canonical_length; lia).
      pose proof (IH (rev (firstn m rest) ++ c :: bef) (skipn m rest)
                    ltac:(rewrite length_skipn; cbn in Hn; lia)) as Hrec.
      replace (rev (firstn m (canonical rest)) ++ canonicalize c :: canonical bef)
        with (canonical (rev (firstn m rest) ++ c :: bef))
        by (unfold canonical; now rewrite map_app, map_rev, firstn_map).
      replace (skipn m (canonical rest)) with (canonical (skipn m rest))
        by (unfold canonical; now rewrite skipn_map).
      pose proof (count_from_nonneg (fold_case r) (canonical (skipn m rest))
                    (canonical (rev (firstn m rest) ++ c :: bef)) 0) as Hpos.
      replace (Z.to_nat (1 + count_from (fold_case r)
                              (canonical (rev (firstn m rest) ++ c :: bef))
                              (canonical (skipn m rest)) 0))
        with (S (Z.to_nat (count_from (fold_case r)
                              (canonical (rev (firstn m rest) ++ c :: bef))
                              (canonical (skipn m rest)) 0))) by lia.
      replace (c :: rest) with (firstn (S m) (c :: rest) ++ skipn m rest) at 1
        by (change (skipn m rest) with (skipn (S m) (c :: rest));
            apply firstn_skipn).
      apply marking_wrap; [exact Hpiece | exact Hrec].
    + cbn [app]. apply marking_copy.
      apply (IH (c :: bef) rest). cbn in Hn. lia.
Qed.

End HighlightMatch.

Section HighlightResults.

Import RegExp Highlight.

Lemma marking_length (q text out : str) (n : nat) :
  marking q text out n ->
  List.length out = (List.length text + 13 * n)%nat.
Proof.
  induction 1 as [|c text out n _ IH|piece text out n _ _ IH]; cbn [List.length].
  - reflexivity.
  - lia.
  - rewrite !length_app, IH. cbn. lia.
Qed.

Lemma marking_none (q text out : str) :
  marking q text out 0 -> out = text.
Proof.
  remember 0%nat as n eqn:Hn. induction 1; [reflexivity | | discriminate].
  f_equal. auto.
Qed.

Lemma highlightText_value (hr : str -> str -> option str) (text query : str) :
  highlightText hr text query
  = Return (if truthy (trim query)
            then mark_from (seq_of (map Chr query)) [] text 0
            else text).
Proof.
  unfold highlightText. destruct (truthy (trim query)); cbn [negb]; [|reflexivity].
  now rewrite compile_highlight_pattern.
Qed.

End HighlightResults.

(** X8. [highlightText] returns for every text and query, whatever
    pattern syntax the query holds, and never needs a pattern beyond the
    modelled fragment; for a blank query it returns the text. *)
Theorem highlightText_never_throws (text query : str) :
  exists out,
    (forall hr, Highlight.highlightText hr text query = Return out)
    /\ (truthy (trim query) = false -> out = text).
Proof.
  eexists. split.
  - intros hr. apply highlightText_value.
  - intros H. now rewrite H.
Qed.

(** X9. For a query that is not blank, [highlightText] returns the text
    with pieces wrapped in "<mark>" and "</mark>", each piece equal to the
    query up to case; they are as many as the occurrences of the query, up
    to case, that a left-to-right scan without overlap finds, which the
    length of the result shows; without occurrence the text is returned. *)
Theorem highlightText_marks_occurrences
    (hr : str -> str -> option str) (text query : str)
    (Hquery : truthy (trim query) = true) :
  let n := List.length
             (Ref.disjoint_from (List.length query)
                (Ref.occurrences (Highlight.canonical query) (Highlight.canonical text)) 0) in
  exists out,
    Highlight.highlightText hr text query = Return out
    /\ Highlight.marking query text out n
    /\ List.length out = (List.length text + 13 * n)%nat
    /\ (n = 0%nat -> out = text).
Proof.
  intros n. pose proof (truthy_trim_nonempty query Hquery) as Hq.
  rewrite highlightText_value, Hquery. eexists. split; [reflexivity|].
  assert (Hm : Highlight.marking query text
                 (Highlight.mark_from (RegExp.seq_of (map RegExp.Chr query)) [] text 0) n).
  { pose proof (mark_from_marking query Hq _ eq_refl (List.length text) [] text (le_n _))
      as H.
    rewrite fold_case_chars in H.
    change (RegExp.count_from ?rx (Highlight.canonical []) ?s 0)
      with (RegExp.count_matches rx s) in H.
    rewrite count_plain in H
      by (unfold Highlight.canonical; destruct query; [congruence | discriminate]).
    rewrite Nat2Z.id, canonical_length in H. exact H. }
  split; [exact Hm|]. split; [now apply marking_length in Hm|].
  intros Hn. rewrite Hn in Hm. now apply marking_none in Hm.
Qed.

Lemma highlightText_marks_occurrences_witness :
  truthy (trim (lit "a.")) = true
  /\ exists out,
       Highlight.highlightText (fun _ _ => None) (lit "xA.ya.a.") (lit "a.") = Return out
       /\ out = lit "x<mark>A.</mark>y<mark>a.</mark><mark>a.</mark>"
       /\ Highlight.marking (lit "a.") (lit "xA.ya.a.") out 3.
Proof.
  split; [reflexivity|].
  destruct (highlightText_marks_occurrences (fun _ _ => None) (lit "xA.ya.a.") (lit "a.")
              eq_refl) as (out & Hout & Hm & _).
  exists out. split; [exact Hout|]. split; [|exact Hm].
  rewrite highlightText_value in Hout. injection Hout as <-. reflexivity.
Defined.

(** ** lib/utils *)

Section FileNames.

Import Files.

Lemma last_from_absent (c : ascii) (s : str) :
  ~ In c s -> forall k best, last_from [c] s k best = best.
Proof.
  induction s as [|a s IH]; intros H k best; cbn [last_from prefixb]; [reflexivity|].
  rewrite IH by (intros Hin; apply H; now right).
  destruct (Ascii.eqb c a) eqn:E; [|reflexivity].
  apply Ascii.eqb_eq in E. subst a. exfalso. apply H. now left.
Qed.

Lemma last_from_last (c : ascii) (pre post : str) :
  ~ In c post ->
  forall k best, last_from [c] (pre ++ c :: post) k best = k + len pre.
Proof.
  intros Hpost. induction pre as [|a pre IH]; intros k best.
  - cbn [app last_from prefixb]. rewrite Ascii.eqb_refl. cbn [andb].
    rewrite last_from_absent by exact Hpost. unfold len. cbn. lia.
  - cbn [app last_from]. rewrite IH. unfold len. cbn [List.length]. lia.
Qed.

Lemma last_split (c : ascii) (s : str) :
  In c s -> exists pre post, s = pre ++ c :: post /\ ~ In c post.
Proof.
  induction s as [|a s IH]; intros H; [contradiction|].
  destruct (in_dec ascii_dec c s) as [Hin|Hout].
  - destruct (IH Hin) as (pre & post & -> & Hp). now exists (a :: pre), post.
  - destruct H as [->|H]; [|contradiction]. now exists [], s.
Qed.

Lemma slice_from_skipn (s : str) (k : nat) :
  (k <= List.length s)%nat -> slice_from s (Z.of_nat k) = skipn k s.
Proof.
  intros H. unfold slice_from, slice, slice_index, len.
  replace (Z.of_nat k <? 0) with false by (symmetry; apply Z.ltb_ge; lia).
  replace (Z.of_nat (List.length s) <? 0) with false by (symmetry; apply Z.ltb_ge; lia).
  rewrite Z.min_id, Z.min_l, Nat2Z.id by lia.
  apply firstn_all2. rewrite length_skipn. lia.
Qed.

Lemma slice_0_firstn (s : str) (k : nat) :
  (k <= List.length s)%nat -> slice s 0 (Z.of_nat k) = firstn k s.
Proof.
  intros H. unfold slice, slice_index, len.
  replace (Z.of_nat k <? 0) with false by (symmetry; apply Z.ltb_ge; lia).
  cbn [Z.ltb Z.compare]. rewrite Z.min_l, Z.min_l by lia.
  cbn [Z.to_nat skipn]. now rewrite Z.sub_0_r, Nat2Z.id.
Qed.

End FileNames.

(** X16. A file name with a dot is its part before the last dot, the
    dot and [getFileExtension] of it, an extension without dot;
    [removeFileExtension] gives the part before the last dot, and the whole
    name when that part is empty. *)
Theorem file_name_splits_at_last_dot (filename : str) :
  In "."%char filename ->
  exists base,
    filename = base ++ lit "." ++ Files.getFileExtension filename
    /\ ~ In "."%char (Files.getFileExtension filename)
    /\ Files.removeFileExtension filename
       = match base with [] => filename | _ :: _ => base end.
Proof.
  intros H. destruct (last_split _ _ H) as (pre & post & -> & Hpost).
  exists pre.
  assert (Hidx : Files.lastIndexOf (pre ++ "."%char :: post) (lit ".") = len pre).
  { unfold Files.lastIndexOf. change (lit ".") with ["."%char].
    rewrite last_from_last by exact Hpost. lia. }
  assert (Hext : Files.getFileExtension (pre ++ "."%char :: post) = post).
  { unfold Files.getFileExtension. rewrite Hidx. unfold len.
    replace (Z.of_nat (List.length pre) + 1) with (Z.of_nat (S (List.length pre))) by lia.
    rewrite slice_from_skipn by (rewrite length_app; cbn; lia).
    rewrite skipn_app.
    replace (S (List.length pre) - List.length pre)%nat with 1%nat by lia.
    rewrite skipn_all2 by lia. reflexivity. }
  rewrite Hext. split; [reflexivity|]. split; [exact Hpost|].
  unfold Files.removeFileExtension. rewrite Hidx. unfold len.
  destruct pre as [|a pre]; [reflexivity|].
  replace (Z.of_nat (List.length (a :: pre)) >? 0) with true
    by (symmetry; apply Z.gtb_lt; cbn [List.length]; lia).
  rewrite slice_0_firstn by (rewrite length_app; lia).
  rewrite firstn_app, Nat.sub_diag, firstn_all. cbn [firstn]. apply app_nil_r.
Qed.

Lemma file_name_splits_at_last_dot_witness :
  In "."%char (lit "notes.2024.md")
  /\ Files.getFileExtension (lit "notes.2024.md") = lit "md"
  /\ Files.removeFileExtension (lit "notes.2024.md") = lit "notes.2024"
  /\ Files.removeFileExtension (lit ".env") = lit ".env"
  /\ exists base, lit ".env" = base ++ lit "." ++ Files.getFileExtension (lit ".env").
Proof.
  split; [cbn; tauto|]. split; [reflexivity|]. split; [reflexivity|].
  split; [reflexivity|].
  destruct (file_name_splits_at_last_dot (lit ".env") ltac:(cbn; tauto))
    as (base & H & _).
  exists base. exact H.
Defined.

(** X17. For a file name without dot, [getFileExtension] and
    [removeFileExtension] both return the whole name. *)
Theorem file_name_without_dot (filename : str) :
  ~ In "."%char filename ->
  Files.getFileExtension filename = filename
  /\ Files.removeFileExtension filename = filename.
Proof.
  intros H.
  assert (Hidx : Files.lastIndexOf filename (lit ".") = -1).
  { unfold Files.lastIndexOf. change (lit ".") with ["."%char].
    now apply last_from_absent. }
  unfold Files.getFileExtension, Files.removeFileExtension. rewrite Hidx.
  split; [|reflexivity].
  change (-1 + 1) with (Z.of_nat 0). now rewrite slice_from_skipn by lia.
Qed.

Lemma file_name_without_dot_witness :
  ~ In "."%char (lit "README")
  /\ Files.getFileExtension (lit "README") = lit "README".
Proof.
  assert (H : ~ In "."%char (lit "README")).
  { cbn. intros H. repeat (destruct H as [H|H]; [discriminate|]). exact H. }
  split; [exact H|].
  exact (proj1 (file_name_without_dot (lit "README") H)).
Defined.

(** X18. [sortFileEntries] returns a permutation of the entries with
    every folder before every file, whatever the collation; sorted by date,
    each kind is in non-increasing order of date and entries of one kind
    and date keep their order. *)
Theorem sortFileEntries_folders_first
    (h : Host) (entries : list Files.FileEntry) (sortBy : Files.SortKey) :
  let out := Files.sortFileEntries h entries sortBy in
  Permutation out entries
  /\ StronglySorted (fun a b => Files.isFolder b = true -> Files.isFolder a = true) out
  /\ (sortBy = Files.by_date -> StronglySorted Files.listed_before out)
  /\ (sortBy = Files.by_date ->
      forall (folder : bool) (d : Z),
        let same e := Bool.eqb (Files.isFolder e) folder && (Files.entry_date e =? d) in
        filter same out = filter same entries).
Proof.
  intros out. subst out. unfold Files.sortFileEntries.
  split; [apply sort_by_perm|]. split; [|split].
  - apply sort_by_sorted; unfold Files.compare_entries.
    + intros a b c Hab Hbc Hc. auto.
    + intros a b. destruct (Files.isFolder a), (Files.isFolder b); cbn; intros; auto; lia.
    + intros a b. destruct (Files.isFolder a), (Files.isFolder b); cbn; intros; auto; lia.
  - intros ->. apply sort_by_sorted; unfold Files.compare_entries, Files.listed_before.
    + intros a b c [[H1 H2]|[H1 H2]] [[H3 H4]|[H3 H4]]; try congruence.
      * left. split; congruence.
      * left. split; congruence.
      * right. split; [congruence | lia].
    + intros a b. destruct (Files.isFolder a), (Files.isFolder b); cbn; intros H;
        try lia; auto; right; split; auto; lia.
    + intros a b. destruct (Files.isFolder a), (Files.isFolder b); cbn; intros H;
        try lia; auto; right; split; auto; lia.
  - intros -> folder d. apply sort_by_stable.
    intros a b Ha Hb. cbn beta in Ha, Hb.
    apply andb_true_iff in Ha as [Ha1 Ha2], Hb as [Hb1 Hb2].
    apply Bool.eqb_prop in Ha1, Hb1. apply Z.eqb_eq in Ha2, Hb2.
    unfold Files.compare_entries. rewrite Ha1, Hb1, Bool.eqb_reflx. cbn. lia.
Qed.

Section OverlapFacts.

Import Search Overlap.

(** The two halves, one after the other, are the call. *)
Lemma searchNotes_in_two_steps (h : Host) (store : settlement (list Note))
    (query : str) (filters : SearchFilters) (s : SearchState) :
  searchNotes h store query filters s
  = bind (searchNotes_begin query)
      (fun go => if go then searchNotes_resume h store query filters else ret tt) s.
Proof.
  unfold searchNotes, searchNotes_begin.
  destruct (negb (truthy (trim query))); reflexivity.
Qed.

(** What the second half publishes does not depend on the state it
    finds. *)
Lemma resume_results (h : Host) (c : call) (s s' : SearchState) :
  truthy (trim (c_query c)) = true ->
  searchResults (resume h c s) = searchResults (resume h c s')
  /\ isSearching (resume h c s) = false
  /\ searchQuery (resume h c s) = searchQuery s.
Proof.
  intros Hq. unfold resume, searchNotes_resume.
  destruct (c_store c) as [notes|e].
  - pose proof (build_results_ends h (c_query c) (c_filters c) notes
                  (truthy_trim_nonempty _ Hq)) as Hends.
    unfold bind, try_catch_finally, await, ret, lift, setIsSearching, setSearchResults,
      console_error.
    cbn [isSearching searchResults searchQuery console].
    destruct (build_results h (c_query c) (c_filters c) notes); [| |congruence];
      cbn; auto.
  - cbn. auto.
Qed.

End OverlapFacts.

(** X19. Two searches for non-blank queries that overlap, the first one's
    store read settling last: while both are open the indicator is on; when
    the second ends the state holds its results under its query; when the
    first ends after it, the results are those of the first search, still
    under the query of the second, and the indicator is off. *)
Theorem overlapping_searches_mix_query_and_results
    (h : Host) (a b : Overlap.call) (s0 : Search.SearchState) :
  truthy (trim (Overlap.c_query a)) = true ->
  truthy (trim (Overlap.c_query b)) = true ->
  let alone c :=
    snd (Search.searchNotes h (Overlap.c_store c) (Overlap.c_query c)
           (Overlap.c_filters c) s0) in
  let started := Overlap.begin b (Overlap.begin a s0) in
  let b_done := Overlap.resume h b started in
  let both_done := Overlap.resume h a b_done in
  Search.isSearching started = true
  /\ (Search.searchResults b_done = Search.searchResults (alone b)
      /\ Search.searchQuery b_done = Overlap.c_query b
      /\ Search.isSearching b_done = false)
  /\ (Search.searchResults both_done = Search.searchResults (alone a)
      /\ Search.searchQuery both_done = Overlap.c_query b
      /\ Search.isSearching both_done = false).
Proof.
  intros Ha Hb alone started b_done both_done.
  assert (Halone : forall c, truthy (trim (Overlap.c_query c)) = true ->
            alone c = Overlap.resume h c (Overlap.begin c s0)).
  { intros c Hc. unfold alone. rewrite searchNotes_in_two_steps.
    unfold Overlap.resume, Overlap.begin, Search.bind, Overlap.searchNotes_begin.
    rewrite Hc. reflexivity. }
  assert (Hq : Search.searchQuery started = Overlap.c_query b).
  { unfold started, Overlap.begin, Overlap.searchNotes_begin. rewrite Ha, Hb. reflexivity. }
  split.
  { unfold started, Overlap.begin, Overlap.searchNotes_begin. rewrite Ha, Hb. reflexivity. }
  destruct (resume_results h b started (Overlap.begin b s0) Hb) as (Hb1 & Hb2 & Hb3).
  destruct (resume_results h a b_done (Overlap.begin a s0) Ha) as (Ha1 & Ha2 & Ha3).
  rewrite (Halone a Ha), (Halone b Hb).
  fold b_done in Hb1, Hb2, Hb3. fold both_done in Ha1, Ha2, Ha3.
  repeat split; try assumption; congruence.
Qed.

Lemma overlapping_searches_mix_query_and_results_witness :
  let store := Search.Fulfilled [Sample.note_a; Sample.note_b] in
  let a := Overlap.mkCall (lit "milk") Sample.by_relevance store in
  let b := Overlap.mkCall (lit "diary") Sample.by_relevance store in
  let final :=
    Overlap.resume bare_host a
      (Overlap.resume bare_host b (Overlap.begin b (Overlap.begin a Sample.idle))) in
  List.map Search.path (Search.searchResults final) = [lit "/a"; lit "/b"]
  /\ Search.searchQuery final = lit "diary".
Proof.
  cbn zeta.
  destruct (overlapping_searches_mix_query_and_results bare_host
              (Overlap.mkCall (lit "milk") Sample.by_relevance
                 (Search.Fulfilled [Sample.note_a; Sample.note_b]))
              (Overlap.mkCall (lit "diary") Sample.by_relevance
                 (Search.Fulfilled [Sample.note_a; Sample.note_b]))
              Sample.idle eq_refl eq_refl) as (_ & _ & Hr & Hq & _).
  split; [|exact Hq]. rewrite Hr. vm_compute. reflexivity.
Defined.

(** X20. The same two searches with the store reads settling in the order
    of the calls: when the first ends, the indicator goes off and its
    results stand under the query of the second, which is still reading;
    when the second ends, the state holds its results under its query. *)
Theorem earlier_search_ends_under_later_query
    (h : Host) (a b : Overlap.call) (s0 : Search.SearchState) :
  truthy (trim (Overlap.c_query a)) = true ->
  truthy (trim (Overlap.c_query b)) = true ->
  let alone c :=
    snd (Search.searchNotes h (Overlap.c_store c) (Overlap.c_query c)
           (Overlap.c_filters c) s0) in
  let started := Overlap.begin b (Overlap.begin a s0) in
  let a_done := Overlap.resume h a started in
  let both_done := Overlap.resume h b a_done in
  (Search.searchResults a_done = Search.searchResults (alone a)
   /\ Search.searchQuery a_done = Overlap.c_query b
   /\ Search.isSearching a_done = false)
  /\ (Search.searchResults both_done = Search.searchResults (alone b)
      /\ Search.searchQuery both_done = Overlap.c_query b
      /\ Search.isSearching both_done = false).
Proof.
  intros Ha Hb alone started a_done both_done.
  assert (Halone : forall c, truthy (trim (Overlap.c_query c)) = true ->
            alone c = Overlap.resume h c (Overlap.begin c s0)).
  { intros c Hc. unfold alone. rewrite searchNotes_in_two_steps.
    unfold Overlap.resume, Overlap.begin, Search.bind, Overlap.searchNotes_begin.
    rewrite Hc. reflexivity. }
  assert (Hq : Search.searchQuery started = Overlap.c_query b).
  { unfold started, Overlap.begin, Overlap.searchNotes_begin. rewrite Ha, Hb. reflexivity. }
  destruct (resume_results h a started (Overlap.begin a s0) Ha) as (Ha1 & Ha2 & Ha3).
  destruct (resume_results h b a_done (Overlap.begin b s0) Hb) as (Hb1 & Hb2 & Hb3).
  rewrite (Halone a Ha), (Halone b Hb).
  fold a_done in Ha1, Ha2, Ha3. fold both_done in Hb1, Hb2, Hb3.
  repeat split; try assumption; congruence.
Qed.

Lemma earlier_search_ends_under_later_query_witness :
  let store := Search.Fulfilled [Sample.note_a; Sample.note_b] in
  let a := Overlap.mkCall (lit "milk") Sample.by_relevance store in
  let b := Overlap.mkCall (lit "diary") Sample.by_relevance store in
  let first_done :=
    Overlap.resume bare_host a (Overlap.begin b (Overlap.begin a Sample.idle)) in
  List.map Search.path (Search.searchResults first_done) = [lit "/a"; lit "/b"]
  /\ Search.searchQuery first_done = lit "diary"
  /\ Search.isSearching first_done = false.
Proof.
  cbn zeta.
  destruct (earlier_search_ends_under_later_query bare_host
              (Overlap.mkCall (lit "milk") Sample.by_relevance
                 (Search.Fulfilled [Sample.note_a; Sample.note_b]))
              (Overlap.mkCall (lit "diary") Sample.by_relevance
                 (Search.Fulfilled [Sample.note_a; Sample.note_b]))
              Sample.idle eq_refl eq_refl) as ((Hr & Hq & Hi) & _).
  split; [|split; assumption]. rewrite Hr. vm_compute. reflexivity.
Defined.

Section PaletteFacts.
Import Palette.

Lemma at_index_in {A} (a : list A) (i : Z) (x : A) :
  at_index a i = Some x -> In x a /\ 0 <= i < Z.of_nat (List.length a).
Proof.
  unfold at_index. destruct (i <? 0) eqn:E; [discriminate|].
  apply Z.ltb_ge in E. intros H. split.
  - eapply nth_error_In; eauto.
  - assert (Z.to_nat i < List.length a)%nat by (apply nth_error_Some; congruence).
    lia.
Qed.

Lemma at_index_some {A} (a : list A) (i : Z) :
  0 <= i < Z.of_nat (List.length a) -> exists x, at_index a i = Some x.
Proof.
  intros H. unfold at_index.
  destruct (i <? 0) eqn:E; [apply Z.ltb_lt in E; lia|].
  destruct (nth_error a (Z.to_nat i)) eqn:N; [eauto|].
  apply nth_error_None in N. lia.
Qed.

End PaletteFacts.

(** X21. With a command selected in the palette, ArrowDown and ArrowUp
    keep the selection on a shown command, move it by one modulo the number
    of shown commands, and undo each other. *)
Theorem palette_arrows_cycle (commands : list Palette.CommandAction) (query : str) (i : Z) :
  let n := Z.of_nat (List.length (Palette.filteredCommands commands query)) in
  let down := Palette.selectedIndex (Palette.handleKeyDown commands query i Palette.ArrowDown) in
  let up := Palette.selectedIndex (Palette.handleKeyDown commands query i Palette.ArrowUp) in
  0 <= i < n ->
  0 <= down < n /\ 0 <= up < n
  /\ down = (i + 1) mod n /\ up = (i - 1) mod n
  /\ Palette.selectedIndex (Palette.handleKeyDown commands query down Palette.ArrowUp) = i
  /\ Palette.selectedIndex (Palette.handleKeyDown commands query up Palette.ArrowDown) = i.
Proof.
  cbn zeta. cbn [Palette.handleKeyDown Palette.selectedIndex].
  set (n := Z.of_nat (List.length (Palette.filteredCommands commands query))).
  intros H.
  destruct (i <? n - 1) eqn:D; destruct (i >? 0) eqn:U;
    [apply Z.ltb_lt in D | apply Z.ltb_lt in D | apply Z.ltb_ge in D | apply Z.ltb_ge in D];
    rewrite Z.gtb_ltb in U;
    [apply Z.ltb_lt in U | apply Z.ltb_ge in U | apply Z.ltb_lt in U | apply Z.ltb_ge in U].
  all: repeat match goal with |- _ /\ _ => split end; try lia.
  all: try (apply Z.mod_unique with 0; lia).
  all: try (apply Z.mod_unique with 1; lia).
  all: try (apply Z.mod_unique with (-1); lia).
  all: repeat match goal with
       | |- context [?a >? ?b] => rewrite (Z.gtb_ltb a b)
       end;
       repeat match goal with
       | |- context [?a <? ?b] =>
           let E := fresh in destruct (a <? b) eqn:E;
           [apply Z.ltb_lt in E | apply Z.ltb_ge in E]
       end; lia.
Qed.

Lemma palette_arrows_cycle_witness :
  let commands :=
    [Palette.mkCommand (lit "new") (lit "New Note") None;
     Palette.mkCommand (lit "search") (lit "Search") (Some (lit "Find in notes"));
     Palette.mkCommand (lit "save") (lit "Save") None] in
  Palette.selectedIndex (Palette.handleKeyDown commands (lit "s") 1 Palette.ArrowDown) = 0
  /\ Palette.selectedIndex (Palette.handleKeyDown commands (lit "s") 0 Palette.ArrowUp) = 1.
Proof.
  cbn zeta.
  pose proof (palette_arrows_cycle
    [Palette.mkCommand (lit "new") (lit "New Note") None;
     Palette.mkCommand (lit "search") (lit "Search") (Some (lit "Find in notes"));
     Palette.mkCommand (lit "save") (lit "Save") None] (lit "s") 1) as Hdown.
  pose proof (palette_arrows_cycle
    [Palette.mkCommand (lit "new") (lit "New Note") None;
     Palette.mkCommand (lit "search") (lit "Search") (Some (lit "Find in notes"));
     Palette.mkCommand (lit "save") (lit "Save") None] (lit "s") 0) as Hup.
  cbn zeta in Hdown, Hup.
  destruct (Hdown ltac:(vm_compute; split; [discriminate|reflexivity]))
    as (_ & _ & -> & _).
  destruct (Hup ltac:(vm_compute; split; [discriminate|reflexivity]))
    as (_ & _ & _ & -> & _).
  split; reflexivity.
Defined.

(** X22. Enter in the palette runs the command at the selected index of the
    shown list and closes the palette; the command is one of the commands
    and has the query in its label or description.  With the index outside
    the shown list, as when no command is shown, Enter runs nothing and
    leaves the palette open.  In both cases the selected index stays as it
    is. *)
Theorem palette_enter_runs_selected (commands : list Palette.CommandAction)
    (query : str) (i : Z) :
  let pressed := Palette.handleKeyDown commands query i Palette.Enter in
  let n := Z.of_nat (List.length (Palette.filteredCommands commands query)) in
  (forall c, Palette.ran pressed = Some c ->
     Palette.at_index (Palette.filteredCommands commands query) i = Some c
     /\ In c commands /\ Palette.shown query c = true
     /\ 0 <= i < n /\ Palette.closed pressed = true)
  /\ (Palette.ran pressed = None -> ~ 0 <= i < n /\ Palette.closed pressed = false)
  /\ Palette.selectedIndex pressed = i.
Proof.
  cbn zeta. unfold Palette.handleKeyDown.
  set (n := Z.of_nat (List.length (Palette.filteredCommands commands query))).
  destruct (Palette.at_index (Palette.filteredCommands commands query) i) as [c|] eqn:E;
    cbn [Palette.ran Palette.closed Palette.selectedIndex].
  - pose proof E as Hat. apply at_index_in in E. destruct E as [Hin Hr]. fold n in Hr.
    apply filter_In in Hin. split; [|split; [discriminate|reflexivity]].
    intros c' H. injection H as <-. tauto.
  - split; [discriminate|]. split; [|reflexivity].
    intros _. split; [|reflexivity].
    intros Hr. apply at_index_some in Hr. destruct Hr. congruence.
Qed.

Section ShortcutFacts.
Import Shortcuts.

Lemma run_first_spec (event : KeyboardEvent) (shortcuts : list KeyboardShortcut)
    (s : KeyboardShortcut) :
  run_first event shortcuts = Some s <->
  exists before after,
    shortcuts = before ++ s :: after
    /\ matches event s = true
    /\ forall x, In x before -> matches event x = false.
Proof.
  induction shortcuts as [|x rest IH]; cbn [run_first].
  - split; [discriminate|]. intros (b & a & H & _). destruct b; discriminate.
  - destruct (matches event x) eqn:E.
    + split.
      * intros [= <-]. exists [], rest. repeat split; auto. intros ? [].
      * intros (b & a & H & Hm & Hb). destruct b as [|y b].
        -- cbn in H. congruence.
        -- cbn in H. injection H as <- _. rewrite (Hb x) in E by now left. discriminate.
    + rewrite IH. split.
      * intros (b & a & -> & Hm & Hb). exists (x :: b), a. repeat split; auto.
        intros y [<-|Hy]; auto.
      * intros (b & a & H & Hm & Hb). destruct b as [|y b].
        -- cbn in H. injection H as -> _. congruence.
        -- cbn in H. injection H as <- ->. exists b, a. repeat split; auto.
           intros z Hz. apply Hb. now right.
Qed.

Lemma run_first_none (event : KeyboardEvent) (shortcuts : list KeyboardShortcut) :
  run_first event shortcuts = None <->
  forall x, In x shortcuts -> matches event x = false.
Proof.
  induction shortcuts as [|x rest IH]; cbn [run_first].
  - split; auto. intros _ ? [].
  - destruct (matches event x) eqn:E.
    + split; [discriminate|]. intros H. rewrite (H x) in E by now left. discriminate.
    + rewrite IH. split.
      * intros H y [<-|Hy]; auto.
      * intros H y Hy. apply H. now right.
Qed.

Lemma array_includes_in (a : list str) (x : str) :
  array_includes a x = true <-> In x a.
Proof.
  unfold array_includes. rewrite existsb_exists. split.
  - intros (y & Hy & E). apply str_eqb_eq in E. now subst.
  - intros H. exists x. split; auto. now apply str_eqb_eq.
Qed.

End ShortcutFacts.

(** X23. A key press runs the first shortcut of the list that matches its
    key, compared in lower case, and its four modifiers, and no other; and
    it runs none when the hook is disabled or when the event comes from an
    editing element and its key is not s, f or k. *)
Theorem shortcut_runs_first_match (shortcuts : list Shortcuts.KeyboardShortcut)
    (enabled : bool) (event : Shortcuts.KeyboardEvent) :
  let allowed :=
    enabled = true
    /\ (Shortcuts.isInEditor (Shortcuts.target event) = true ->
        In (toLowerCase (Shortcuts.e_key event)) [lit "s"; lit "f"; lit "k"]) in
  (forall s, Shortcuts.handleKeyDown shortcuts enabled event = Some s <->
     allowed
     /\ exists before after,
          shortcuts = before ++ s :: after
          /\ Shortcuts.matches event s = true
          /\ forall x, In x before -> Shortcuts.matches event x = false)
  /\ (Shortcuts.handleKeyDown shortcuts enabled event = None <->
        ~ allowed \/ forall x, In x shortcuts -> Shortcuts.matches event x = false).
Proof.
  cbn zeta. unfold Shortcuts.handleKeyDown.
  change [lit "s"; lit "f"; lit "k"] with Shortcuts.allowedInEditor.
  pose proof (array_includes_in Shortcuts.allowedInEditor) as Hinc.
  destruct enabled; cbn [negb].
  - destruct (Shortcuts.isInEditor (Shortcuts.target event)) eqn:Ed; cbn [andb].
    + destruct (Shortcuts.array_includes Shortcuts.allowedInEditor
                  (toLowerCase (Shortcuts.e_key event))) eqn:A; cbn [negb].
      * apply Hinc in A. split.
        -- intros s. rewrite run_first_spec. tauto.
        -- rewrite run_first_none. tauto.
      * assert (~ In (toLowerCase (Shortcuts.e_key event)) Shortcuts.allowedInEditor).
        { intros H. apply Hinc in H. congruence. }
        split.
        -- intros s. split; [discriminate|]. tauto.
        -- split; [|reflexivity]. intros _. left. tauto.
    + split.
      * intros s. rewrite run_first_spec. split; [|tauto].
        intros H. split; [|exact H]. split; [reflexivity|discriminate].
      * rewrite run_first_none. split; [tauto|].
        intros [H|H]; [|exact H]. exfalso. apply H. split; [reflexivity|discriminate].
  - split.
    + intros s. split; [discriminate|]. intros [[H _] _]. discriminate.
    + split; auto. intros _. left. intros [H _]. discriminate.
Qed.

Section FileTreeFacts.
Import Files FileTree.

Lemma str_eqb_refl (a : str) : str_eqb a a = true.
Proof. now apply str_eqb_eq. Qed.

Lemma str_eqb_neq (a b : str) : str_eqb a b = false <-> a <> b.
Proof.
  split.
  - intros H E. apply str_eqb_eq in E. congruence.
  - intros H. destruct (str_eqb a b) eqn:E; [|reflexivity].
    apply str_eqb_eq in E. contradiction.
Qed.

Lemma path_with_children (e : FileEntry) (l : list FileEntry) :
  path (with_children e l) = path e.
Proof. now destruct e. Qed.

Lemma children_with_children (e : FileEntry) (l : list FileEntry) :
  children (with_children e l) = Some l.
Proof. now destruct e. Qed.

(** *** The parent path *)

Lemma parentPath_none (p : str) : ~ In "/"%char p -> parentPath p = [].
Proof.
  intros H. unfold parentPath, lastIndexOf. cbn [lit list_ascii_of_string].
  rewrite last_from_absent by exact H.
  unfold substring, clamp. 
  replace (Z.min (Z.max 0 0) (len p)) with 0 by (unfold len; lia).
  replace (Z.min (Z.max (-1) 0) (len p)) with 0 by (unfold len; lia).
  reflexivity.
Qed.

Lemma parentPath_split (pre post : str) :
  ~ In "/"%char post -> parentPath (pre ++ "/"%char :: post) = pre.
Proof.
  intros H. unfold parentPath, lastIndexOf. cbn [lit list_ascii_of_string].
  rewrite last_from_last by exact H.
  unfold substring, clamp, len. rewrite length_app. cbn [List.length].
  replace (Z.min (Z.max 0 0) _) with 0 by lia.
  replace (Z.min (Z.max (0 + Z.of_nat (List.length pre)) 0) _)
    with (Z.of_nat (List.length pre)) by lia.
  rewrite Z.min_l, Z.max_r by lia. rewrite Z.sub_0_r, Nat2Z.id.
  cbn [Z.to_nat skipn]. rewrite firstn_app, firstn_all, Nat.sub_diag. cbn [firstn].
  apply app_nil_r.
Qed.

Lemma parentPath_cases (p : str) :
  (~ In "/"%char p /\ parentPath p = [])
  \/ exists post, p = parentPath p ++ "/"%char :: post /\ ~ In "/"%char post.
Proof.
  destruct (in_dec ascii_dec "/"%char p) as [Hin|Hout].
  - right. destruct (last_split _ _ Hin) as (pre & post & -> & Hp).
    exists post. now rewrite parentPath_split.
  - left. split; [exact Hout | now apply parentPath_none].
Qed.

Lemma parentPath_shorter (p : str) :
  truthy (parentPath p) = true -> (List.length (parentPath p) < List.length p)%nat.
Proof.
  destruct (parentPath_cases p) as [[_ ->]|(post & E & _)]; [discriminate|].
  intros _. rewrite E at 2. rewrite length_app. cbn [List.length]. lia.
Qed.

Lemma count_occ_absent (c : ascii) (s : str) : ~ In c s -> count_occ ascii_dec s c = 0%nat.
Proof. apply count_occ_not_In. Qed.

Lemma parentPath_depth (p : str) :
  truthy (parentPath p) = true -> depth p = depth (parentPath p) + 1.
Proof.
  destruct (parentPath_cases p) as [[_ ->]|(post & E & Hp)]; [discriminate|].
  intros _. rewrite E at 1. unfold depth.
  rewrite count_occ_app. cbn [count_occ].
  destruct (ascii_dec "/" "/"); [|contradiction].
  rewrite (count_occ_absent _ _ Hp). lia.
Qed.

(** *** The store *)

Lemma get_push (map : store) (parent child p : str) :
  get (push map parent child) p =
  if str_eqb parent p then option_map (grown child) (get map p) else get map p.
Proof.
  induction map as [|[k item] map IH]; cbn [push get].
  - now destruct (str_eqb parent p).
  - destruct (str_eqb k parent) eqn:Ek.
    + apply str_eqb_eq in Ek. subst k. cbn [get].
      destruct (str_eqb parent p); reflexivity.
    + cbn [get]. destruct (str_eqb k p) eqn:Ep.
      * apply str_eqb_eq in Ep. subst k. apply str_eqb_neq in Ek.
        replace (str_eqb parent p) with false; [reflexivity|].
        symmetry. apply str_eqb_neq. congruence.
      * exact IH.
Qed.

Lemma fill_snoc (l : list FileEntry) (e : FileEntry) :
  fill (l ++ [e]) = set (fill l) (path e) (mkItem e []).
Proof. unfold fill. now rewrite fold_left_app. Qed.

Lemma get_fill (sorted : list FileEntry) (p : str) (item : Item) :
  get (fill sorted) p = Some item ->
  kids item = [] /\ path (fields item) = p /\ In (fields item) sorted.
Proof.
  induction sorted as [|e l IH] using rev_ind; [discriminate|].
  rewrite fill_snoc. unfold set. cbn [get].
  destruct (str_eqb (path e) p) eqn:E.
  - apply str_eqb_eq in E. intros [= <-]. cbn. repeat split; auto.
    apply in_or_app. right. now left.
  - intros H. destruct (IH H) as (? & ? & ?). repeat split; auto.
    apply in_or_app. now left.
Qed.

Lemma has_fill (sorted : list FileEntry) (p : str) :
  has (fill sorted) p = existsb (fun x => str_eqb (path x) p) sorted.
Proof.
  unfold has. induction sorted as [|e l IH] using rev_ind; [reflexivity|].
  rewrite fill_snoc, existsb_app. unfold set. cbn [get existsb].
  destruct (str_eqb (path e) p); cbn.
  - now rewrite orb_true_r.
  - now rewrite IH, orb_false_r.
Qed.

(** *** The second loop *)

Lemma filter_snoc {A} (f : A -> bool) (l : list A) (x : A) :
  filter f (l ++ [x]) = filter f l ++ (if f x then [x] else []).
Proof. rewrite filter_app. cbn [filter]. now destruct (f x). Qed.

Lemma link_spec (map0 : store) (done : list FileEntry) :
  let (map, tree) := fold_left place done (map0, []) in
  tree = List.map path (filter (top map0) done)
  /\ forall p, get map p =
       option_map (with_kids (List.map path (filter (child_of p) done))) (get map0 p).
Proof.
  induction done as [|e l IH] using rev_ind.
  - cbn. split; [reflexivity|]. intros p. destruct (get map0 p) as [[f k]|]; cbn; [|reflexivity].
    unfold with_kids. cbn. now rewrite app_nil_r.
  - rewrite fold_left_app. cbn [fold_left].
    destruct (fold_left place l (map0, [])) as [map tree]. destruct IH as [Ht Hm].
    assert (Hhas : forall p, has map p = has map0 p).
    { intros p. unfold has. rewrite Hm. now destruct (get map0 p). }
    unfold place. rewrite Hhas.
    assert (Htop : top map0 e =
                   negb (truthy (parentPath (path e)) && has map0 (parentPath (path e))))
      by reflexivity.
    assert (Hchild : forall p, child_of p e =
                   truthy (parentPath (path e)) && str_eqb (parentPath (path e)) p)
      by reflexivity.
    destruct (truthy (parentPath (path e)) && has map0 (parentPath (path e))) eqn:C.
    + apply andb_true_iff in C. destruct C as [Ct Ch]. split.
      * rewrite filter_snoc, Htop. cbn. now rewrite app_nil_r.
      * intros p. rewrite get_push, Hm, filter_snoc, Hchild, Ct. cbn [andb].
        destruct (str_eqb (parentPath (path e)) p).
        -- destruct (get map0 p) as [[f k]|]; cbn; [|reflexivity].
           unfold grown, with_kids. cbn. now rewrite map_app, app_assoc.
        -- now rewrite app_nil_r.
    + split.
      * rewrite filter_snoc, Htop, map_app. cbn. now rewrite Ht.
      * intros p. rewrite Hm, filter_snoc, Hchild.
        destruct (truthy (parentPath (path e))) eqn:Ct; cbn [andb];
          [|now rewrite app_nil_r].
        cbn [andb] in C.
        destruct (str_eqb (parentPath (path e)) p) eqn:Ep; [|now rewrite app_nil_r].
        apply str_eqb_eq in Ep. subst p. unfold has in C.
        destruct (get map0 (parentPath (path e))); [discriminate|reflexivity].
Qed.

End FileTreeFacts.

Section FileTreeResult.
Import Files FileTree.

Variable entries : list FileEntry.

Lemma sorted_entries (e : FileEntry) : In e (sortedEntries entries) <-> In e entries.
Proof.
  split; apply Permutation_in; [|symmetry]; apply sort_by_perm.
Qed.

Lemma path_length_bound (e : FileEntry) :
  In e entries -> (S (List.length (path e)) <= levels entries)%nat.
Proof.
  intros H. unfold levels. apply le_n_S.
  assert (F : Forall (fun k => (k <= list_max (List.map (fun e => List.length (path e)) entries))%nat)
                (List.map (fun e => List.length (path e)) entries))
    by now apply list_max_le.
  rewrite Forall_forall in F. apply F.
  apply in_map_iff. now exists e.
Qed.

Lemma children_in_entry_order (p : str) :
  filter (child_of p) (sortedEntries entries) = filter (child_of p) entries.
Proof.
  apply sort_by_stable. intros a b Ha Hb.
  apply andb_true_iff in Ha, Hb. destruct Ha as [Ta Ea], Hb as [Tb Eb].
  apply str_eqb_eq in Ea, Eb.
  rewrite (parentPath_depth _ Ta), (parentPath_depth _ Tb), Ea, Eb. lia.
Qed.

Lemma has_filled (p : str) :
  has (fill (sortedEntries entries)) p = existsb (fun x => str_eqb (path x) p) entries.
Proof.
  rewrite has_fill.
  destruct (existsb _ entries) eqn:E.
  - apply existsb_exists in E. destruct E as (x & Hx & E).
    apply existsb_exists. exists x. split; [now apply sorted_entries | exact E].
  - destruct (existsb _ (sortedEntries entries)) eqn:E'; [|reflexivity].
    apply existsb_exists in E'. destruct E' as (x & Hx & E').
    assert (existsb (fun x => str_eqb (path x) p) entries = true).
    { apply existsb_exists. exists x. split; [now apply sorted_entries | exact E']. }
    congruence.
Qed.

Lemma top_not_nested (e : FileEntry) : top (fill (sortedEntries entries)) e = negb (nested entries e).
Proof. unfold top, nested. now rewrite has_filled. Qed.

Lemma built_tree :
  snd (built entries) = List.map path (filter (fun e => negb (nested entries e)) (sortedEntries entries)).
Proof.
  pose proof (link_spec (fill (sortedEntries entries)) (sortedEntries entries)) as H. fold (link (sortedEntries entries) (fill (sortedEntries entries))) in H.
  fold (built entries) in H. destruct (built entries) as [map tree]. destruct H as [-> _]. cbn [snd].
  f_equal. apply filter_ext. exact top_not_nested.
Qed.

Lemma built_get (e : FileEntry) :
  In e entries ->
  exists e', In e' entries /\ path e' = path e
    /\ get (fst (built entries)) (path e) =
       Some (mkItem e' (List.map path (filter (child_of (path e)) entries))).
Proof.
  intros He.
  pose proof (link_spec (fill (sortedEntries entries)) (sortedEntries entries)) as H. fold (link (sortedEntries entries) (fill (sortedEntries entries))) in H.
  fold (built entries) in H. destruct (built entries) as [map tree]. destruct H as [_ H]. cbn [fst].
  rewrite H, children_in_entry_order.
  assert (Hhas : has (fill (sortedEntries entries)) (path e) = true).
  { rewrite has_filled. apply existsb_exists. exists e. split; [exact He|apply str_eqb_refl]. }
  unfold has in Hhas.
  destruct (get (fill (sortedEntries entries)) (path e)) as [[f k]|] eqn:G; [|discriminate].
  apply get_fill in G. cbn [fields kids] in G. destruct G as (-> & Hp & Hin).
  exists f. split; [now apply sorted_entries|]. split; [exact Hp|]. reflexivity.
Qed.

Lemma child_of_entry (p q : str) :
  In q (List.map path (filter (child_of p) entries)) ->
  (exists e, In e entries /\ path e = q) /\ (List.length p < List.length q)%nat.
Proof.
  intros H. apply in_map_iff in H. destruct H as (e & <- & H).
  apply filter_In in H. destruct H as [He Hc].
  apply andb_true_iff in Hc. destruct Hc as [Ht Hp]. apply str_eqb_eq in Hp.
  split; [now exists e|]. rewrite <- Hp. now apply parentPath_shorter.
Qed.

Lemma readable_children (n : nat) (p q : str) :
  readable entries (S n) p ->
  In q (List.map path (filter (child_of p) entries)) ->
  readable entries n q.
Proof.
  intros [_ Hn] Hq. apply child_of_entry in Hq. destruct Hq as [He Hl].
  split; [exact He | lia].
Qed.

Lemma value_node (n : nat) (p : str) :
  readable entries n p ->
  exists e, In e entries /\ path e = p
    /\ value n (fst (built entries)) p =
       [with_children e
          (flat_map (value (pred n) (fst (built entries)))
             (List.map path (filter (child_of p) entries)))].
Proof.
  intros [(e0 & He0 & <-) Hn].
  destruct n as [|n].
  - pose proof (path_length_bound e0 He0). lia.
  - destruct (built_get e0 He0) as (e' & He' & Hp & G).
    exists e'. split; [exact He'|]. split; [exact Hp|].
    cbn [value pred]. rewrite G. reflexivity.
Qed.

Lemma values_paths (n : nat) (ps : list str) :
  (forall p, In p ps -> readable entries n p) ->
  List.map path (flat_map (value n (fst (built entries))) ps) = ps.
Proof.
  induction ps as [|p ps IH]; intros H; [reflexivity|].
  cbn [flat_map]. rewrite map_app, IH by (intros q Hq; apply H; now right).
  destruct (value_node n p (H p (or_introl eq_refl))) as (e & _ & Hp & ->).
  cbn [List.map app]. now rewrite path_with_children, Hp.
Qed.

Lemma inside_nil (node : FileEntry) : ~ inside node [].
Proof. intros H. inversion H; contradiction. Qed.

Lemma inside_values (n : nat) :
  forall ps node,
    (forall p, In p ps -> readable entries n p) ->
    inside node (flat_map (value n (fst (built entries))) ps) ->
    exists e below,
      In e entries /\ node = with_children e below
      /\ List.map path below = List.map path (filter (child_of (path e)) entries).
Proof.
  induction n as [|n IH]; intros ps node Hps Hin.
  - exfalso. replace (flat_map (value 0 (fst (built entries))) ps) with (@nil FileEntry) in Hin.
    + now apply inside_nil in Hin.
    + clear. induction ps as [|p ps IH]; [reflexivity|]. cbn [flat_map]. now rewrite <- IH.
  - assert (Hnode : forall x, In x (flat_map (value (S n) (fst (built entries))) ps) ->
              exists e, In e entries
                /\ (forall q, In q (List.map path (filter (child_of (path e)) entries)) ->
                      readable entries n q)
                /\ x = with_children e
                     (flat_map (value n (fst (built entries)))
                        (List.map path (filter (child_of (path e)) entries)))).
    { intros x Hx. apply in_flat_map in Hx. destruct Hx as (p & Hp & Hx).
      destruct (value_node (S n) p (Hps p Hp)) as (e & He & Hpe & V).
      rewrite V in Hx. destruct Hx as [<-|[]]. cbn [pred]. subst p.
      exists e. split; [exact He|]. split; [|reflexivity].
      intros q Hq. eapply readable_children; eauto. }
    inversion Hin as [l Hhere|l parent below Hparent Hchildren Hbelow]; subst.
    + destruct (Hnode node Hhere) as (e & He & Hr & ->).
      exists e, (flat_map (value n (fst (built entries)))
                   (List.map path (filter (child_of (path e)) entries))).
      split; [exact He|]. split; [reflexivity|]. now apply values_paths.
    + destruct (Hnode parent Hparent) as (e & He & Hr & ->).
      rewrite children_with_children in Hchildren. injection Hchildren as <-.
      eapply IH; eauto.
Qed.

Lemma buildFileTree_value :
  buildFileTree entries = flat_map (value (levels entries) (fst (built entries))) (snd (built entries)).
Proof.
  unfold buildFileTree. fold (built entries). now destruct (built entries).
Qed.

Lemma tree_readable (p : str) : In p (snd (built entries)) -> readable entries (levels entries) p.
Proof.
  rewrite built_tree. intros H. apply in_map_iff in H. destruct H as (e & <- & H).
  apply filter_In in H. destruct H as [He _]. apply sorted_entries in He.
  split; [now exists e | lia].
Qed.

End FileTreeResult.

Section FileTreeOrder.
Import Files FileTree.

Lemma filter_of_map {A B} (f : B -> bool) (g : A -> B) (l : list A) :
  filter f (List.map g l) = List.map g (filter (fun x => f (g x)) l).
Proof.
  induction l as [|x l IH]; [reflexivity|]. cbn [List.map filter].
  destruct (f (g x)); cbn [List.map]; now rewrite IH.
Qed.

Lemma filter_both {A} (f g : A -> bool) (l : list A) :
  filter f (filter g l) = filter (fun x => f x && g x) l.
Proof.
  induction l as [|x l IH]; [reflexivity|]. cbn [filter].
  destruct (g x); cbn [filter]; rewrite ?andb_true_r, ?andb_false_r.
  - destruct (f x); now rewrite IH.
  - exact IH.
Qed.

Lemma StronglySorted_filter {A} (le : A -> A -> Prop) (f : A -> bool) (l : list A) :
  StronglySorted le l -> StronglySorted le (filter f l).
Proof.
  induction 1 as [|x l Hl IH Hx]; cbn [filter]; [constructor|].
  destruct (f x); [|exact IH]. constructor; [exact IH|].
  rewrite Forall_forall in *. intros y Hy. apply Hx. now apply filter_In in Hy.
Qed.

Lemma StronglySorted_map {A B} (le : B -> B -> Prop) (g : A -> B) (l : list A) :
  StronglySorted (fun a b => le (g a) (g b)) l -> StronglySorted le (List.map g l).
Proof.
  induction 1 as [|x l Hl IH Hx]; cbn [List.map]; constructor; [exact IH|].
  rewrite Forall_forall in *. intros y Hy. apply in_map_iff in Hy.
  destruct Hy as (z & <- & Hz). now apply Hx.
Qed.

Lemma sortedEntries_sorted (entries : list FileEntry) :
  StronglySorted (fun a b => depth (path a) <= depth (path b)) (sortedEntries entries).
Proof.
  unfold sortedEntries. apply sort_by_sorted; intros; lia.
Qed.

Lemma buildFileTree_roots (entries : list FileEntry) :
  List.map path (buildFileTree entries) =
  List.map path (filter (fun e => negb (nested entries e)) (sortedEntries entries)).
Proof.
  rewrite buildFileTree_value, values_paths by apply tree_readable.
  apply built_tree.
Qed.

Lemma inside_child (l : list FileEntry) (node child : FileEntry) (below : list FileEntry) :
  inside node l -> children node = Some below -> In child below -> inside child l.
Proof.
  induction 1 as [l Hin|l parent kids_ Hp Hc _ IH]; intros Hb Hchild.
  - eapply inside_below; eauto. now apply inside_here.
  - eapply inside_below; eauto.
Qed.

End FileTreeOrder.

(** X24. The top level of the tree holds the entries whose parent path is
    empty or is not the path of an entry: sorted by depth and, among those
    of one depth, in the order of the entries. *)
Theorem buildFileTree_top_level (entries : list Files.FileEntry) :
  let roots := List.map Files.path (FileTree.buildFileTree entries) in
  StronglySorted (fun a b => FileTree.depth a <= FileTree.depth b) roots
  /\ forall d,
       filter (fun p => FileTree.depth p =? d) roots =
       List.map Files.path
         (filter (fun e => (FileTree.depth (Files.path e) =? d)
                           && negb (FileTree.nested entries e)) entries).
Proof.
  cbn zeta. rewrite buildFileTree_roots. split.
  - apply StronglySorted_map, StronglySorted_filter, sortedEntries_sorted.
  - intros d. rewrite filter_of_map, filter_both. f_equal.
    unfold FileTree.sortedEntries. apply sort_by_stable.
    intros a b Ha Hb. apply andb_true_iff in Ha, Hb.
    destruct Ha as [Ha _], Hb as [Hb _]. apply Z.eqb_eq in Ha, Hb. lia.
Qed.

(** X25. Every node of the tree, at any depth, is an entry with a fresh
    [children] array, and its children are the entries directly under its
    path, in the order of the entries. *)
Theorem buildFileTree_children (entries : list Files.FileEntry) (node : Files.FileEntry) :
  FileTree.inside node (FileTree.buildFileTree entries) ->
  exists e below,
    In e entries /\ node = FileTree.with_children e below
    /\ List.map Files.path below =
       List.map Files.path (filter (FileTree.child_of (Files.path e)) entries).
Proof.
  rewrite buildFileTree_value. apply inside_values. apply tree_readable.
Qed.

Lemma buildFileTree_children_witness :
  let file := Files.mkFileEntry (lit "x.md") (lit "/a/x.md") false None None None None in
  let folder := Files.mkFileEntry (lit "a") (lit "/a") true None None None None in
  exists e below,
    In e [file; folder] /\ FileTree.with_children file [] = FileTree.with_children e below
    /\ List.map Files.path below =
       List.map Files.path (filter (FileTree.child_of (Files.path e)) [file; folder]).
Proof.
  cbn zeta. apply buildFileTree_children.
  eapply FileTree.inside_below; [ | | apply FileTree.inside_here ].
  - vm_compute. left. reflexivity.
  - reflexivity.
  - left. reflexivity.
Defined.

(** X26. No entry is lost: the tree has, at some depth, a node with the
    path of each entry. *)
Theorem buildFileTree_keeps_every_entry (entries : list Files.FileEntry)
    (e : Files.FileEntry) :
  In e entries ->
  exists node, FileTree.inside node (FileTree.buildFileTree entries)
    /\ Files.path node = Files.path e.
Proof.
  remember (List.length (Files.path e)) as n eqn:En. revert e En.
  induction n as [n IH] using lt_wf_ind. intros e En He.
  destruct (FileTree.nested entries e) eqn:N.
  - apply andb_true_iff in N. destruct N as [Ht Hp].
    apply existsb_exists in Hp. destruct Hp as (parent & Hparent & Ep).
    apply str_eqb_eq in Ep.
    assert (Hlt : (List.length (Files.path parent) < n)%nat).
    { rewrite Ep, En. now apply parentPath_shorter. }
    destruct (IH _ Hlt parent eq_refl Hparent) as (pnode & Hin & Hpath).
    pose proof Hin as Hshape. rewrite buildFileTree_value in Hshape.
    apply inside_values in Hshape; [|apply tree_readable].
    destruct Hshape as (e' & below & He' & -> & Hbelow).
    rewrite path_with_children in Hpath.
    assert (Hc : In (Files.path e) (List.map Files.path below)).
    { rewrite Hbelow. apply in_map. apply filter_In. split; [exact He|].
      unfold FileTree.child_of. rewrite Ht. cbn [andb]. apply str_eqb_eq. congruence. }
    apply in_map_iff in Hc. destruct Hc as (child & Hcp & Hchild).
    exists child. split; [|exact Hcp].
    eapply inside_child; eauto. apply children_with_children.
  - assert (Hr : In (Files.path e) (List.map Files.path (FileTree.buildFileTree entries))).
    { rewrite buildFileTree_roots. apply in_map. apply filter_In.
      split; [now apply sorted_entries | now rewrite N]. }
    apply in_map_iff in Hr. destruct Hr as (node & Hp & Hn).
    exists node. split; [now apply FileTree.inside_here | exact Hp].
Qed.

Lemma buildFileTree_keeps_every_entry_witness :
  let file := Files.mkFileEntry (lit "x.md") (lit "/a/x.md") false None None None None in
  let folder := Files.mkFileEntry (lit "a") (lit "/a") true None None None None in
  exists node, FileTree.inside node (FileTree.buildFileTree [file; folder])
    /\ Files.path node = lit "/a/x.md".
Proof.
  cbn zeta.
  apply (buildFileTree_keeps_every_entry
           [Files.mkFileEntry (lit "x.md") (lit "/a/x.md") false None None None None;
            Files.mkFileEntry (lit "a") (lit "/a") true None None None None]
           (Files.mkFileEntry (lit "x.md") (lit "/a/x.md") false None None None None)).
  left. reflexivity.
Defined.

(** X27. The parent path of a path is what stands before its last slash,
    and is empty for a path without a slash. *)
Theorem parentPath_is_before_last_slash (pre post : str) :
  ~ In "/"%char post ->
  FileTree.parentPath (pre ++ "/"%char :: post) = pre
  /\ FileTree.parentPath post = [].
Proof.
  intros H. split; [now apply parentPath_split | now apply parentPath_none].
Qed.

Lemma parentPath_is_before_last_slash_witness :
  FileTree.parentPath (lit "/projects/notes/todo.md") = lit "/projects/notes"
  /\ FileTree.parentPath (lit "todo.md") = [].
Proof.
  apply (parentPath_is_before_last_slash (lit "/projects/notes") (lit "todo.md")).
  vm_compute. intros H. repeat (destruct H as [H|H]; [discriminate|]). exact H.
Defined.
